(** * httprouter: radix match tree, path normalizer and route table

    A shallow embedding of [tree.go] and of the route-table part of
    [router.go].  Go strings are byte strings, modelled as [list ascii];
    a [*node] owned by exactly one parent slot is modelled as a value of
    the inductive type [node]; a panic is an explicit outcome that keeps
    the state reached when it was raised. *)

From Stdlib Require Import Ascii String ZArith Lia.
From stdpp Require Import base list strings gmap sorting.

Local Open Scope Z_scope.
Local Open Scope nat_scope.
Set Warnings "-register-all".

(** ** Byte strings *)

Abbreviation str := (list ascii).

(** A Go string literal. *)
Definition lit (x : string) : str := list_ascii_of_string x.

Definition colon : ascii := ":"%char.
Definition star : ascii := "*"%char.
Definition slash : ascii := "/"%char.

Definition byte_val (c : ascii) : N := N_of_ascii c.
Definition byte_of (v : N) : ascii := ascii_of_N v.

(** [c == ':' || c == '*'] *)
Definition is_wildcard (c : ascii) : bool :=
  Ascii.eqb c colon || Ascii.eqb c star.

(** [strings.HasPrefix(s, prefix)] *)
Fixpoint HasPrefix (x prefix : str) : bool :=
  match prefix, x with
  | [], _ => true
  | p :: prefix', c :: x' => Ascii.eqb c p && HasPrefix x' prefix'
  | _ :: _, [] => false
  end.

(** [strings.IndexByte(s, c)], with [None] for -1. *)
Fixpoint IndexByte (x : str) (c : ascii) : option nat :=
  match x with
  | [] => None
  | b :: x' => if Ascii.eqb b c then Some 0 else S <$> IndexByte x' c
  end.

(** ** UTF-8 decoding, as performed by [for i, c := range aString] and
    undone by [strings.Builder.WriteRune] *)

Definition RuneError : N := 0xFFFD%N.

Definition in_range (lo hi v : N) : bool := (lo <=? v)%N && (v <=? hi)%N.
Definition is_cont (c : ascii) : bool := in_range 0x80 0xBF (byte_val c).
Definition cont_bits (c : ascii) : N := N.land (byte_val c) 0x3F.

(** The allowed range of the second byte, by leading byte, for the
    three- and four-byte forms. *)
Definition second_range (b0 : N) : N * N :=
  if (b0 =? 0xE0)%N then (0xA0, 0xBF)%N
  else if (b0 =? 0xED)%N then (0x80, 0x9F)%N
  else if (b0 =? 0xF0)%N then (0x90, 0xBF)%N
  else if (b0 =? 0xF4)%N then (0x80, 0x8F)%N
  else (0x80, 0xBF)%N.

(** The (index, rune) pairs that a [range] loop over the string yields,
    the first one having index [i].  A byte that does not start a
    well-formed sequence yields [RuneError] and advances by one byte. *)
Fixpoint runes_from (i : nat) (x : str) : list (nat * N) :=
  match x with
  | [] => []
  | c0 :: x1 =>
    let b0 := byte_val c0 in
    let invalid := (i, RuneError) :: runes_from (S i) x1 in
    if (b0 <? 0x80)%N then (i, b0) :: runes_from (S i) x1
    else if in_range 0xC2 0xDF b0 then
      match x1 with
      | c1 :: x2 =>
        if is_cont c1
        then (i, N.lor (N.shiftl (N.land b0 0x1F) 6) (cont_bits c1))
               :: runes_from (2 + i) x2
        else invalid
      | _ => invalid
      end
    else if in_range 0xE0 0xEF b0 then
      match x1 with
      | c1 :: (c2 :: x3) as x2 =>
        if in_range (fst (second_range b0)) (snd (second_range b0)) (byte_val c1)
           && is_cont c2
        then (i, N.lor (N.shiftl (N.land b0 0x0F) 12)
                   (N.lor (N.shiftl (cont_bits c1) 6) (cont_bits c2)))
               :: runes_from (3 + i) x3
        else invalid
      | _ => invalid
      end
    else if in_range 0xF0 0xF4 b0 then
      match x1 with
      | c1 :: (c2 :: (c3 :: x4) as x3) as x2 =>
        if in_range (fst (second_range b0)) (snd (second_range b0)) (byte_val c1)
           && is_cont c2 && is_cont c3
        then (i, N.lor (N.shiftl (N.land b0 0x07) 18)
                   (N.lor (N.shiftl (cont_bits c1) 12)
                      (N.lor (N.shiftl (cont_bits c2) 6) (cont_bits c3))))
               :: runes_from (4 + i) x4
        else invalid
      | _ => invalid
      end
    else invalid
  end.

Definition runes (x : str) : list (nat * N) := runes_from 0 x.

(** [utf8.AppendRune]: the bytes [WriteRune] appends. *)
Definition encode_rune (r : N) : str :=
  if (r <=? 0x7F)%N then [byte_of r]
  else if (r <=? 0x7FF)%N then
    [byte_of (N.lor 0xC0 (N.shiftr r 6));
     byte_of (N.lor 0x80 (N.land r 0x3F))]
  else if (0x10FFFF <? r)%N || in_range 0xD800 0xDFFF r then
    [byte_of 0xEF; byte_of 0xBF; byte_of 0xBD]
  else if (r <=? 0xFFFF)%N then
    [byte_of (N.lor 0xE0 (N.shiftr r 12));
     byte_of (N.lor 0x80 (N.land (N.shiftr r 6) 0x3F));
     byte_of (N.lor 0x80 (N.land r 0x3F))]
  else
    [byte_of (N.lor 0xF0 (N.shiftr r 18));
     byte_of (N.lor 0x80 (N.land (N.shiftr r 12) 0x3F));
     byte_of (N.lor 0x80 (N.land (N.shiftr r 6) 0x3F));
     byte_of (N.lor 0x80 (N.land r 0x3F))].

Definition rune_is_wildcard (r : N) : bool :=
  (r =? byte_val colon)%N || (r =? byte_val star)%N.

(** ** Panics *)

Inductive panic : Type :=
  | OnlyOneWildcardPerSegment (fullpath : str)
  | WildcardMustBeNamed (fullpath : str)
  | CatchAllWithinSegment (fullpath : str)
  | CatchAllMustBeLast (fullpath : str)
  | CatchAllNotAtEnd (fullpath : str)
  | AmbiguousPath (fullpath existing : str)
  | HandleAlreadyRegistered (fullpath : str)
  | MethodEmpty
  | PathMustBeginWithSlash (path : str)
  | HandleNil
  | IndexOutOfRange.

(** ** tree.go: helpers *)

Definition min (a b : nat) : nat := if a <=? b then a else b.

(** The loop of [longestCommonPrefix]: advance [i] while [i < max] and
    the bytes at [i] agree. *)
Fixpoint lcp_loop (fuel i max : nat) (a b : str) : nat :=
  match fuel with
  | 0 => i
  | S fuel' =>
    if i <? max then
      match a !! i, b !! i with
      | Some x, Some y => if Ascii.eqb x y then lcp_loop fuel' (S i) max a b else i
      | _, _ => i
      end
    else i
  end.

Definition longestCommonPrefix (a b : str) : nat :=
  let max := min (length a) (length b) in
  lcp_loop max 0 max a b.

(** [findNextWildcard]: the wildcard byte and its index, [None] for
    the index -1. *)
Fixpoint find_wild_rune (l : list (nat * N)) : option (ascii * nat) :=
  match l with
  | [] => None
  | (i, c) :: l' =>
    if rune_is_wildcard c then Some (byte_of c, i) else find_wild_rune l'
  end.

Definition findNextWildcard (path : str) : option (ascii * nat) :=
  find_wild_rune (runes path).

(** ** Outcomes

    A call either returns, panics, or (in the model only) exhausts the
    recursion budget that stands for a Go loop. *)

Inductive res (A : Type) : Type :=
  | Ret (a : A)
  | Panics (p : panic)
  | NoFuel.
Arguments Ret {A} a.
Arguments Panics {A} p.
Arguments NoFuel {A}.

(** ** tree.go: normalizePath and denormalizePath *)

(** The labelled inner loop of [normalizePath]: scan the bytes after the
    wildcard introducer.  [Ret (Some e)]: a slash at offset [e];
    [Ret None]: the loop ran to the end; a second introducer panics. *)
Fixpoint token_scan (originalPath l : str) (e : nat) : res (option nat) :=
  match l with
  | [] => Ret None
  | c :: l' =>
    if Ascii.eqb c slash then Ret (Some e)
    else if is_wildcard c then Panics (OnlyOneWildcardPerSegment originalPath)
    else token_scan originalPath l' (S e)
  end.

Fixpoint normalize_loop (fuel : nat) (originalPath chars : str) (start : nat)
    (normalizedPath : str) (wildcardNames : list str) : res (str * list str) :=
  match chars !! start with
  | None => Ret (normalizedPath, wildcardNames)
  | Some c =>
    match fuel with
    | 0 => NoFuel
    | S fuel' =>
      let normalizedPath := normalizedPath ++ [c] in
      if negb (is_wildcard c) then
        normalize_loop fuel' originalPath chars (S start) normalizedPath wildcardNames
      else
        match token_scan originalPath (drop (start + 1) chars) 0 with
        | Panics p => Panics p
        | NoFuel => NoFuel
        | Ret found =>
          let tokenEnd :=
            match found with
            | Some e => start + 1 + e
            | None => length chars
            end in
          if tokenEnd =? start + 1 then Panics (WildcardMustBeNamed originalPath)
          else if Ascii.eqb c star && (1 <? start)
                  && negb (bool_decide (chars !! (start - 1) = Some slash))
          then Panics (CatchAllWithinSegment originalPath)
          else if Ascii.eqb c star && negb (tokenEnd =? length chars)
          then Panics (CatchAllMustBeLast originalPath)
          else
            let wildcardName := take (tokenEnd - (start + 1)) (drop (start + 1) chars) in
            normalize_loop fuel' originalPath chars (start + (tokenEnd - start))
              normalizedPath (wildcardNames ++ [wildcardName])
        end
    end
  end.

Definition normalizePath (path : str) : res (str * list str) :=
  normalize_loop (length path) path path 0 [] [].

(** The loop of [denormalizePath] over the runes of the normalized path;
    [wildcardNames[i]] panics when [i] is out of range. *)
Fixpoint denormalize_loop (l : list (nat * N)) (wildcardNames : list str)
    (i : nat) (path : str) : res str :=
  match l with
  | [] => Ret path
  | (_, c) :: l' =>
    if negb (rune_is_wildcard c) then
      denormalize_loop l' wildcardNames i (path ++ encode_rune c)
    else
      match wildcardNames !! i with
      | None => Panics IndexOutOfRange
      | Some name => denormalize_loop l' wildcardNames (S i) (path ++ name)
      end
  end.

Definition denormalizePath (normalizedPath : str) (wildcardNames : list str) : res str :=
  denormalize_loop (runes normalizedPath) wildcardNames 0 [].

(** ** tree.go: nodes *)

Module nodeType.

Inductive t : Type := static | root | param | catchAll.

Definition eqb (a b : t) : bool :=
  match a, b with
  | static, static | root, root | param, param | catchAll, catchAll => true
  | _, _ => false
  end.

End nodeType.

(** [uint32] arithmetic of the priority counter. *)
Definition uint32_mod : Z := (2 ^ 32)%Z.
Definition uint32_incr (p : Z) : Z := ((p + 1) mod uint32_mod)%Z.
Definition uint32_decr (p : Z) : Z := ((p - 1) mod uint32_mod)%Z.

Section Tree.

(** [http.Handler]: an opaque reference; [None] is the nil handler. *)
Context {H : Type}.

Inductive node : Type := mkNode {
  path : str;
  priority : Z;
  nType : nodeType.t;
  literals : list node;
  indices : str;
  wild : option node;
  catchAll : option node;
  handle : option H;
  wildcardNames : list str
}.

(** [&node{}] *)
Definition new_node : node :=
  mkNode [] 0%Z nodeType.static [] [] None None None [].

Definition set_path (n : node) (v : str) : node :=
  mkNode v (priority n) (nType n) (literals n) (indices n) (wild n)
    (catchAll n) (handle n) (wildcardNames n).
Definition set_priority (n : node) (v : Z) : node :=
  mkNode (path n) v (nType n) (literals n) (indices n) (wild n)
    (catchAll n) (handle n) (wildcardNames n).
Definition set_nType (n : node) (v : nodeType.t) : node :=
  mkNode (path n) (priority n) v (literals n) (indices n) (wild n)
    (catchAll n) (handle n) (wildcardNames n).
Definition set_literals (n : node) (v : list node) : node :=
  mkNode (path n) (priority n) (nType n) v (indices n) (wild n)
    (catchAll n) (handle n) (wildcardNames n).
Definition set_indices (n : node) (v : str) : node :=
  mkNode (path n) (priority n) (nType n) (literals n) v (wild n)
    (catchAll n) (handle n) (wildcardNames n).
Definition set_wild (n : node) (v : option node) : node :=
  mkNode (path n) (priority n) (nType n) (literals n) (indices n) v
    (catchAll n) (handle n) (wildcardNames n).
Definition set_catchAll (n : node) (v : option node) : node :=
  mkNode (path n) (priority n) (nType n) (literals n) (indices n) (wild n)
    v (handle n) (wildcardNames n).
Definition set_handle (n : node) (v : option H) (names : list str) : node :=
  mkNode (path n) (priority n) (nType n) (literals n) (indices n) (wild n)
    (catchAll n) v names.

(** [n.priority++] *)
Definition incr_priority (n : node) : node :=
  set_priority n (uint32_incr (priority n)).

(** ** tree.go: incrementLiteralPrio *)

(** [cs[i], cs[j] = cs[j], cs[i]] *)
Definition swap (cs : list node) (i j : nat) : list node :=
  match cs !! i, cs !! j with
  | Some a, Some b => <[i:=b]> (<[j:=a]> cs)
  | _, _ => cs
  end.

(** The move-to-front loop: while [newPos > 0] and the left neighbour has
    a smaller priority, swap and step left. *)
Fixpoint move_front (cs : list node) (prio : Z) (newPos : nat) : list node * nat :=
  match newPos with
  | 0 => (cs, 0)
  | S k =>
    match cs !! k with
    | Some c =>
      if (priority c <? prio)%Z then move_front (swap cs k (S k)) prio k
      else (cs, newPos)
    | None => (cs, newPos)
    end
  end.

(** [x[lo:hi]]; [None] when the bounds are out of range. *)
Definition slice (x : str) (lo hi : nat) : option str :=
  if (lo <=? hi) && (hi <=? length x) then Some (take (hi - lo) (drop lo x))
  else None.

(** Returns the node as mutated and the new position; [None] when an
    index or a slice bound is out of range. *)
Definition incrementLiteralPrio (n : node) (pos : nat) : node * option nat :=
  match literals n !! pos with
  | None => (n, None)
  | Some c =>
    let cs := <[pos := incr_priority c]> (literals n) in
    let prio := uint32_incr (priority c) in
    let '(cs, newPos) := move_front cs prio pos in
    let n := set_literals n cs in
    if bool_decide (newPos = pos) then (n, Some newPos)
    else
      match slice (indices n) 0 newPos, slice (indices n) pos (pos + 1),
            slice (indices n) newPos pos, slice (indices n) (pos + 1) (length (indices n)) with
      | Some a, Some b, Some c, Some d => (set_indices n (a ++ b ++ c ++ d), Some newPos)
      | _, _, _, _ => (n, None)
      end
  end.

(** ** tree.go: insertChild *)

(** The message of the ambiguity panic is built with [denormalizePath],
    which may itself panic. *)
Definition ambiguous (fullpath : str) (n : node) : res unit :=
  match denormalizePath fullpath (wildcardNames n) with
  | Ret existingPath => Panics (AmbiguousPath fullpath existingPath)
  | Panics p => Panics p
  | NoFuel => NoFuel
  end.

Fixpoint insertChild (fuel : nat) (n : node) (fullpath pth : str)
    (h : option H) (names : list str) : node * res unit :=
  match findNextWildcard pth with
  | None =>
    (* no wildcard found: insert the path and handle *)
    (set_handle (set_path n pth) h names, Ret tt)
  | Some (wildcard, i) =>
    if Ascii.eqb wildcard colon then
      match wild n with
      | Some _ => (n, ambiguous fullpath n)
      | None =>
        let n := if 0 <? i then set_path n (take i pth) else n in
        let pth := if 0 <? i then drop i pth else pth in
        let w := incr_priority
                   (set_path (set_nType new_node nodeType.param) [colon]) in
        if 1 <? length pth then
          match fuel with
          | 0 => (set_wild n (Some w), NoFuel)
          | S fuel' =>
            let pth := drop 1 pth in
            let child := set_priority new_node 1%Z in
            let '(child, r) := insertChild fuel' child fullpath pth h names in
            (set_wild n (Some (set_literals w [child])), r)
          end
        else (set_wild n (Some (set_handle w h names)), Ret tt)
      end
    else
      if negb (i =? length pth - 1) then (n, Panics (CatchAllNotAtEnd fullpath))
      else
        match catchAll n with
        | Some _ => (n, ambiguous fullpath n)
        | None =>
          let n := if bool_decide (path n = []) then set_path n (take i pth) else n in
          let c := incr_priority
                     (set_handle
                        (set_nType (set_path new_node [star]) nodeType.catchAll)
                        h names) in
          (set_catchAll n (Some c), Ret tt)
        end
  end.

(** ** tree.go: addRoute *)

(** The split of a node at the path inflection [i < len(n.path)]. *)
Definition split (n : node) (i : nat) (pth : str) : node :=
  let child :=
    mkNode (drop i (path n)) (uint32_decr (priority n)) nodeType.static
      (literals n) (indices n) (wild n) (catchAll n) (handle n)
      (wildcardNames n) in
  mkNode (take i pth) (priority n) (nType n) [child]
    (match path n !! i with Some c => [c] | None => [] end)
    None None None (wildcardNames n).

(** [for i, c := range []byte(n.indices) { if c == nextChar ... }]: the
    first index holding [nextChar]. *)
Fixpoint index_of (nextChar : ascii) (idx : str) : option nat :=
  match idx with
  | [] => None
  | c :: idx' =>
    if Ascii.eqb c nextChar then Some 0 else S <$> index_of nextChar idx'
  end.

(** One iteration of the [walk] loop and, through the recursive calls,
    the iterations that follow it.  The node returned is [n] as the call
    left it, whether it returned or panicked. *)
Fixpoint walk (fuel : nat) (n : node) (fullpath pth : str)
    (h : option H) (names : list str) : node * res unit :=
  match fuel with
  | 0 => (n, NoFuel)
  | S fuel' =>
    let i := longestCommonPrefix (path n) pth in
    (* split the node at the path inflection *)
    let n := if i <? length (path n) then split n i pth else n in
    (* move the path up *)
    let pth :=
      if i <? length pth then drop i pth
      else if i =? length pth then [] else pth in
    match pth with
    | nextChar :: _ =>
      match (if Ascii.eqb nextChar colon && (1 <? length pth) then wild n else None) with
      | Some w =>
        (* on a wildcard character, follow the wild path *)
        let '(w, r) := walk fuel' w fullpath pth h names in
        (set_wild n (Some w), r)
      | None =>
        match (if nodeType.eqb (nType n) nodeType.param then literals n else []) with
        | c :: cs =>
          (* the wild node has a subtree *)
          let '(c, r) := walk fuel' (incr_priority c) fullpath pth h names in
          (set_literals n (c :: cs), r)
        | [] =>
          match index_of nextChar (indices n) with
          | Some i =>
            (* a child with the next path byte exists *)
            match incrementLiteralPrio n i with
            | (n, None) => (n, Panics IndexOutOfRange)
            | (n, Some i) =>
              match literals n !! i with
              | None => (n, Panics IndexOutOfRange)
              | Some c =>
                let '(c, r) := walk fuel' c fullpath pth h names in
                (set_literals n (<[i := c]> (literals n)), r)
              end
            end
          | None =>
            if negb (is_wildcard nextChar) then
              let n := set_indices n (indices n ++ [nextChar]) in
              let n := set_literals n (literals n ++ [new_node]) in
              let at_child := length (literals n) - 1 in
              let pos := length (indices n) - 1 in
              match incrementLiteralPrio n pos with
              | (n, None) => (n, Panics IndexOutOfRange)
              | (n, Some newPos) =>
                let at_child := if bool_decide (pos = at_child) then newPos else at_child in
                match literals n !! at_child with
                | None => (n, Panics IndexOutOfRange)
                | Some child =>
                  let '(child, r) :=
                    insertChild (length pth) child fullpath pth h names in
                  (set_literals n (<[at_child := child]> (literals n)), r)
                end
              end
            else insertChild (length pth) n fullpath pth h names
          end
        end
      end
    | [] =>
      (* node already exists, add handle if possible *)
      match handle n with
      | Some _ => (n, Panics (HandleAlreadyRegistered fullpath))
      | None => (set_handle n h names, Ret tt)
      end
    end
  end.

(** The number of levels below a node, which bounds the iterations of
    the [walk] loop. *)
Fixpoint height (n : node) : nat :=
  match n with
  | mkNode _ _ _ lits _ w c _ _ =>
    S (Nat.max (foldr (fun l acc => Nat.max (height l) acc) 0 lits)
         (Nat.max (from_option height 0 w) (from_option height 0 c)))
  end.

Definition addRoute (n : node) (pth : str) (h : option H) : node * res unit :=
  let fullpath := pth in
  let n := incr_priority n in
  match normalizePath pth with
  | Panics p => (n, Panics p)
  | NoFuel => (n, NoFuel)
  | Ret (pth, wildcardNames) =>
    if (length (path n) =? 0) && (length (indices n) =? 0) then
      (* empty tree *)
      let n := set_nType n nodeType.root in
      insertChild (length pth) n fullpath pth h wildcardNames
    else walk (2 * height n + 2) n fullpath pth h wildcardNames
  end.

(** ** tree.go: search *)

Inductive found : Type :=
  | NotFound
  | Found (n : node) (params : list str)
  | SearchPanics.

(** The scan of [n.indices] for [nextChar], with [lits] the children
    from the current index on: each hit recurses into [n.literals[i]]
    and returns its match if it has one; [otherwise] is the code after
    the loop. *)
Fixpoint scan_literals (srch : node -> str -> found) (nextChar : ascii) (pth : str)
    (lits : list node) (idx : str) (otherwise : found) : found :=
  match idx with
  | [] => otherwise
  | c :: idx' =>
    match lits with
    | l :: lits' =>
      if Ascii.eqb c nextChar then
        match srch l pth with
        | NotFound => scan_literals srch nextChar pth lits' idx' otherwise
        | r => r
        end
      else scan_literals srch nextChar pth lits' idx' otherwise
    | [] =>
      if existsb (fun c => Ascii.eqb c nextChar) idx then SearchPanics else otherwise
    end
  end.

Fixpoint search (n : node) (pth : str) : found :=
  match n with
  | mkNode prefix _ _ lits idx w ca _ _ =>
    (* the wildcard and catch-all part, on the path left over *)
    let fallback (pth : str) : found :=
      match pth with
      | c :: _ =>
        if negb (Ascii.eqb c slash) then
          let token_rest :=
            match w, IndexByte pth slash with
            | Some _, Some (S e) => (take (S e) pth, drop (S e) pth)
            | Some _, _ => (pth, [])
            | None, _ => ([], pth)
            end in
          let token := fst token_rest in
          let pth := snd token_rest in
          let catch_all :=
            match ca with
            | Some c => Found c [pth]
            | None => NotFound
            end in
          match w with
          | Some (mkNode _ _ _ wlits _ _ _ wh _ as wn) =>
            match pth with
            | _ :: _ =>
              match wlits with
              | l :: _ =>
                match search l pth with
                | Found wFound wParams => Found wFound (token :: wParams)
                | NotFound => catch_all
                | SearchPanics => SearchPanics
                end
              | [] => catch_all
              end
            | [] =>
              match wh with
              | Some _ => Found wn [token]
              | None => catch_all
              end
            end
          | None => catch_all
          end
        else NotFound
      | [] => NotFound
      end in
    match pth with
    | [] => Found n []
    | _ :: _ =>
      if HasPrefix pth prefix then
        let pth := drop (length prefix) pth in
        match pth with
        | [] => Found n []
        | nextChar :: _ =>
          scan_literals search nextChar pth lits idx (fallback pth)
        end
      else fallback pth
    end
  end.

(** ** router.go: the route table *)

Record Param : Type := mkParam { Key : str; Value : str }.

Definition catchAllParam : str := lit "$catchAllParam".
Definition MethodOptions : str := lit "OPTIONS".

Record Router : Type := mkRouter {
  trees : gmap str node;
  HandleMethodNotAllowed : bool;
  HandleOPTIONS : bool;
  globalAllowed : str;
  UseRawPath : bool;
  CleanPath : bool;
  RedirectTrailingSlash : bool
}.

Definition New : Router := mkRouter ∅ true true [] false false true.

Definition set_trees (r : Router) (v : gmap str node) : Router :=
  mkRouter v (HandleMethodNotAllowed r) (HandleOPTIONS r) (globalAllowed r)
    (UseRawPath r) (CleanPath r) (RedirectTrailingSlash r).
Definition set_globalAllowed (r : Router) (v : str) : Router :=
  mkRouter (trees r) (HandleMethodNotAllowed r) (HandleOPTIONS r) v
    (UseRawPath r) (CleanPath r) (RedirectTrailingSlash r).

(** [a < b] on Go strings: bytewise lexicographic order. *)
Fixpoint str_ltb (a b : str) : bool :=
  match a, b with
  | _, [] => false
  | [], _ :: _ => true
  | x :: a', y :: b' =>
    if (byte_val x <? byte_val y)%N then true
    else if (byte_val y <? byte_val x)%N then false
    else str_ltb a' b'
  end.

(** The inner loop of the sort in [allowed]:
    [for j := i; j > 0 && allowed[j] < allowed[j-1]; j--], swapping. *)
Fixpoint sort_inner (allowed : list str) (j : nat) : list str :=
  match j with
  | 0 => allowed
  | S j' =>
    match allowed !! j, allowed !! j' with
    | Some a, Some b =>
      if str_ltb a b then sort_inner (<[j := b]> (<[j' := a]> allowed)) j'
      else allowed
    | _, _ => allowed
    end
  end.

(** The outer loop: [for i, l := 1, len(allowed); i < l; i++]. *)
Fixpoint sort_outer (fuel i l : nat) (allowed : list str) : list str :=
  match fuel with
  | 0 => allowed
  | S fuel' =>
    if i <? l then sort_outer fuel' (S i) l (sort_inner allowed i) else allowed
  end.

Definition sort_allowed (allowed : list str) : list str :=
  sort_outer (length allowed) 1 (length allowed) allowed.

(** [strings.Join(elems, sep)] *)
Fixpoint Join (elems : list str) (sep : str) : str :=
  match elems with
  | [] => []
  | [e] => e
  | e :: elems' => e ++ sep ++ Join elems' sep
  end.

(** [r.trees[method].search(path)]; a method without a tree gives a nil
    receiver, which [search] dereferences unless the path is empty. *)
Definition search_method (r : Router) (method pth : str) : found :=
  match trees r !! method with
  | Some n => search n pth
  | None => match pth with [] => NotFound | _ :: _ => SearchPanics end
  end.

(** The loop of [allowed] over the methods of a specific path, in the
    order [methods] in which the map is ranged over. *)
Fixpoint allowed_path (r : Router) (methods : list str) (pth reqMethod : str)
    (allowed : list str) : res (list str) :=
  match methods with
  | [] => Ret allowed
  | method :: methods' =>
    if bool_decide (method = reqMethod) || bool_decide (method = MethodOptions)
    then allowed_path r methods' pth reqMethod allowed
    else
      match search_method r method pth with
      | SearchPanics => Panics IndexOutOfRange
      | Found foundNode _ =>
        match handle foundNode with
        | Some _ => allowed_path r methods' pth reqMethod (allowed ++ [method])
        | None => allowed_path r methods' pth reqMethod allowed
        end
      | NotFound => allowed_path r methods' pth reqMethod allowed
      end
  end.

(** [allowed], with the order [methods] in which [range r.trees] visits
    the keys made explicit. *)
Definition allowed_in_order (r : Router) (methods : list str) (pth reqMethod : str)
    : res str :=
  let finish (allowed : list str) : str :=
    if 0 <? length allowed then
      Join (sort_allowed (allowed ++ [MethodOptions])) (lit ", ")
    else [] in
  if bool_decide (pth = lit "*") then
    if bool_decide (reqMethod = []) then
      Ret (finish (filter (fun method => method ≠ MethodOptions) methods))
    else Ret (globalAllowed r)
  else
    match allowed_path r methods pth reqMethod [] with
    | Ret allowed => Ret (finish allowed)
    | Panics p => Panics p
    | NoFuel => NoFuel
    end.

(** The keys of the table in one fixed order. *)
Definition methods_of (r : Router) : list str := (map_to_list (trees r)).*1.

Definition allowed (r : Router) (pth reqMethod : str) : res str :=
  allowed_in_order r (methods_of r) pth reqMethod.

(** [Router.Handler]: the router as the call left it, and the outcome. *)
Definition Handler (r : Router) (method pth : str) (h : option H)
    : Router * res unit :=
  if bool_decide (method = []) then (r, Panics MethodEmpty)
  else if negb (bool_decide (head pth = Some slash))
  then (r, Panics (PathMustBeginWithSlash pth))
  else
    match h with
    | None => (r, Panics HandleNil)
    | Some _ =>
      let '(r, root) :=
        match trees r !! method with
        | Some root => (r, root)
        | None =>
          let r := set_trees r (<[method := new_node]> (trees r)) in
          match allowed r (lit "*") [] with
          | Ret a => (set_globalAllowed r a, new_node)
          | _ => (r, new_node)
          end
        end in
      let '(root, res) := addRoute root pth h in
      (set_trees r (<[method := root]> (trees r)), res)
    end.

(** The loop of [lookup] filling [params] by index. *)
Fixpoint fill_params (names : list str) (i : nat) (paramValues : list str)
    (params : list Param) : res (list Param) :=
  match names with
  | [] => Ret params
  | name :: names' =>
    match paramValues !! i with
    | Some v =>
      if i <? length params then
        let key := if bool_decide (name = [star]) then catchAllParam else name in
        fill_params names' (S i) paramValues (<[i := mkParam key v]> params)
      else Panics IndexOutOfRange
    | None => Panics IndexOutOfRange
    end
  end.

Definition lookup (r : Router) (method pth : str) : res (option H * list Param) :=
  match trees r !! method with
  | Some root =>
    match search root pth with
    | SearchPanics => Panics IndexOutOfRange
    | NotFound => Ret (None, [])
    | Found nodeFound paramValues =>
      match handle nodeFound with
      | None => Ret (None, [])
      | Some h =>
        if 0 <? length paramValues then
          let params := replicate (length paramValues) (mkParam [] []) in
          match fill_params (wildcardNames nodeFound) 0 paramValues params with
          | Ret params => Ret (Some h, params)
          | Panics p => Panics p
          | NoFuel => NoFuel
          end
        else Ret (Some h, [])
      end
    end
  | None => Ret (None, [])
  end.

End Tree.

(** * Properties *)

Section Search.

Context {H : Type}.
Implicit Types (n c l : @node H) (pth rest : str).

(** One unfolding of [search], on the record fields. *)
Definition search_fallback n (pth : str) : found :=
  match pth with
  | c :: _ =>
    if negb (Ascii.eqb c slash) then
      let token_rest :=
        match wild n, IndexByte pth slash with
        | Some _, Some (S e) => (take (S e) pth, drop (S e) pth)
        | Some _, _ => (pth, [])
        | None, _ => ([], pth)
        end in
      let token := fst token_rest in
      let pth := snd token_rest in
      let catch_all :=
        match catchAll n with
        | Some c => Found c [pth]
        | None => NotFound
        end in
      match wild n with
      | Some wn =>
        match pth with
        | _ :: _ =>
          match literals wn with
          | l :: _ =>
            match search l pth with
            | Found wFound wParams => Found wFound (token :: wParams)
            | NotFound => catch_all
            | SearchPanics => SearchPanics
            end
          | [] => catch_all
          end
        | [] =>
          match handle wn with
          | Some _ => Found wn [token]
          | None => catch_all
          end
        end
      | None => catch_all
      end
    else NotFound
  | [] => NotFound
  end.

Lemma search_unfold n pth :
  search n pth =
  match pth with
  | [] => Found n []
  | _ :: _ =>
    if HasPrefix pth (path n) then
      match drop (length (path n)) pth with
      | [] => Found n []
      | nextChar :: _ =>
        let pth := drop (length (path n)) pth in
        scan_literals search nextChar pth (literals n) (indices n)
          (search_fallback n pth)
      end
    else search_fallback n pth
  end.
Proof.
  destruct n as [p pr ty lits idx [[]|] ca hd nm]; destruct pth as [|a pth];
    reflexivity.
Qed.

(** The scan of the index string falls through to the code after it when
    every child filed under [nextChar] exists and has no match. *)
Lemma scan_literals_miss (srch : @node H -> str -> found) nextChar pth lits idx otherwise :
  (∀ i, idx !! i = Some nextChar → ∃ l, lits !! i = Some l ∧ srch l pth = NotFound) →
  scan_literals srch nextChar pth lits idx otherwise = otherwise.
Proof.
  revert lits. induction idx as [|c idx IH]; intros lits Hm; [by destruct lits|].
  destruct lits as [|l lits]; cbn [scan_literals].
  - destruct (existsb _ (c :: idx)) eqn:E; [|done].
    apply existsb_exists in E as (x & Hin & Hx).
    apply Ascii.eqb_eq in Hx; subst x.
    apply list_elem_of_In, list_elem_of_lookup in Hin as [i Hi].
    destruct (Hm i Hi) as (l & Hl & _). by rewrite lookup_nil in Hl.
  - destruct (Ascii.eqb c nextChar) eqn:E.
    + apply Ascii.eqb_eq in E; subst c.
      destruct (Hm 0 eq_refl) as (l' & Hl & Hs). simplify_eq/=. rewrite Hs.
      apply IH. intros i Hi. apply (Hm (S i) Hi).
    + apply IH. intros i Hi. apply (Hm (S i) Hi).
Qed.

(** C10. [search] on the empty path returns the node it is called on,
    with no captures and without looking at the node's segment, whatever
    the node; so a root that carries a handler is what [lookup] of the
    empty path returns, with no parameters. *)
Theorem lookup_empty_path (r : @Router H) method n :
  search n [] = Found n [] ∧
  (∀ h, trees r !! method = Some n → handle n = Some h →
        lookup r method [] = Ret (Some h, [])).
Proof.
  split; [by destruct n|]. intros h Ht Hh.
  unfold lookup. rewrite Ht. destruct n; simpl in *. by rewrite Hh.
Qed.

(** The parameter child of the node, if there is one, has no match for
    the path left over: after the parameter value, which runs up to the
    next slash, either the path goes on and the first child of the
    parameter node, if any, finds nothing for the rest, or the path ends
    and the parameter node has no handler. *)
Definition wildcard_misses n rest : Prop :=
  match wild n with
  | None => True
  | Some wn =>
    let after :=
      match IndexByte rest slash with
      | Some (S e) => drop (S e) rest
      | _ => []
      end in
    match after with
    | [] => handle wn = None
    | _ :: _ =>
      match literals wn with
      | [] => True
      | l :: _ => search l after = NotFound
      end
    end
  end.

(** C2 (amended). At a node that has a catch-all child: when the path
    left over at the node (the path without the node's segment when the
    segment is a prefix of it, the whole path otherwise) is not empty
    and does not start with a slash, no literal child filed under its
    first byte has a match, and the parameter child, if there is one,
    has no match either, [search] returns the catch-all child with a
    single capture; without a parameter child the capture is the whole
    path left over. *)
Theorem search_catchAll_fallback n c pth rest ch rest' :
  catchAll n = Some c →
  rest = (if HasPrefix pth (path n) then drop (length (path n)) pth else pth) →
  rest = ch :: rest' →
  ch ≠ slash →
  (HasPrefix pth (path n) = true →
   ∀ i, indices n !! i = Some ch →
        ∃ l, literals n !! i = Some l ∧ search l rest = NotFound) →
  wildcard_misses n rest →
  ∃ capture, search n pth = Found c [capture] ∧ (wild n = None → capture = rest).
Proof.
  intros Hc Hrest Hch Hne Hlit Hmiss.
  assert (Hfb : ∃ capture, search_fallback n rest = Found c [capture] ∧
                           (wild n = None → capture = rest)).
  { unfold search_fallback, wildcard_misses in *. rewrite Hch in Hmiss |- *.
    destruct (Ascii.eqb_spec ch slash) as [->|_]; [done|]. cbn [negb]. cbv zeta in *.
    rewrite Hc. destruct (wild n) as [wn|] eqn:Hw; [|by eexists].
    destruct (IndexByte (ch :: rest') slash) as [[|e]|]; cbn [fst snd] in *.
    - rewrite Hmiss. by eexists.
    - destruct (drop (S e) (ch :: rest')) as [|a after]; [rewrite Hmiss; by eexists|].
      destruct (literals wn) as [|l ls]; [by eexists|]. rewrite Hmiss. by eexists.
    - rewrite Hmiss. by eexists. }
  destruct Hfb as (capture & Hfb & Hcap). exists capture. split; [|done].
  rewrite search_unfold. destruct pth as [|a pth].
  { destruct (HasPrefix [] (path n)); by rewrite ?drop_nil in Hrest; subst. }
  destruct (HasPrefix (a :: pth) (path n)) eqn:E.
  - cbv zeta. rewrite <- Hrest, Hch, <- Hch.
    rewrite scan_literals_miss; [done|]. by apply Hlit.
  - by rewrite <- Hrest.
Qed.

End Search.

(** ** Concrete trees (handlers are numbered) *)

(** The tree after registering the given patterns in order, each with
    its position as handler, and the outcomes of the registrations. *)
Definition tree_of (routes : list string) : @node nat * list (res unit) :=
  foldl (fun '(n, rs) r =>
           let '(n', x) := addRoute n (lit r) (Some (length rs)) in (n', rs ++ [x]))
        (new_node, []) routes.

Definition GET : str := lit "GET".
Definition POST : str := lit "POST".

Lemma lookup_empty_path_witness :
  let r := (Handler New GET (lit "/abc") (Some 7)).1 in
  let n := (tree_of ["/abc/x"; "/abd"]%string).1 in
  (path n = lit "/ab" ∧ handle n = None ∧ search n [] = Found n []) ∧
  ∃ root, trees r !! GET = Some root ∧ path root = lit "/abc" ∧
          search root [] = Found root [] ∧ lookup r GET [] = Ret (Some 7, []).
Proof.
  intros r n. split.
  - split; [reflexivity|]. split; [reflexivity|]. exact (proj1 (lookup_empty_path r GET n)).
  - eexists. split; [vm_compute; reflexivity|]. split; [reflexivity|].
    split; [eapply (proj1 (lookup_empty_path r GET _))|].
    eapply (proj2 (lookup_empty_path r GET _)); vm_compute; reflexivity.
Defined.

Lemma search_catchAll_fallback_witness :
  (let n := (tree_of ["/:a/x"; "/*rest"; "/b"]%string).1 in
   let c := default new_node (catchAll n) in
   catchAll n = Some c ∧ is_Some (wild n) ∧ handle c = Some 1 ∧
   indices n = lit "b" ∧
   ∃ capture, search n (lit "/bar/y") = Found c [capture]) ∧
  (let n := (tree_of ["/src/*filepath"]%string).1 in
   let c := default new_node (catchAll n) in
   catchAll n = Some c ∧ wild n = None ∧ handle c = Some 0 ∧
   search n (lit "/src/some/file.png") = Found c [lit "some/file.png"]).
Proof.
  split.
  - intros n c.
    assert (Hc : catchAll n = Some c) by (vm_compute; reflexivity).
    split; [exact Hc|]. split; [vm_compute; by eexists|].
    split; [reflexivity|]. split; [vm_compute; reflexivity|].
    destruct (search_catchAll_fallback n c (lit "/bar/y") (lit "bar/y") "b"%char
                (lit "ar/y") Hc) as (capture & Hs & _).
    + vm_compute. reflexivity.
    + vm_compute. reflexivity.
    + vm_compute. discriminate.
    + intros _ i Hi. destruct i as [|i]; [|vm_compute in Hi; destruct i; discriminate].
      eexists. split; vm_compute; reflexivity.
    + vm_compute. reflexivity.
    + by exists capture.
  - intros n c.
    assert (Hc : catchAll n = Some c) by (vm_compute; reflexivity).
    assert (Hw : wild n = None) by reflexivity.
    split; [exact Hc|]. split; [exact Hw|]. split; [reflexivity|].
    destruct (search_catchAll_fallback n c (lit "/src/some/file.png") (lit "some/file.png")
                "s"%char (lit "ome/file.png") Hc) as (capture & Hs & Hcap).
    + vm_compute. reflexivity.
    + vm_compute. reflexivity.
    + vm_compute. discriminate.
    + intros _ i Hi. vm_compute in Hi. destruct i; discriminate.
    + vm_compute. exact I.
    + rewrite Hs, (Hcap Hw). reflexivity.
Defined.

(** C2 (as stated) fails, in two ways.  The root of the tree of
    ["/src/*filepath"] has a catch-all child and neither literal nor
    parameter children, the path left over for ["/src//x"] is ["/x"], and
    [search] finds nothing, because the catch-all branch is not tried on
    a path that starts with a slash.  And the root of the tree of
    ["/:a/x"] and ["/*rest"] has a parameter child that has no match for
    ["/foo/y"], where the path left over is ["foo/y"]; [search] returns
    the catch-all child, but captures ["/y"], the path after the
    parameter value. *)
Lemma search_catchAll_not_unconditional :
  (let n := (tree_of ["/src/*filepath"]%string).1 in
   is_Some (catchAll n) ∧ literals n = [] ∧ wild n = None ∧
   path n = lit "/src/" ∧
   search n (lit "/src//x") = NotFound) ∧
  (let n := (tree_of ["/:a/x"; "/*rest"]%string).1 in
   path n = lit "/" ∧ literals n = [] ∧
   ∃ c wn l, catchAll n = Some c ∧ wild n = Some wn ∧ literals wn = [l] ∧
             search l (lit "/y") = NotFound ∧
             search n (lit "/foo/y") = Found c [lit "/y"]).
Proof.
  split.
  - vm_compute. repeat split. by eexists.
  - cbv zeta. split; [reflexivity|]. split; [reflexivity|].
    eexists _, _, _. repeat split; vm_compute; reflexivity.
Qed.

(** * Further properties of the code *)

Set Warnings "-clear-no-such-hyp".

(** ** tree.go: longestCommonPrefix *)

Lemma min_spec a b : min a b = Nat.min a b.
Proof. unfold min. destruct (Nat.leb_spec a b); lia. Qed.

Lemma lcp_loop_spec fuel i max (a b : str) :
  max ≤ length a → max ≤ length b → i ≤ max → max ≤ fuel + i →
  take i a = take i b →
  let r := lcp_loop fuel i max a b in
  i ≤ r ∧ r ≤ max ∧ take r a = take r b ∧
  (r < max → ∀ x y, a !! r = Some x → b !! r = Some y → x ≠ y).
Proof.
  revert i. induction fuel as [|fuel IH]; intros i Ha Hb Hi Hf Ht; cbn [lcp_loop]; cbv zeta.
  { split_and!; auto; try lia; intros; lia. }
  destruct (Nat.ltb_spec i max) as [Hlt|Hge].
  2:{ split_and!; auto; try lia; intros; lia. }
  destruct (lookup_lt_is_Some_2 a i) as [x Hx]; [lia|].
  destruct (lookup_lt_is_Some_2 b i) as [y Hy]; [lia|].
  rewrite Hx, Hy. destruct (Ascii.eqb_spec x y) as [->|Hne].
  - destruct (IH (S i)) as (?&?&?&?); try lia.
    { rewrite (take_S_r _ _ _ Hx), (take_S_r _ _ _ Hy). by rewrite Ht. }
    split_and!; auto; lia.
  - split_and!; auto; try lia. intros _ ? ? ? ?. congruence.
Qed.

(** X1. [longestCommonPrefix] returns a length within both strings, up
    to which the two strings agree, and at which they differ when both
    go on. *)
Theorem longestCommonPrefix_spec (a b : str) :
  let i := longestCommonPrefix a b in
  i ≤ length a ∧ i ≤ length b ∧ take i a = take i b ∧
  (∀ x y, a !! i = Some x → b !! i = Some y → x ≠ y).
Proof.
  unfold longestCommonPrefix. rewrite min_spec.
  destruct (lcp_loop_spec (Nat.min (length a) (length b)) 0
              (Nat.min (length a) (length b)) a b) as (_&H1&H2&H3); try lia; [done|].
  split_and!; try lia; [done|].
  intros x y Hx Hy. apply H3; [|done..].
  apply lookup_lt_Some in Hx, Hy. lia.
Qed.

(** ** tree.go: the priority of the node [addRoute] is called on *)

Section Priority.

Context {H : Type}.
Implicit Types (n : @node H).

Lemma incrementLiteralPrio_priority n pos :
  priority (incrementLiteralPrio n pos).1 = priority n.
Proof.
  unfold incrementLiteralPrio. destruct (literals n !! pos); [|done].
  destruct (move_front _ _ _) as [cs newPos]. cbn.
  case_bool_decide; [done|]. repeat case_match; done.
Qed.

Lemma insertChild_priority fuel n fullpath pth (h : option H) names :
  priority (insertChild fuel n fullpath pth h names).1 = priority n.
Proof.
  destruct fuel; cbn [insertChild];
    repeat (case_match; try done); cbn;
    repeat (case_match; try done).
Qed.

Lemma walk_priority fuel n fullpath pth (h : option H) names :
  priority (walk fuel n fullpath pth h names).1 = priority n.
Proof.
  destruct fuel as [|fuel]; [done|]. cbn [walk]. cbv zeta.
  set (i := longestCommonPrefix (path n) pth).
  set (n1 := if i <? length (path n) then split n i pth else n).
  assert (Hn1 : priority n1 = priority n).
  { subst n1. by destruct (i <? length (path n)). }
  rewrite <- Hn1. clearbody n1. clear Hn1.
  destruct (if i <? length pth then _ else _) as [|nextChar rest] eqn:Hp.
  { by destruct (handle n1). }
  destruct (if Ascii.eqb nextChar colon && _ then wild n1 else None) as [w|].
  { by destruct (walk fuel w _ _ _ _). }
  destruct (if nodeType.eqb _ _ then literals n1 else []) as [|c cs].
  2:{ by destruct (walk fuel _ _ _ _ _). }
  destruct (index_of nextChar (indices n1)) as [k|].
  - pose proof (incrementLiteralPrio_priority n1 k) as Hk.
    destruct (incrementLiteralPrio n1 k) as [n2 [k'|]]; [|done].
    destruct (literals n2 !! k'); [|done].
    by destruct (walk fuel _ _ _ _ _).
  - destruct (negb (is_wildcard nextChar)).
    + match goal with |- context [incrementLiteralPrio ?a ?b] =>
        pose proof (incrementLiteralPrio_priority a b) as Hk;
        destruct (incrementLiteralPrio a b) as [n2 [k'|]] end; [|done].
      match goal with |- context [literals n2 !! ?a] => destruct (literals n2 !! a) end; [|done].
      by destruct (insertChild _ _ _ _ _ _).
    + apply insertChild_priority.
Qed.

(** X2. [addRoute] increments the priority of the node it is called on
    before it looks at the pattern: whatever the outcome (return or
    panic), the priority afterwards is the old one plus one, modulo
    2^32. *)
Theorem addRoute_increments_priority n pth (h : option H) :
  priority (addRoute n pth h).1 = uint32_incr (priority n).
Proof.
  unfold addRoute. destruct (normalizePath pth) as [[np names]| |]; [|done..].
  case_match.
  - by rewrite insertChild_priority.
  - by rewrite walk_priority.
Qed.

End Priority.

(** ** tree.go: findNextWildcard *)

Definition all_bytes : list ascii := ascii_of_nat <$> seq 0 256.

Lemma all_bytes_complete (c : ascii) : c ∈ all_bytes.
Proof.
  unfold all_bytes. apply list_elem_of_fmap. exists (nat_of_ascii c). split.
  - by rewrite ascii_nat_embedding.
  - apply elem_of_seq. pose proof (nat_ascii_bounded c). lia.
Qed.

Definition for_bytes (P : ascii → bool) : bool := forallb P all_bytes.

Lemma for_bytes_spec (P : ascii → bool) : for_bytes P = true → ∀ c, P c = true.
Proof.
  intros HP c. unfold for_bytes in HP. rewrite forallb_forall in HP.
  apply HP, list_elem_of_In, all_bytes_complete.
Qed.

Lemma for_bytes_prop (P : ascii → Prop) `{!∀ c, Decision (P c)} :
  for_bytes (fun c => bool_decide (P c)) = true → ∀ c, P c.
Proof. intros HP c. eapply bool_decide_eq_true_1, (for_bytes_spec _ HP). Qed.

Ltac by_bytes :=
  match goal with
  | |- ∀ c : ascii, @?P c => apply (for_bytes_prop P); vm_compute; reflexivity
  end.

Definition second_ok (c0 c1 : ascii) : bool :=
  in_range (fst (second_range (byte_val c0))) (snd (second_range (byte_val c0)))
    (byte_val c1).

Lemma byte_wildcard_rune c : rune_is_wildcard (byte_val c) = is_wildcard c.
Proof. revert c. by_bytes. Qed.

Lemma byte_of_val c : byte_of (byte_val c) = c.
Proof. apply ascii_N_embedding. Qed.

Lemma high_byte_not_wildcard c : (byte_val c <? 0x80)%N = false → is_wildcard c = false.
Proof. revert c. by_bytes. Qed.

Lemma cont_high c : is_cont c = true → (byte_val c <? 0x80)%N = false.
Proof. revert c. by_bytes. Qed.

Lemma cont_bits_small c : N.shiftr (cont_bits c) 6 = 0%N.
Proof. revert c. by_bytes. Qed.

Lemma lead2_bits c :
  in_range 0xC2 0xDF (byte_val c) = true → N.land (byte_val c) 0x1F ≠ 0%N.
Proof. revert c. by_bytes. Qed.

(** In the three- and four-byte forms, the leading bits and the bits of
    the second byte are not both zero, and the second byte is no ASCII
    byte. *)
Definition lead_second_ok (lo hi mask : N) (c0 : ascii) : bool :=
  if in_range lo hi (byte_val c0) then
    for_bytes (fun c1 =>
      if second_ok c0 c1 then
        negb ((N.land (byte_val c0) mask =? 0)%N && (cont_bits c1 =? 0)%N)
        && negb (byte_val c1 <? 0x80)%N
      else true)
  else true.

Lemma second_bits lo hi mask :
  for_bytes (lead_second_ok lo hi mask) = true →
  ∀ c0 c1, in_range lo hi (byte_val c0) = true → second_ok c0 c1 = true →
    ¬ (N.land (byte_val c0) mask = 0%N ∧ cont_bits c1 = 0%N) ∧
    (byte_val c1 <? 0x80)%N = false.
Proof.
  intros Hc c0 c1 H0 H1.
  pose proof (for_bytes_spec _ Hc c0) as Hc0. unfold lead_second_ok in Hc0.
  rewrite H0 in Hc0. pose proof (for_bytes_spec _ Hc0 c1) as Hc1. cbv beta in Hc1.
  rewrite H1 in Hc1. apply andb_true_iff in Hc1 as [Ha Hb].
  apply negb_true_iff in Ha, Hb. split; [|done].
  intros [Hx Hy]. rewrite Hx, Hy in Ha. done.
Qed.

Lemma second_bits3 : for_bytes (lead_second_ok 0xE0 0xEF 0x0F) = true.
Proof. vm_compute. reflexivity. Qed.

Lemma second_bits4 : for_bytes (lead_second_ok 0xF0 0xF4 0x07) = true.
Proof. vm_compute. reflexivity. Qed.

Lemma wildcard_rune_small r : rune_is_wildcard r = true → N.shiftr r 6 = 0%N.
Proof.
  unfold rune_is_wildcard. intros [Hr|Hr]%orb_true_iff;
    apply N.eqb_eq in Hr; subst r; reflexivity.
Qed.

Lemma rune_error_not_wildcard : rune_is_wildcard RuneError = false.
Proof. reflexivity. Qed.

Lemma rune2_not_wildcard c0 c1 :
  in_range 0xC2 0xDF (byte_val c0) = true →
  rune_is_wildcard (N.lor (N.shiftl (N.land (byte_val c0) 0x1F) 6) (cont_bits c1)) = false.
Proof.
  intros H0. apply not_true_is_false. intros Hw%wildcard_rune_small.
  rewrite N.shiftr_lor, N.shiftr_shiftl_l, cont_bits_small in Hw by lia.
  apply N.lor_eq_0_iff in Hw as [Hw _]. cbn in Hw. rewrite N.shiftl_0_r in Hw.
  by apply lead2_bits in H0.
Qed.

Lemma rune3_not_wildcard c0 c1 c2 :
  in_range 0xE0 0xEF (byte_val c0) = true → second_ok c0 c1 = true →
  rune_is_wildcard
    (N.lor (N.shiftl (N.land (byte_val c0) 0x0F) 12)
       (N.lor (N.shiftl (cont_bits c1) 6) (cont_bits c2))) = false.
Proof.
  intros H0 H1. apply not_true_is_false. intros Hw%wildcard_rune_small.
  rewrite !N.shiftr_lor, !N.shiftr_shiftl_l, cont_bits_small in Hw by lia.
  apply N.lor_eq_0_iff in Hw as [Ha Hb]. apply N.lor_eq_0_iff in Hb as [Hb _].
  apply N.shiftl_eq_0_iff in Ha. cbn in Hb. rewrite N.shiftl_0_r in Hb.
  destruct (second_bits _ _ _ second_bits3 c0 c1 H0 H1) as [Hn _]. by apply Hn.
Qed.

Lemma rune4_not_wildcard c0 c1 c2 c3 :
  in_range 0xF0 0xF4 (byte_val c0) = true → second_ok c0 c1 = true →
  rune_is_wildcard
    (N.lor (N.shiftl (N.land (byte_val c0) 0x07) 18)
       (N.lor (N.shiftl (cont_bits c1) 12)
          (N.lor (N.shiftl (cont_bits c2) 6) (cont_bits c3)))) = false.
Proof.
  intros H0 H1. apply not_true_is_false. intros Hw%wildcard_rune_small.
  rewrite !N.shiftr_lor, !N.shiftr_shiftl_l, cont_bits_small in Hw by lia.
  apply N.lor_eq_0_iff in Hw as [Ha Hb]. apply N.lor_eq_0_iff in Hb as [Hb _].
  apply N.shiftl_eq_0_iff in Ha, Hb.
  destruct (second_bits _ _ _ second_bits4 c0 c1 H0 H1) as [Hn _]. by apply Hn.
Qed.

(** The first wildcard byte of a string and its index, from index [i]. *)
Fixpoint find_wild_byte (i : nat) (x : str) : option (ascii * nat) :=
  match x with
  | [] => None
  | c :: x' => if is_wildcard c then Some (c, i) else find_wild_byte (S i) x'
  end.

Lemma find_wild_rune_bytes (x : str) : ∀ i,
  find_wild_rune (runes_from i x) = find_wild_byte i x.
Proof.
  induction x as [x IH] using (induction_ltof1 _ (@length ascii)).
  unfold ltof in IH. intros i. destruct x as [|c0 x1]; [done|].
  assert (Hinv : (byte_val c0 <? 0x80)%N = false →
    find_wild_rune ((i, RuneError) :: runes_from (S i) x1) = find_wild_byte i (c0 :: x1)).
  { intros Hh. cbn [find_wild_rune find_wild_byte].
    rewrite rune_error_not_wildcard, (high_byte_not_wildcard _ Hh).
    apply IH. cbn. lia. }
  cbn [runes_from]. cbv zeta.
  destruct (byte_val c0 <? 0x80)%N eqn:Hlow.
  { cbn [find_wild_rune find_wild_byte].
    rewrite byte_wildcard_rune, byte_of_val. destruct (is_wildcard c0); [done|].
    apply IH. cbn. lia. }
  specialize (Hinv eq_refl).
  destruct (in_range 0xC2 0xDF (byte_val c0)) eqn:H2.
  { destruct x1 as [|c1 x2]; [done|]. destruct (is_cont c1) eqn:Hc1; [|done].
    cbn [find_wild_rune find_wild_byte].
    rewrite rune2_not_wildcard, (high_byte_not_wildcard _ Hlow),
      (high_byte_not_wildcard _ (cont_high _ Hc1)) by done.
    apply IH. cbn. lia. }
  destruct (in_range 0xE0 0xEF (byte_val c0)) eqn:H3.
  { destruct x1 as [|c1 [|c2 x3]]; [done..|].
    destruct (in_range _ _ (byte_val c1)) eqn:Hc1; [|done].
    destruct (is_cont c2) eqn:Hc2; [|done]. cbn [andb].
    cbn [find_wild_rune find_wild_byte].
    destruct (second_bits _ _ _ second_bits3 c0 c1 H3 Hc1) as [_ Hh1].
    rewrite rune3_not_wildcard, (high_byte_not_wildcard _ Hlow),
      (high_byte_not_wildcard _ Hh1),
      (high_byte_not_wildcard _ (cont_high _ Hc2)) by done.
    apply IH. cbn. lia. }
  destruct (in_range 0xF0 0xF4 (byte_val c0)) eqn:H4; [|done].
  destruct x1 as [|c1 [|c2 [|c3 x4]]]; [done..|].
  destruct (in_range _ _ (byte_val c1)) eqn:Hc1; [|done].
  destruct (is_cont c2) eqn:Hc2; [|done].
  destruct (is_cont c3) eqn:Hc3; [|done]. cbn [andb].
  cbn [find_wild_rune find_wild_byte].
  destruct (second_bits _ _ _ second_bits4 c0 c1 H4 Hc1) as [_ Hh1].
  rewrite rune4_not_wildcard, (high_byte_not_wildcard _ Hlow),
    (high_byte_not_wildcard _ Hh1),
    (high_byte_not_wildcard _ (cont_high _ Hc2)),
    (high_byte_not_wildcard _ (cont_high _ Hc3)) by done.
  apply IH. cbn. lia.
Qed.

Lemma find_wild_byte_spec (x : str) : ∀ i,
  match find_wild_byte i x with
  | None => Forall (fun c => is_wildcard c = false) x
  | Some (c, j) =>
    i ≤ j ∧ x !! (j - i) = Some c ∧ is_wildcard c = true ∧
    Forall (fun c => is_wildcard c = false) (take (j - i) x)
  end.
Proof.
  induction x as [|c x IH]; intros i; cbn [find_wild_byte]; [done|].
  destruct (is_wildcard c) eqn:Hc.
  { replace (i - i) with 0 by lia. split_and!; auto. }
  specialize (IH (S i)). destruct (find_wild_byte (S i) x) as [[c' j]|].
  - destruct IH as (Hj & Hl & Hw & Hf).
    replace (j - i) with (S (j - S i)) by lia. split_and!; auto; [lia|].
    cbn. by constructor.
  - by constructor.
Qed.

(** X3. [findNextWildcard] returns the first [':'] or ['*'] byte of the
    path with its byte index, and reports none exactly when the path
    holds no such byte; decoding the path as UTF-8, as the loop does,
    makes no difference, well-formed or not. *)
Theorem findNextWildcard_spec (pth : str) :
  match findNextWildcard pth with
  | None => Forall (fun c => is_wildcard c = false) pth
  | Some (c, i) =>
    pth !! i = Some c ∧ is_wildcard c = true ∧
    Forall (fun c => is_wildcard c = false) (take i pth)
  end.
Proof.
  unfold findNextWildcard, runes. rewrite find_wild_rune_bytes.
  pose proof (find_wild_byte_spec pth 0) as Hs.
  destruct (find_wild_byte 0 pth) as [[c j]|]; [|done].
  rewrite Nat.sub_0_r in Hs. by destruct Hs as (_ & ? & ? & ?).
Qed.

(** ** tree.go: normalizePath *)

Definition plain (c : ascii) : Prop := is_wildcard c = false.
Definition name_byte (c : ascii) : Prop := c ≠ slash ∧ is_wildcard c = false.

(** What [normalizePath] makes of a pattern: plain bytes are kept, and a
    wildcard introducer is kept while its name, which runs up to the next
    slash or the end, is moved to the list of names. *)
Inductive normalizes : str → str → list str → Prop :=
  | normalizes_nil : normalizes [] [] []
  | normalizes_plain c p np names :
      plain c → normalizes p np names → normalizes (c :: p) (c :: np) names
  | normalizes_wild c name p np names :
      is_wildcard c = true → name ≠ [] → Forall name_byte name →
      (p = [] ∨ head p = Some slash) → (c = star → p = []) →
      normalizes p np names →
      normalizes (c :: name ++ p) (c :: np) (name :: names).

Lemma token_scan_ret orig (l : str) e found :
  token_scan orig l e = Ret found →
  match found with
  | Some e' => ∃ name rest, l = name ++ slash :: rest ∧ Forall name_byte name ∧
                            e' = e + length name
  | None => Forall name_byte l
  end.
Proof.
  revert e. induction l as [|c l IH]; intros e; cbn [token_scan].
  { intros [= <-]. constructor. }
  destruct (Ascii.eqb_spec c slash) as [->|Hs].
  { intros [= <-]. exists [], l. split_and!; [done|constructor|cbn; lia]. }
  destruct (is_wildcard c) eqn:Hw; [done|].
  intros Hr. specialize (IH _ Hr). destruct found as [e'|].
  - destruct IH as (name & rest & -> & Hn & ->).
    exists (c :: name), rest. split_and!; [done|by constructor|cbn; lia].
  - by constructor.
Qed.

Lemma normalize_loop_spec fuel orig : ∀ (pre suf out : str) names0,
  length suf ≤ fuel →
  match normalize_loop fuel orig (pre ++ suf) (length pre) out names0 with
  | Ret r => ∃ np names, r = (out ++ np, names0 ++ names) ∧ normalizes suf np names
  | Panics _ => True
  | NoFuel => False
  end.
Proof.
  induction fuel as [|fuel IH]; intros pre suf out names0 Hfuel;
    cbn [normalize_loop]; destruct suf as [|c suf].
  1,3: rewrite app_nil_r, lookup_ge_None_2 by lia;
       exists [], []; rewrite !app_nil_r; split; [done|constructor].
  { cbn in Hfuel. lia. }
  rewrite list_lookup_middle by done. cbn in Hfuel.
  cbv zeta. destruct (is_wildcard c) eqn:Hw; cbn [negb].
  2:{ replace (pre ++ c :: suf) with ((pre ++ [c]) ++ suf) by by rewrite <- app_assoc.
      replace (S (length pre)) with (length (pre ++ [c]))
        by (rewrite length_app; cbn; lia).
      specialize (IH (pre ++ [c]) suf (out ++ [c]) names0 ltac:(lia)).
      destruct (normalize_loop _ _ _ _ _ _) as [r| |]; [|done..].
      destruct IH as (np & names & -> & Hn).
      exists (c :: np), names. rewrite <- app_assoc. split; [done|].
      by constructor. }
  replace (drop (length pre + 1) (pre ++ c :: suf)) with suf.
  2:{ replace (pre ++ c :: suf) with ((pre ++ [c]) ++ suf) by by rewrite <- app_assoc.
      rewrite drop_app_length'; [done|]. rewrite length_app. cbn. lia. }
  destruct (token_scan orig suf 0) as [found| |] eqn:Hscan; [|done|].
  2:{ clear -Hscan. exfalso. revert Hscan. generalize 0.
      induction suf as [|x suf IHs]; intros e; cbn; [done|].
      repeat case_match; try done. apply IHs. }
  apply token_scan_ret in Hscan.
  set (tokenEnd := match found with
                   | Some e => length pre + 1 + e
                   | None => length (pre ++ c :: suf)
                   end).
  destruct (Nat.eqb_spec tokenEnd (length pre + 1)) as [|Hne]; [done|].
  destruct (Ascii.eqb c star && (1 <? length pre) && _); [done|].
  destruct (Ascii.eqb c star && negb (tokenEnd =? length (pre ++ c :: suf))) eqn:Hlast;
    [done|].
  assert (∃ name rest, suf = name ++ rest ∧ Forall name_byte name ∧
            tokenEnd = length pre + 1 + length name ∧
            (rest = [] ∨ head rest = Some slash)) as (name & rest & -> & Hname & Hte & Hrest).
  { destruct found as [e|].
    - destruct Hscan as (name & rest & -> & Hn & ->).
      exists name, (slash :: rest). split_and!; auto; subst tokenEnd; cbn; lia.
    - exists suf, []. rewrite app_nil_r. split_and!; auto;
      subst tokenEnd; rewrite length_app; cbn; lia. }
  replace (tokenEnd - (length pre + 1)) with (length name) by lia.
  rewrite take_app_length.
  replace (length pre + (tokenEnd - length pre)) with (length (pre ++ c :: name))
    by (rewrite length_app; cbn; lia).
  replace (pre ++ c :: name ++ rest) with ((pre ++ c :: name) ++ rest)
    by by rewrite <- app_assoc.
  rewrite length_app in Hfuel.
  specialize (IH (pre ++ c :: name) rest (out ++ [c]) (names0 ++ [name]) ltac:(lia)).
  destruct (normalize_loop _ _ _ _ _ _) as [r| |]; [|done..].
  destruct IH as (np & names & -> & Hn).
  exists (c :: np), (name :: names). rewrite <- !app_assoc. split; [done|].
  apply normalizes_wild; [done| |done|done| |done].
  - intros ->. apply Hne. rewrite Hte. cbn. lia.
  - intros ->. rewrite Ascii.eqb_refl in Hlast. cbn in Hlast.
    apply negb_false_iff, Nat.eqb_eq in Hlast.
    rewrite Hte, !length_app in Hlast. cbn in Hlast. rewrite length_app in Hlast.
    destruct rest; [done|]. cbn in Hlast. lia.
Qed.

Lemma normalizePath_spec (p : str) :
  match normalizePath p with
  | Ret (np, names) => normalizes p np names
  | Panics _ => True
  | NoFuel => False
  end.
Proof.
  unfold normalizePath.
  pose proof (normalize_loop_spec (length p) p [] p [] [] ltac:(lia)) as Hs.
  cbn in Hs. destruct (normalize_loop _ _ _ _ _ _) as [[np names]| |]; [|done..].
  by destruct Hs as (np' & names' & [= -> ->] & Hn).
Qed.

Lemma normalizePath_normalizes (p np : str) names :
  normalizePath p = Ret (np, names) → normalizes p np names.
Proof. intros Hr. pose proof (normalizePath_spec p) as Hs. by rewrite Hr in Hs. Qed.

(** The pattern that a normalized path and its names stand for. *)
Fixpoint expand (np : str) (names : list str) : str :=
  match np with
  | [] => []
  | c :: np' =>
    if is_wildcard c then
      match names with
      | name :: names' => c :: name ++ expand np' names'
      | [] => c :: expand np' []
      end
    else c :: expand np' names
  end.

Lemma normalizes_expand p np names : normalizes p np names → expand np names = p.
Proof.
  induction 1 as [|c p np names Hc _ IH|c name p np names Hc _ _ _ _ _ IH]; cbn.
  - done.
  - unfold plain in Hc. by rewrite Hc, IH.
  - by rewrite Hc, IH.
Qed.

Lemma normalizes_names p np names :
  normalizes p np names →
  length names = length (filter (fun c => is_wildcard c = true) np) ∧
  Forall (fun name => name ≠ [] ∧ Forall name_byte name) names.
Proof.
  induction 1 as [|c p np names Hc _ IH|c name p np names Hc ? ? _ _ _ IH].
  - done.
  - unfold plain in Hc. rewrite filter_cons_False by congruence. done.
  - rewrite filter_cons_True by done. destruct IH as [IH1 IH2].
    split; [cbn; by rewrite IH1|by constructor].
Qed.

(** The shape of a normalized path: a [':'] is followed by a slash or
    by nothing, a ['*'] by nothing. *)
Fixpoint shaped (np : str) : Prop :=
  match np with
  | [] => True
  | c :: np' =>
    (is_wildcard c = true → np' = [] ∨ head np' = Some slash) ∧
    (c = star → np' = []) ∧ shaped np'
  end.

Lemma normalizes_head p np names : normalizes p np names → head np = head p.
Proof. by destruct 1. Qed.

Lemma normalizes_shaped p np names : normalizes p np names → shaped np.
Proof.
  induction 1 as [|c p np names Hc Hn IH|c name p np names Hc ? ? Hp Hs Hn IH]; cbn.
  - done.
  - unfold plain in Hc. split_and!; [congruence| |done].
    intros ->. done.
  - split_and!; [|by intros ->%Hs; inversion Hn|done].
    intros _. destruct Hp as [->|Hp]; [left; by inversion Hn|right].
    by rewrite (normalizes_head _ _ _ Hn).
Qed.

(** X4. [normalizePath] returns or panics within its loop budget.  When
    it returns, putting each name back behind its introducer gives the
    pattern again; there are as many names as wildcard bytes in the
    normalized path; no name is empty or holds a slash, [':'] or ['*'];
    and in the normalized path a [':'] is followed by a slash or by
    nothing, a ['*'] by nothing. *)
Theorem normalizePath_returns (p : str) :
  match normalizePath p with
  | Ret (np, names) =>
    expand np names = p ∧
    length names = length (filter (fun c => is_wildcard c = true) np) ∧
    Forall (fun name => name ≠ [] ∧ Forall name_byte name) names ∧
    shaped np
  | Panics _ => True
  | NoFuel => False
  end.
Proof.
  pose proof (normalizePath_spec p) as Hs.
  destruct (normalizePath p) as [[np names]| |]; [|done..].
  pose proof (normalizes_names _ _ _ Hs) as [? ?].
  split_and!; eauto using normalizes_expand, normalizes_shaped.
Qed.

Lemma normalize_loop_plain fuel orig : ∀ (pre mid suf out : str) names0,
  Forall plain mid → length mid ≤ fuel →
  normalize_loop fuel orig (pre ++ mid ++ suf) (length pre) out names0 =
  normalize_loop (fuel - length mid) orig (pre ++ mid ++ suf)
    (length pre + length mid) (out ++ mid) names0.
Proof.
  induction fuel as [|fuel IH]; intros pre mid suf out names0 Hmid Hfuel.
  { destruct mid; [|cbn in Hfuel; lia]. cbn [length]. by rewrite Nat.add_0_r, app_nil_r. }
  destruct mid as [|c mid].
  { cbn [length app]. by rewrite Nat.add_0_r, Nat.sub_0_r, app_nil_r. }
  apply Forall_cons in Hmid as [Hc Hmid]. cbn in Hfuel.
  cbn [normalize_loop]. cbn [app]. rewrite list_lookup_middle by done.
  unfold plain in Hc. rewrite Hc. cbn [negb].
  replace (pre ++ c :: mid ++ suf) with ((pre ++ [c]) ++ mid ++ suf)
    by by rewrite <- app_assoc.
  replace (S (length pre)) with (length (pre ++ [c])) by (rewrite length_app; cbn; lia).
  rewrite IH by (done || lia). rewrite length_app. cbn [length].
  rewrite <- !app_assoc. cbn [app]. f_equal; lia.
Qed.

(** X5. A pattern without [':'] and ['*'] is its own normalized path,
    with no names. *)
Theorem normalizePath_plain (p : str) :
  Forall plain p → normalizePath p = Ret (p, []).
Proof.
  intros Hp. unfold normalizePath.
  pose proof (normalize_loop_plain (length p) p [] p [] [] [] Hp ltac:(lia)) as Hl.
  rewrite app_nil_r in Hl. cbn [app length] in Hl. rewrite Hl.
  rewrite Nat.sub_diag. cbn [normalize_loop Nat.add].
  by rewrite lookup_ge_None_2 by lia.
Qed.

Lemma normalizePath_plain_witness :
  Forall plain (lit "/doc/go1.html") ∧
  normalizePath (lit "/doc/go1.html") = Ret (lit "/doc/go1.html", []).
Proof.
  assert (Hp : Forall plain (lit "/doc/go1.html")) by (vm_compute; repeat constructor).
  split; [exact Hp|]. apply (normalizePath_plain _ Hp).
Defined.

(** ** tree.go: denormalizePath *)

(** One step of a [range] loop over a non-empty string: the bytes [pre]
    it consumes and the rune [r] it yields.  Either the step consumes one
    ASCII byte and yields it, or it yields a rune that is no wildcard
    from bytes that are none. *)
Lemma runes_from_step i c0 (x1 : str) :
  ∃ r pre rest, c0 :: x1 = pre ++ rest ∧ pre ≠ [] ∧
    runes_from i (c0 :: x1) = (i, r) :: runes_from (length pre + i) rest ∧
    ((pre = [c0] ∧ r = byte_val c0 ∧ (byte_val c0 <? 0x80)%N = true) ∨
     (rune_is_wildcard r = false ∧ Forall plain pre)).
Proof.
  cbn [runes_from]. cbv zeta.
  destruct (byte_val c0 <? 0x80)%N eqn:Hlow.
  { exists (byte_val c0), [c0], x1. split_and!; auto. }
  assert (Hp0 : plain c0) by by apply high_byte_not_wildcard.
  assert (Hinv : ∃ r pre rest, c0 :: x1 = pre ++ rest ∧ pre ≠ [] ∧
    (i, RuneError) :: runes_from (S i) x1 = (i, r) :: runes_from (length pre + i) rest ∧
    ((pre = [c0] ∧ r = byte_val c0 ∧ false = true) ∨
     (rune_is_wildcard r = false ∧ Forall plain pre))).
  { exists RuneError, [c0], x1. split_and!; auto. }
  destruct (in_range 0xC2 0xDF (byte_val c0)) eqn:H2.
  { destruct x1 as [|c1 x2]; [done|]. destruct (is_cont c1) eqn:Hc1; [|done].
    eexists _, [c0; c1], x2. split_and!; [done..|]. right.
    split; [by apply rune2_not_wildcard|].
    repeat constructor; [done|]. by apply high_byte_not_wildcard, cont_high. }
  destruct (in_range 0xE0 0xEF (byte_val c0)) eqn:H3.
  { destruct x1 as [|c1 [|c2 x3]]; [done..|].
    destruct (in_range _ _ (byte_val c1)) eqn:Hc1; [|done].
    destruct (is_cont c2) eqn:Hc2; [|done]. cbn [andb].
    destruct (second_bits _ _ _ second_bits3 c0 c1 H3 Hc1) as [_ Hh1].
    eexists _, [c0; c1; c2], x3. split_and!; [done..|]. right.
    split; [by apply rune3_not_wildcard|].
    repeat constructor; [done|by apply high_byte_not_wildcard|].
    by apply high_byte_not_wildcard, cont_high. }
  destruct (in_range 0xF0 0xF4 (byte_val c0)) eqn:H4; [|done].
  destruct x1 as [|c1 [|c2 [|c3 x4]]]; [done..|].
  destruct (in_range _ _ (byte_val c1)) eqn:Hc1; [|done].
  destruct (is_cont c2) eqn:Hc2; [|done].
  destruct (is_cont c3) eqn:Hc3; [|done]. cbn [andb].
  destruct (second_bits _ _ _ second_bits4 c0 c1 H4 Hc1) as [_ Hh1].
  eexists _, [c0; c1; c2; c3], x4. split_and!; [done..|]. right.
  split; [by apply rune4_not_wildcard|].
  repeat constructor; [done|by apply high_byte_not_wildcard|..];
    by apply high_byte_not_wildcard, cont_high.
Qed.

(** The number of wildcard bytes of a path. *)
Definition wildcards (x : str) : nat :=
  length (filter (fun c => is_wildcard c = true) x).

Lemma wildcards_app (x y : str) : wildcards (x ++ y) = wildcards x + wildcards y.
Proof. unfold wildcards. by rewrite filter_app, length_app. Qed.

Lemma wildcards_plain (x : str) : Forall plain x → wildcards x = 0.
Proof.
  unfold wildcards. induction 1 as [|c x Hc _ IH]; [done|].
  unfold plain in Hc. by rewrite filter_cons_False by congruence.
Qed.

Lemma denormalize_loop_spec (x : str) : ∀ i names k out,
  match denormalize_loop (runes_from i x) names k out with
  | Ret _ => wildcards x = 0 ∨ k + wildcards x ≤ length names
  | Panics p => p = IndexOutOfRange ∧ length names < k + wildcards x
  | NoFuel => False
  end.
Proof.
  induction x as [x IH] using (induction_ltof1 _ (@length ascii)).
  unfold ltof in IH. intros i names k out. destruct x as [|c0 x1].
  { cbn. by left. }
  destruct (runes_from_step i c0 x1) as (r & pre & rest & Hx & Hpre & -> & Hr).
  rewrite Hx, wildcards_app. cbn [denormalize_loop].
  assert (Hlen : length rest < length (c0 :: x1)).
  { rewrite Hx, length_app. destruct pre; [done|]. cbn. lia. }
  destruct Hr as [(-> & -> & _)|[Hnw Hpl]].
  - rewrite byte_wildcard_rune. unfold wildcards at 1 3 5.
    destruct (is_wildcard c0) eqn:Hw; cbn [negb].
    + rewrite filter_cons_True, filter_nil by done. cbn [length].
      destruct (names !! k) as [name|] eqn:Hk.
      * specialize (IH rest Hlen (1 + i) names (S k) (out ++ name)).
        apply lookup_lt_Some in Hk.
        destruct (denormalize_loop _ _ _ _); [lia| |done].
        destruct IH. split; [done|lia].
      * apply lookup_ge_None in Hk. split; [done|lia].
    + rewrite filter_cons_False, filter_nil by congruence. cbn [length].
      apply IH, Hlen.
  - rewrite Hnw, (wildcards_plain _ Hpl). cbn [negb]. apply IH, Hlen.
Qed.

(** X6. [denormalizePath] returns exactly when the list holds at least
    as many names as the path has [':'] and ['*'] bytes; with fewer
    names it panics with an index out of range. *)
Theorem denormalizePath_names (normalizedPath : str) (wildcardNames : list str) :
  match denormalizePath normalizedPath wildcardNames with
  | Ret _ => wildcards normalizedPath ≤ length wildcardNames
  | Panics p => p = IndexOutOfRange ∧ length wildcardNames < wildcards normalizedPath
  | NoFuel => False
  end.
Proof.
  pose proof (denormalize_loop_spec normalizedPath 0 wildcardNames 0 []) as Hs.
  unfold denormalizePath, runes.
  destruct (denormalize_loop _ _ _ _); [lia|done..].
Qed.

(** The bytes [denormalizePath] writes for a path of ASCII bytes. *)
Fixpoint substitute (np : str) (names : list str) : str :=
  match np with
  | [] => []
  | c :: np' =>
    if is_wildcard c then
      match names with
      | name :: names' => name ++ substitute np' names'
      | [] => []
      end
    else c :: substitute np' names
  end.

Definition ascii_byte (c : ascii) : Prop := (byte_val c <? 0x80)%N = true.

Lemma encode_ascii c : ascii_byte c → encode_rune (byte_val c) = [c].
Proof.
  unfold ascii_byte, encode_rune. intros Hc.
  apply N.ltb_lt in Hc. destruct (N.leb_spec (byte_val c) 0x7F); [|lia].
  by rewrite byte_of_val.
Qed.

Lemma denormalize_loop_ascii (x : str) : ∀ i names k out,
  Forall ascii_byte x → k + wildcards x ≤ length names →
  denormalize_loop (runes_from i x) names k out =
  Ret (out ++ substitute x (drop k names)).
Proof.
  induction x as [|c x IH]; intros i names k out Hx Hk.
  { cbn. by rewrite app_nil_r. }
  apply Forall_cons in Hx as [Hc Hx].
  change (c :: x) with ([c] ++ x) in Hk. rewrite wildcards_app in Hk.
  unfold wildcards at 1 in Hk.
  cbn [runes_from]. cbv zeta. unfold ascii_byte in Hc. rewrite Hc.
  cbn [denormalize_loop substitute]. rewrite byte_wildcard_rune.
  destruct (is_wildcard c) eqn:Hw; cbn [negb].
  - rewrite filter_cons_True, filter_nil in Hk by done. cbn [length] in Hk.
    destruct (lookup_lt_is_Some_2 names k) as [name Hname]; [lia|].
    rewrite Hname, (drop_S _ _ _ Hname), IH by (done || lia).
    by rewrite <- app_assoc.
  - rewrite filter_cons_False, filter_nil in Hk by congruence.
    rewrite encode_ascii, IH by done. by rewrite <- app_assoc.
Qed.

Lemma normalizes_substitute p np names :
  normalizes p np names →
  substitute np names = filter (fun c => is_wildcard c = false) p.
Proof.
  induction 1 as [|c p np names Hc _ IH|c name p np names Hc _ Hname _ _ _ IH];
    cbn [substitute].
  - done.
  - unfold plain in Hc. by rewrite Hc, filter_cons_True, IH by done.
  - rewrite Hc, filter_cons_False, filter_app, IH by congruence. f_equal.
    clear -Hname. induction Hname as [|x name [_ Hx] _ IH]; [done|].
    rewrite filter_cons_True by done. by f_equal.
Qed.

Lemma normalizes_ascii p np names :
  normalizes p np names → Forall ascii_byte p → Forall ascii_byte np.
Proof.
  induction 1 as [|c p np names Hc _ IH|c name p np names Hc _ _ _ _ _ IH];
    intros Hp.
  - done.
  - apply Forall_cons in Hp as [? ?]. constructor; auto.
  - apply Forall_cons in Hp as [? Hp]. apply Forall_app in Hp as [_ ?].
    constructor; auto.
Qed.

(** X7. For a pattern of ASCII bytes that [normalizePath] accepts,
    [denormalizePath] applied to the normalized path and the names
    returns the pattern without its [':'] and ['*'] bytes: each
    introducer is replaced by the name that followed it. *)
Theorem denormalizePath_normalizePath (p np : str) names :
  Forall ascii_byte p →
  normalizePath p = Ret (np, names) →
  denormalizePath np names = Ret (filter (fun c => is_wildcard c = false) p).
Proof.
  intros Hp Hn%normalizePath_normalizes.
  pose proof (normalizes_names _ _ _ Hn) as [Hlen _].
  unfold denormalizePath, runes.
  rewrite denormalize_loop_ascii.
  - by rewrite drop_0, (normalizes_substitute _ _ _ Hn).
  - by eapply normalizes_ascii.
  - unfold wildcards. cbn. lia.
Qed.

Lemma denormalizePath_normalizePath_witness :
  Forall ascii_byte (lit "/cmd/:tool/*rest") ∧
  normalizePath (lit "/cmd/:tool/*rest") = Ret (lit "/cmd/:/*", [lit "tool"; lit "rest"]) ∧
  denormalizePath (lit "/cmd/:/*") [lit "tool"; lit "rest"] = Ret (lit "/cmd/tool/rest").
Proof.
  assert (Hp : Forall ascii_byte (lit "/cmd/:tool/*rest"))
    by (vm_compute; repeat constructor).
  assert (Hn : normalizePath (lit "/cmd/:tool/*rest")
               = Ret (lit "/cmd/:/*", [lit "tool"; lit "rest"]))
    by (vm_compute; reflexivity).
  split_and!; [exact Hp|exact Hn|].
  exact (denormalizePath_normalizePath _ _ _ Hp Hn).
Defined.

(** ** router.go: the sort of the allowed methods *)

(** [a <= b] on Go strings. *)
Definition str_le (a b : str) : Prop := str_ltb b a = false.

Lemma byte_val_inj x y : byte_val x = byte_val y → x = y.
Proof. intros Hxy. by rewrite <- (byte_of_val x), <- (byte_of_val y), Hxy. Qed.

Lemma str_ltb_irrefl (a : str) : str_ltb a a = false.
Proof.
  induction a as [|x a IH]; [done|]. cbn. by rewrite N.ltb_irrefl.
Qed.

Lemma str_ltb_trans (a b c : str) :
  str_ltb a b = true → str_ltb b c = true → str_ltb a c = true.
Proof.
  revert b c. induction a as [|x a IH]; intros [|y b] [|z c]; cbn; try done.
  destruct (N.ltb_spec (byte_val x) (byte_val y)),
           (N.ltb_spec (byte_val y) (byte_val x)),
           (N.ltb_spec (byte_val y) (byte_val z)),
           (N.ltb_spec (byte_val z) (byte_val y)),
           (N.ltb_spec (byte_val x) (byte_val z)),
           (N.ltb_spec (byte_val z) (byte_val x));
    try done; try lia.
  apply IH.
Qed.

Lemma str_ltb_total (a b : str) :
  str_ltb a b = false → str_ltb b a = false → a = b.
Proof.
  revert b. induction a as [|x a IH]; intros [|y b]; cbn; try done.
  destruct (N.ltb_spec (byte_val x) (byte_val y)),
           (N.ltb_spec (byte_val y) (byte_val x)); try done; try lia.
  intros Hab Hba. f_equal; [apply byte_val_inj; lia|by apply IH].
Qed.

Lemma str_ltb_asym (a b : str) : str_ltb a b = true → str_ltb b a = false.
Proof.
  intros Hab. destruct (str_ltb b a) eqn:Hba; [|done].
  pose proof (str_ltb_trans _ _ _ Hab Hba) as Haa.
  by rewrite str_ltb_irrefl in Haa.
Qed.

Global Instance str_le_trans : Transitive str_le.
Proof.
  intros a b c Hab Hbc. unfold str_le in *.
  destruct (str_ltb c a) eqn:Hca; [|done].
  destruct (str_ltb b c) eqn:Hbc2.
  - pose proof (str_ltb_trans _ _ _ Hbc2 Hca). congruence.
  - pose proof (str_ltb_total _ _ Hbc2 Hbc). congruence.
Qed.

Global Instance str_le_antisymm : AntiSymm (=) str_le.
Proof. intros a b Hab Hba. by apply str_ltb_total. Qed.

(** The inner loop moves the element at index [length pre] to its place
    in the sorted part before it. *)
Lemma sort_inner_spec (pre : list str) : ∀ x suf,
  StronglySorted str_le pre →
  ∃ srt, sort_inner (pre ++ x :: suf) (length pre) = srt ++ suf ∧
         srt ≡ₚ pre ++ [x] ∧ StronglySorted str_le srt.
Proof.
  induction pre as [|y pre IH] using rev_ind; intros x suf Hpre.
  { exists [x]. split_and!; [done..|]. repeat constructor. }
  rewrite length_app. cbn [length]. rewrite Nat.add_1_r.
  cbn [sort_inner].
  replace ((pre ++ [y]) ++ x :: suf) with (pre ++ y :: x :: suf)
    by by rewrite <- app_assoc.
  rewrite (list_lookup_middle pre (x :: suf) y (length pre)) by done.
  replace (pre ++ y :: x :: suf) with ((pre ++ [y]) ++ x :: suf)
    by by rewrite <- app_assoc.
  rewrite (list_lookup_middle (pre ++ [y]) suf x (S (length pre)))
    by (rewrite length_app; cbn; lia).
  apply StronglySorted_app in Hpre as (Hle & Hpre & _).
  destruct (str_ltb x y) eqn:Hxy.
  - replace ((pre ++ [y]) ++ x :: suf) with (pre ++ y :: x :: suf)
      by by rewrite <- app_assoc.
    replace (<[length pre:=x]> (pre ++ y :: x :: suf)) with (pre ++ x :: x :: suf).
    2:{ replace (length pre) with (length pre + 0) at 1 by lia.
        by rewrite insert_app_r. }
    replace (<[S (length pre):=y]> (pre ++ x :: x :: suf)) with (pre ++ x :: y :: suf).
    2:{ replace (S (length pre)) with (length pre + 1) by lia.
        by rewrite insert_app_r. }
    destruct (IH x (y :: suf) Hpre) as (srt & -> & Hperm & Hsrt).
    exists (srt ++ [y]). split_and!.
    + by rewrite <- app_assoc.
    + rewrite Hperm, <- !app_assoc. apply Permutation_app_head. cbn. constructor.
    + apply StronglySorted_app_2; [|done|repeat constructor].
      intros x1 x2 Hx1 ->%list_elem_of_singleton.
      rewrite Hperm in Hx1. apply elem_of_app in Hx1 as [Hx1| ->%list_elem_of_singleton].
      * apply Hle; [done|]. by apply list_elem_of_singleton.
      * unfold str_le. by apply str_ltb_asym.
  - exists ((pre ++ [y]) ++ [x]). split_and!; [by rewrite <- !app_assoc|done|].
    apply StronglySorted_app_2; [| |repeat constructor].
    + intros x1 x2 Hx1 ->%list_elem_of_singleton.
      apply elem_of_app in Hx1 as [Hx1| ->%list_elem_of_singleton]; [|done].
      transitivity y; [|done]. apply Hle; [done|]. by apply list_elem_of_singleton.
    + apply StronglySorted_app_2; [done..|repeat constructor].
Qed.

Lemma sort_outer_spec fuel : ∀ (done_ todo : list str),
  StronglySorted str_le done_ → length todo ≤ fuel →
  let r := sort_outer fuel (length done_) (length (done_ ++ todo)) (done_ ++ todo) in
  r ≡ₚ done_ ++ todo ∧ StronglySorted str_le r.
Proof.
  induction fuel as [|fuel IH]; intros done_ todo Hdone Hfuel; cbn [sort_outer]; cbv zeta.
  { destruct todo; [|cbn in Hfuel; lia]. by rewrite app_nil_r. }
  destruct todo as [|x todo].
  { rewrite app_nil_r, Nat.ltb_irrefl. done. }
  destruct (Nat.ltb_spec (length done_) (length (done_ ++ x :: todo))) as [_|Hge].
  2:{ rewrite length_app in Hge. cbn in Hge. lia. }
  destruct (sort_inner_spec done_ x todo Hdone) as (srt & -> & Hperm & Hsrt).
  assert (Hl : length (done_ ++ x :: todo) = length (srt ++ todo)).
  { rewrite !length_app, Hperm, length_app. cbn. lia. }
  assert (Hs : S (length done_) = length srt).
  { rewrite Hperm, length_app. cbn. lia. }
  rewrite Hl, Hs. cbn in Hfuel.
  destruct (IH srt todo Hsrt ltac:(lia)) as [Hp Hss]. split; [|done].
  rewrite Hp, Hperm, <- app_assoc. done.
Qed.

Lemma sort_allowed_perm_sorted (allowed : list str) :
  sort_allowed allowed ≡ₚ allowed ∧ StronglySorted str_le (sort_allowed allowed).
Proof.
  unfold sort_allowed. destruct allowed as [|x allowed]; [by split; [|constructor]|].
  pose proof (sort_outer_spec (length (x :: allowed)) [x] allowed) as Hs.
  cbn [app length] in Hs. apply Hs; [repeat constructor|lia].
Qed.

(** X8. The sort loop in [allowed] returns the methods it is given in
    ascending bytewise order: the result is a permutation of the input
    and each element is at most every later one. *)
Theorem sort_allowed_sorted (allowed : list str) :
  sort_allowed allowed ≡ₚ allowed ∧ StronglySorted str_le (sort_allowed allowed).
Proof.
  unfold sort_allowed. destruct allowed as [|x allowed]; [by split; [|constructor]|].
  pose proof (sort_outer_spec (length (x :: allowed)) [x] allowed) as Hs.
  cbn [app length] in Hs. apply Hs; [repeat constructor|lia].
Qed.

(** ** router.go: allowed *)

Section Allowed.

Context {H : Type}.
Implicit Types (r : @Router H).

(** The method is neither the requested one nor OPTIONS. *)
Definition candidate (reqMethod method : str) : Prop :=
  method ≠ reqMethod ∧ method ≠ MethodOptions.

(** The search of the method's tree finds a node with a handler. *)
Definition serves r (pth method : str) : Prop :=
  match search_method r method pth with
  | Found n _ => is_Some (handle n)
  | _ => False
  end.

Global Instance serves_dec r pth method : Decision (serves r pth method).
Proof. unfold serves. destruct (search_method r method pth); apply _. Defined.

(** The search of the method's tree goes out of range. *)
Definition search_panics r (pth method : str) : Prop :=
  search_method r method pth = SearchPanics.

Global Instance search_panics_dec r pth method : Decision (search_panics r pth method).
Proof. unfold search_panics. destruct (search_method r method pth); (by left) || (by right). Defined.

Lemma allowed_path_spec r (methods : list str) pth reqMethod : ∀ acc,
  allowed_path r methods pth reqMethod acc =
  if decide (Exists (fun m => candidate reqMethod m ∧ search_panics r pth m) methods)
  then Panics IndexOutOfRange
  else Ret (acc ++ filter (fun m => candidate reqMethod m ∧ serves r pth m) methods).
Proof.
  induction methods as [|m methods IH]; intros acc; cbn [allowed_path].
  { rewrite decide_False by by intros ?%Exists_nil. by rewrite app_nil_r. }
  assert (Hex : ∀ P : str → Prop, ¬ P m → Exists P (m :: methods) ↔ Exists P methods).
  { intros P HP. rewrite Exists_cons. naive_solver. }
  destruct (bool_decide (m = reqMethod) || bool_decide (m = MethodOptions)) eqn:Hc.
  { assert (¬ candidate reqMethod m).
    { intros [? ?]. apply orb_true_iff in Hc as [?%bool_decide_eq_true|?%bool_decide_eq_true]; done. }
    rewrite IH, filter_cons_False by naive_solver.
    apply decide_ext. symmetry. apply Hex. naive_solver. }
  apply orb_false_iff in Hc as [?%bool_decide_eq_false ?%bool_decide_eq_false].
  assert (candidate reqMethod m) by done.
  destruct (search_method r m pth) as [|n ps|] eqn:Hs.
  - rewrite IH, filter_cons_False by (unfold serves; rewrite Hs; naive_solver).
    apply decide_ext. symmetry. apply Hex. unfold search_panics. rewrite Hs. naive_solver.
  - destruct (handle n) as [h|] eqn:Hh.
    + rewrite IH, filter_cons_True by (unfold serves; rewrite Hs, Hh; naive_solver).
      rewrite <- app_assoc. cbn [app].
      apply decide_ext. symmetry. apply Hex. unfold search_panics. rewrite Hs. naive_solver.
    + rewrite IH, filter_cons_False
        by (unfold serves; rewrite Hs, Hh; intros [_ []]; done).
      apply decide_ext. symmetry. apply Hex. unfold search_panics. rewrite Hs. naive_solver.
  - rewrite decide_True; [done|]. apply Exists_cons. left. split; [done|].
    unfold search_panics. by rewrite Hs.
Qed.

Lemma sort_allowed_perm (a b : list str) : a ≡ₚ b → sort_allowed a = sort_allowed b.
Proof.
  intros Hab. destruct (sort_allowed_perm_sorted a) as [Ha ?],
    (sort_allowed_perm_sorted b) as [Hb ?].
  apply (StronglySorted_unique str_le); [done..|]. by rewrite Ha, Hb.
Qed.

(** X9. The result of [allowed] does not depend on the order in which
    the loop ranges over the methods of the table. *)
Theorem allowed_order_irrelevant r (methods methods' : list str) pth reqMethod :
  methods ≡ₚ methods' →
  allowed_in_order r methods pth reqMethod = allowed_in_order r methods' pth reqMethod.
Proof.
  intros Hp. unfold allowed_in_order.
  assert (Hfin : ∀ a b : list str, a ≡ₚ b →
    (if 0 <? length a then Join (sort_allowed (a ++ [MethodOptions])) (lit ", ") else []) =
    (if 0 <? length b then Join (sort_allowed (b ++ [MethodOptions])) (lit ", ") else [])).
  { intros a b Hab. rewrite (Permutation_length Hab).
    by rewrite (sort_allowed_perm (a ++ _) (b ++ _)) by by rewrite Hab. }
  case_bool_decide.
  { case_bool_decide; [|done]. f_equal. apply Hfin. by rewrite Hp. }
  rewrite !allowed_path_spec. cbn [app].
  destruct (decide (Exists _ methods)) as [He|He],
           (decide (Exists _ methods')) as [He'|He']; try done.
  - exfalso. apply He'. by rewrite <- Hp.
  - exfalso. apply He. by rewrite Hp.
  - f_equal. apply Hfin. by rewrite Hp.
Qed.

(** X10. For a path other than ["*"]: if no search goes out of range,
    [allowed] returns the empty string when no method other than the
    requested one and OPTIONS has a tree in which the path finds a node
    with a handler; otherwise it returns these methods and OPTIONS, in
    ascending bytewise order, joined with [", "]. *)
Theorem allowed_specific_path r (methods : list str) pth reqMethod :
  pth ≠ lit "*" →
  Forall (fun m => candidate reqMethod m → ¬ search_panics r pth m) methods →
  let found := filter (fun m => candidate reqMethod m ∧ serves r pth m) methods in
  ∃ sorted,
    sorted ≡ₚ found ++ [MethodOptions] ∧ StronglySorted str_le sorted ∧
    allowed_in_order r methods pth reqMethod =
      Ret (if decide (found = []) then [] else Join sorted (lit ", ")).
Proof.
  intros Hpth Hok found. unfold allowed_in_order.
  rewrite bool_decide_eq_false_2 by done. rewrite allowed_path_spec.
  rewrite decide_False.
  2:{ rewrite Exists_exists. intros (m & Hm & Hc & Hp).
      rewrite Forall_forall in Hok. by apply (Hok m). }
  cbn [app]. fold found.
  destruct (sort_allowed_perm_sorted (found ++ [MethodOptions])) as [Hperm Hsorted].
  exists (sort_allowed (found ++ [MethodOptions])). split_and!; [done..|].
  f_equal. destruct found; [done|]. by rewrite decide_False.
Qed.

End Allowed.

(** The table with ["/doc/"] registered for GET and for POST. *)
Definition doc_router : @Router nat :=
  (Handler (Handler New GET (lit "/doc/") (Some 1)).1 POST (lit "/doc/") (Some 2)).1.

Lemma allowed_order_irrelevant_witness :
  allowed_in_order doc_router [GET; POST] (lit "/doc/") [] =
  allowed_in_order doc_router [POST; GET] (lit "/doc/") [].
Proof. apply allowed_order_irrelevant, perm_swap. Defined.

Lemma allowed_specific_path_witness :
  lit "/doc/" ≠ lit "*" ∧
  ∃ sorted,
    sorted ≡ₚ filter (fun m => candidate [] m ∧ serves doc_router (lit "/doc/") m)
                [POST; GET] ++ [MethodOptions] ∧
    StronglySorted str_le sorted ∧
    allowed_in_order doc_router [POST; GET] (lit "/doc/") [] =
      Ret (if decide (filter (fun m => candidate [] m ∧ serves doc_router (lit "/doc/") m)
                        [POST; GET] = [])
           then [] else Join sorted (lit ", ")).
Proof.
  assert (Hne : lit "/doc/" ≠ lit "*") by (vm_compute; discriminate).
  split; [exact Hne|].
  apply (allowed_specific_path doc_router [POST; GET] (lit "/doc/") [] Hne).
  repeat constructor; intros _; vm_compute; discriminate.
Defined.

Example allowed_doc :
  allowed doc_router (lit "/doc/") [] = Ret (lit "GET, OPTIONS, POST").
Proof. vm_compute. reflexivity. Qed.

(** ** router.go: Params, lookup and Handler *)

(** [Params.ByName]: the value of the first parameter with the given
    key, the empty string when there is none. *)
Fixpoint ByName (ps : list Param) (name : str) : str :=
  match ps with
  | [] => []
  | p :: ps' => if bool_decide (Key p = name) then Value p else ByName ps' name
  end.

(** [Params.CatchAll] *)
Definition CatchAll (ps : list Param) : str := ByName ps catchAllParam.

(** The key under which [lookup] files the value of a name. *)
Definition param_key (name : str) : str :=
  if bool_decide (name = [star]) then catchAllParam else name.

(** The parameters [lookup] builds from the names of the node found and
    the values captured: names and values are paired by position, and
    the values without a name are dropped, their slots keeping the zero
    [Param]. *)
Definition paired (names vals : list str) : list Param :=
  zip_with (fun name v => mkParam (param_key name) v) names vals
  ++ replicate (length vals - length names) (mkParam [] []).

Lemma fill_params_spec (names : list str) : ∀ (filled : list Param) (vals : list str),
  length filled ≤ length vals →
  fill_params names (length filled) vals
    (filled ++ replicate (length vals - length filled) (mkParam [] [])) =
  if decide (length filled + length names ≤ length vals)
  then Ret (filled ++ paired names (drop (length filled) vals))
  else Panics IndexOutOfRange.
Proof.
  induction names as [|name names IH]; intros filled vals Hlen; cbn [fill_params].
  { rewrite decide_True by (cbn; lia). unfold paired. cbn [zip_with length app].
    by rewrite length_drop, Nat.sub_0_r. }
  destruct (vals !! length filled) as [v|] eqn:Hv.
  2:{ apply lookup_ge_None in Hv. rewrite decide_False by (cbn; lia). done. }
  pose proof (lookup_lt_Some _ _ _ Hv) as Hlt.
  destruct (Nat.ltb_spec (length filled)
              (length (filled ++ replicate (length vals - length filled) (mkParam [] []))))
    as [_|Hge].
  2:{ rewrite length_app, length_replicate in Hge. lia. }
  replace (length vals - length filled) with (S (length vals - S (length filled))) by lia.
  cbn [replicate].
  replace (length filled) with (length filled + 0) at 2 by lia.
  rewrite insert_app_r. cbn [insert list_insert].
  replace (filled ++ mkParam (if bool_decide (name = [star]) then catchAllParam else name) v
             :: replicate (length vals - S (length filled)) (mkParam [] []))
    with ((filled ++ [mkParam (param_key name) v])
            ++ replicate (length vals - length (filled ++ [mkParam (param_key name) v]))
                 (mkParam [] [])).
  2:{ rewrite <- app_assoc, length_app. cbn [length app]. by rewrite Nat.add_1_r. }
  replace (S (length filled)) with (length (filled ++ [mkParam (param_key name) v]))
    by (rewrite length_app; cbn; lia).
  rewrite IH by (rewrite length_app; cbn; lia).
  rewrite length_app. cbn [length].
  apply (drop_S _ _ _) in Hv as Hd.
  destruct (decide (length filled + 1 + length names ≤ length vals)).
  - rewrite decide_True by lia. f_equal. rewrite <- app_assoc. f_equal.
    rewrite Hd. unfold paired. cbn [zip_with length app].
    rewrite Nat.add_1_r. done.
  - by rewrite decide_False by lia.
Qed.

Section Lookup.

Context {H : Type}.
Implicit Types (r : @Router H) (n : @node H).

(** X11. What [lookup] returns once the search of the method's tree has
    found a node with a handler: with no captured value, the handler and
    no parameters; otherwise the handler and the names of the node paired
    by position with the values, provided there are no more names than
    values; with more names than values it panics with an index out of
    range. *)
Theorem lookup_found r method root pth n vals h :
  trees r !! method = Some root →
  search root pth = Found n vals →
  handle n = Some h →
  lookup r method pth =
    if decide (vals = []) then Ret (Some h, [])
    else if decide (length (wildcardNames n) ≤ length vals)
         then Ret (Some h, paired (wildcardNames n) vals)
         else Panics IndexOutOfRange.
Proof.
  intros Ht Hs Hh. unfold lookup. rewrite Ht, Hs, Hh.
  destruct vals as [|v vals]; [done|]. rewrite decide_False by done.
  cbn [length Nat.ltb Nat.leb].
  pose proof (fill_params_spec (wildcardNames n) [] (v :: vals) ltac:(cbn; lia)) as Hf.
  cbn [length app Nat.sub Nat.add drop] in Hf.
  rewrite Hf. by destruct (decide _).
Qed.

(** X12. Registering a route for one method leaves the trees of the
    other methods as they are, so every lookup for another method gives
    what it gave before, whether the registration returns or panics. *)
Theorem Handler_other_methods r method pth (h : option H) method' :
  method' ≠ method →
  trees (Handler r method pth h).1 !! method' = trees r !! method' ∧
  ∀ q, lookup (Handler r method pth h).1 method' q = lookup r method' q.
Proof.
  intros Hne.
  assert (Ht : trees (Handler r method pth h).1 !! method' = trees r !! method').
  { unfold Handler. repeat case_match; simplify_eq/=; try done;
      rewrite ?lookup_insert_ne by done; done. }
  split; [done|]. intros q. unfold lookup. by rewrite Ht.
Qed.

(** X13. [Handler] refuses an empty method, a path that does not start
    with a slash and a nil handler, in this order, and leaves the router
    untouched when it does. *)
Theorem Handler_refuses r method pth (h : option H) :
  (method = [] → Handler r method pth h = (r, Panics MethodEmpty)) ∧
  (method ≠ [] → head pth ≠ Some slash →
   Handler r method pth h = (r, Panics (PathMustBeginWithSlash pth))) ∧
  (method ≠ [] → head pth = Some slash → h = None →
   Handler r method pth h = (r, Panics HandleNil)).
Proof.
  unfold Handler. split_and!.
  - intros ->. done.
  - intros Hm Hp. rewrite bool_decide_eq_false_2, (bool_decide_eq_false_2 _ Hp) by done. done.
  - intros Hm Hp ->. by rewrite bool_decide_eq_false_2, (bool_decide_eq_true_2 _ Hp) by done.
Qed.

End Lookup.

(** The table with ["/cmd/:tool/:sub"] registered for GET. *)
Definition cmd_router : @Router nat :=
  (Handler New GET (lit "/cmd/:tool/:sub") (Some 0)).1.

Lemma lookup_found_witness :
  ∃ root n vals,
    trees cmd_router !! GET = Some root ∧
    search root (lit "/cmd/test/3") = Found n vals ∧
    handle n = Some 0 ∧
    lookup cmd_router GET (lit "/cmd/test/3") =
      if decide (vals = []) then Ret (Some 0, [])
      else if decide (length (wildcardNames n) ≤ length vals)
           then Ret (Some 0, paired (wildcardNames n) vals)
           else Panics IndexOutOfRange.
Proof.
  eexists _, _, _.
  split; [vm_compute; reflexivity|].
  split; [vm_compute; reflexivity|].
  split; [reflexivity|].
  eapply lookup_found; vm_compute; reflexivity.
Defined.

Example lookup_cmd :
  lookup cmd_router GET (lit "/cmd/test/3") =
  Ret (Some 0, [mkParam (lit "tool") (lit "test"); mkParam (lit "sub") (lit "3")]).
Proof. vm_compute. reflexivity. Qed.

Lemma Handler_other_methods_witness :
  trees (Handler cmd_router POST (lit "/doc/") (Some 2)).1 !! GET = trees cmd_router !! GET ∧
  ∀ q, lookup (Handler cmd_router POST (lit "/doc/") (Some 2)).1 GET q = lookup cmd_router GET q.
Proof. apply Handler_other_methods. vm_compute. discriminate. Defined.

Lemma ByName_zero k n (name : str) : ByName (replicate n (mkParam [] [])) name = k → k = [].
Proof.
  induction n as [|n IH]; cbn; [done|]. case_bool_decide; [done|apply IH].
Qed.

(** X14. [ByName] on the parameters [lookup] builds returns the value
    captured for the first parameter filed under the key, and the empty
    string when no parameter is filed under it. *)
Theorem ByName_paired (names vals : list str) :
  (∀ i name v,
     names !! i = Some name → vals !! i = Some v →
     (∀ j other, j < i → names !! j = Some other → param_key other ≠ param_key name) →
     ByName (paired names vals) (param_key name) = v) ∧
  (∀ key, Forall (fun name => param_key name ≠ key) names →
          ByName (paired names vals) key = []).
Proof.
  split.
  - revert vals. induction names as [|nm names IH]; intros vals i name v Hn Hv Hfirst;
      [done|].
    destruct vals as [|w vals]; [done|].
    unfold paired. cbn [zip_with app ByName Key Value length Nat.sub].
    destruct i as [|i].
    + cbn in Hn, Hv. simplify_eq. by rewrite bool_decide_eq_true_2.
    + cbn in Hn, Hv. rewrite bool_decide_eq_false_2 by (apply (Hfirst 0); [lia|done]).
      apply (IH vals i name v Hn Hv). intros j other Hj Ho.
      apply (Hfirst (S j)); [lia|done].
  - intros key. revert vals. induction names as [|nm names IH]; intros vals Hk.
    { unfold paired. cbn. by eapply ByName_zero. }
    apply Forall_cons in Hk as [Hnm Hk]. destruct vals as [|w vals]; [done|].
    unfold paired. cbn [zip_with app ByName Key Value length Nat.sub].
    rewrite bool_decide_eq_false_2 by done. by apply IH.
Qed.

(** ** tree.go: incrementLiteralPrio *)

Section IncrementLiteralPrio.

Context {H : Type}.
Implicit Types (n c : @node H) (cs : list (@node H)).

Lemma swap_adjacent (l1 l2 : list (@node H)) x y :
  swap (l1 ++ y :: x :: l2) (length l1) (S (length l1)) = l1 ++ x :: y :: l2.
Proof.
  unfold swap.
  rewrite (list_lookup_middle l1 (x :: l2) y (length l1)) by done.
  replace (l1 ++ y :: x :: l2) with ((l1 ++ [y]) ++ x :: l2) by by rewrite <- app_assoc.
  rewrite (list_lookup_middle (l1 ++ [y]) l2 x (S (length l1)))
    by (rewrite length_app; cbn; lia).
  rewrite <- app_assoc. cbn [app].
  replace (S (length l1)) with (length l1 + 1) by lia.
  rewrite insert_app_r. cbn [insert list_insert].
  replace (length l1) with (length l1 + 0) at 1 by lia.
  by rewrite insert_app_r.
Qed.

(** The move-to-front loop carries the element at [length l1] to the
    left over the neighbours of smaller priority and stops at the first
    that has none. *)
Lemma move_front_spec prio (l1 : list (@node H)) : ∀ x l2,
  ∃ a b, l1 = a ++ b ∧
    move_front (l1 ++ x :: l2) prio (length l1) = (a ++ x :: b ++ l2, length a) ∧
    Forall (fun y => (priority y < prio)%Z) b ∧
    (∀ y, last a = Some y → (prio <= priority y)%Z).
Proof.
  induction l1 as [|y l1 IH] using rev_ind; intros x l2.
  { exists [], []. split_and!; [done..|constructor|done]. }
  rewrite length_app. cbn [length]. rewrite Nat.add_1_r. cbn [move_front].
  rewrite <- app_assoc. cbn [app].
  rewrite (list_lookup_middle l1 (x :: l2) y (length l1)) by done.
  destruct (Z.ltb_spec (priority y) prio) as [Hlt|Hge].
  - rewrite swap_adjacent.
    destruct (IH x (y :: l2)) as (a & b & -> & -> & Hb & Ha).
    exists a, (b ++ [y]). rewrite <- !app_assoc. split_and!; [done..| |done].
    apply Forall_app. split; [done|]. by repeat constructor.
  - exists (l1 ++ [y]), []. rewrite app_nil_r, <- app_assoc, length_app. cbn [app length].
    rewrite Nat.add_1_r. split_and!; [done..|constructor|].
    intros z. rewrite last_snoc. by intros [= <-].
Qed.

Lemma slice_app3 (a b c : str) :
  slice (a ++ b ++ c) (length a) (length a + length b) = Some b.
Proof.
  unfold slice.
  destruct (Nat.leb_spec (length a) (length a + length b)); [|lia].
  destruct (Nat.leb_spec (length a + length b) (length (a ++ b ++ c))) as [_|Hlt].
  2:{ rewrite !length_app in Hlt. lia. }
  cbn [andb]. rewrite drop_app_length.
  replace (length a + length b - length a) with (length b) by lia.
  by rewrite take_app_length.
Qed.

Lemma slice_suffix (a b : str) : slice (a ++ b) (length a) (length (a ++ b)) = Some b.
Proof.
  unfold slice. rewrite length_app.
  destruct (Nat.leb_spec (length a) (length a + length b)); [|lia].
  rewrite Nat.leb_refl. cbn [andb]. rewrite drop_app_length.
  by rewrite take_ge by lia.
Qed.

(** The result of [incrementLiteralPrio] once the loop has carried the
    child from behind [a ++ b] to behind [a]. *)
Lemma incrementLiteralPrio_moved n (a b l2 : list (@node H)) c (i1 i2 : str) ic :
  literals n = (a ++ b) ++ c :: l2 →
  indices n = i1 ++ ic :: i2 →
  length i1 = length (a ++ b) →
  move_front ((a ++ b) ++ incr_priority c :: l2) (uint32_incr (priority c))
    (length (a ++ b)) = (a ++ incr_priority c :: b ++ l2, length a) →
  incrementLiteralPrio n (length (a ++ b)) =
    (set_indices (set_literals n (a ++ incr_priority c :: b ++ l2))
       (take (length a) i1 ++ ic :: drop (length a) i1 ++ i2),
     Some (length a)).
Proof.
  intros Hl Hi Hlen Hmove. unfold incrementLiteralPrio.
  rewrite Hl, (list_lookup_middle (a ++ b) l2 c (length (a ++ b))) by done.
  rewrite insert_app_r_alt, Nat.sub_diag by done. cbn [insert list_insert].
  rewrite Hmove. rewrite length_app in Hlen.
  assert (Hi1 : i1 = take (length a) i1 ++ drop (length a) i1) by by rewrite take_drop.
  set (ia := take (length a) i1) in *. set (ib := drop (length a) i1) in *.
  assert (Hia : length ia = length a) by (subst ia; rewrite length_take; lia).
  assert (Hib : length ib = length b) by (subst ib; rewrite length_drop; lia).
  case_bool_decide as Hpos.
  { assert (b = []) as -> by (rewrite length_app in Hpos; destruct b; [done|cbn in Hpos; lia]).
    assert (ib = []) as -> by by destruct ib.
    rewrite app_nil_r in Hi1. cbn [app].
    f_equal. destruct n; cbn in *. by rewrite Hi, Hi1. }
  cbn [indices set_literals]. rewrite Hi, Hi1, length_app.
  replace (slice ((ia ++ ib) ++ ic :: i2) 0 (length a)) with (Some ia).
  2:{ symmetry. rewrite <- Hia, <- app_assoc.
      apply (slice_app3 [] ia (ib ++ ic :: i2)). }
  replace (slice ((ia ++ ib) ++ ic :: i2) (length a + length b) (length a + length b + 1))
    with (Some [ic]).
  2:{ symmetry. replace (length a + length b) with (length (ia ++ ib))
        by (rewrite length_app; lia).
      apply (slice_app3 (ia ++ ib) [ic] i2). }
  replace (slice ((ia ++ ib) ++ ic :: i2) (length a) (length a + length b)) with (Some ib).
  2:{ symmetry. rewrite <- Hia, <- Hib, <- app_assoc. apply (slice_app3 ia ib (ic :: i2)). }
  replace (slice ((ia ++ ib) ++ ic :: i2) (length a + length b + 1)
             (length ((ia ++ ib) ++ ic :: i2))) with (Some i2).
  2:{ symmetry.
      replace ((ia ++ ib) ++ ic :: i2) with (((ia ++ ib) ++ [ic]) ++ i2)
        by (rewrite <- !app_assoc; done).
      replace (length a + length b + 1) with (length ((ia ++ ib) ++ [ic]))
        by (rewrite !length_app; cbn; lia).
      apply slice_suffix. }
  done.
Qed.

(** X15. [incrementLiteralPrio] on the child at position [pos], when
    the index string reaches that position: the priority of the child
    goes up by one, the child moves left past the neighbours whose
    priority is smaller than its new one and no further, the index
    string is rearranged in the same way, so that every child stays
    under its index byte, and the new position is returned.  Nothing
    else in the node changes. *)
Theorem incrementLiteralPrio_spec n (l1 l2 : list (@node H)) c (i1 i2 : str) ic :
  literals n = l1 ++ c :: l2 →
  indices n = i1 ++ ic :: i2 →
  length i1 = length l1 →
  ∃ a b ia ib,
    l1 = a ++ b ∧ i1 = ia ++ ib ∧ length ia = length a ∧
    incrementLiteralPrio n (length l1) =
      (set_indices (set_literals n (a ++ incr_priority c :: b ++ l2))
         (ia ++ ic :: ib ++ i2),
       Some (length a)) ∧
    Forall (fun y => (priority y < uint32_incr (priority c))%Z) b ∧
    (∀ y, last a = Some y → (uint32_incr (priority c) <= priority y)%Z).
Proof.
  intros Hl Hi Hlen.
  destruct (move_front_spec (uint32_incr (priority c)) l1 (incr_priority c) l2)
    as (a & b & -> & Hmove & Hb & Ha).
  exists a, b, (take (length a) i1), (drop (length a) i1).
  split_and!; [done|by rewrite take_drop| | |done|done].
  { rewrite length_app in Hlen. rewrite length_take. lia. }
  by apply incrementLiteralPrio_moved.
Qed.

(** With a position beyond the children nothing changes and the index is
    reported out of range. *)
Lemma incrementLiteralPrio_out_of_range n pos :
  length (literals n) ≤ pos → incrementLiteralPrio n pos = (n, None).
Proof.
  intros Hpos. unfold incrementLiteralPrio. by rewrite lookup_ge_None_2.
Qed.

End IncrementLiteralPrio.

(** The root of the tree of ["/a"] and ["/b"]: the second child moves to
    the front when its priority goes up. *)
Lemma incrementLiteralPrio_spec_witness :
  let n := (tree_of ["/a"; "/b"]%string).1 in
  let l1 := take 1 (literals n) in
  let c := default new_node (literals n !! 1) in
  let i1 := take 1 (indices n) in
  let ic := default slash (indices n !! 1) in
  literals n = l1 ++ c :: [] ∧ indices n = i1 ++ ic :: [] ∧ length i1 = length l1 ∧
  ∃ a b ia ib,
    l1 = a ++ b ∧ i1 = ia ++ ib ∧ length ia = length a ∧
    incrementLiteralPrio n (length l1) =
      (set_indices (set_literals n (a ++ incr_priority c :: b ++ []))
         (ia ++ ic :: ib ++ []),
       Some (length a)) ∧
    Forall (fun y => (priority y < uint32_incr (priority c))%Z) b ∧
    (∀ y, last a = Some y → (uint32_incr (priority c) <= priority y)%Z).
Proof.
  intros n l1 c i1 ic.
  assert (Hl : literals n = l1 ++ c :: []) by (vm_compute; reflexivity).
  assert (Hi : indices n = i1 ++ ic :: []) by (vm_compute; reflexivity).
  assert (Hlen : length i1 = length l1) by (vm_compute; reflexivity).
  split_and!; [exact Hl|exact Hi|exact Hlen|].
  exact (incrementLiteralPrio_spec n l1 [] c i1 [] ic Hl Hi Hlen).
Defined.

(** ** tree.go: addRoute ends *)

Lemma lcp_props (a b : str) :
  let i := longestCommonPrefix a b in
  i ≤ length a ∧ i ≤ length b ∧ take i a = take i b ∧
  (∀ x y, a !! i = Some x → b !! i = Some y → x ≠ y).
Proof.
  unfold longestCommonPrefix. rewrite min_spec.
  destruct (lcp_loop_spec (Nat.min (length a) (length b)) 0
              (Nat.min (length a) (length b)) a b) as (_&H1&H2&H3); try lia; [done|].
  split_and!; try lia; [done|].
  intros x y Hx Hy. apply H3; [|done..].
  apply lookup_lt_Some in Hx, Hy. lia.
Qed.

Lemma findNextWildcard_first (pth : str) :
  match findNextWildcard pth with
  | None => Forall plain pth
  | Some (c, i) => pth !! i = Some c ∧ is_wildcard c = true ∧ Forall plain (take i pth)
  end.
Proof.
  unfold findNextWildcard, runes. rewrite find_wild_rune_bytes.
  pose proof (find_wild_byte_spec pth 0) as Hs.
  destruct (find_wild_byte 0 pth) as [[c j]|]; [|done].
  rewrite Nat.sub_0_r in Hs. by destruct Hs as (_ & ? & ? & ?).
Qed.

Lemma denormalizePath_ends (x : str) (names : list str) : denormalizePath x names ≠ NoFuel.
Proof.
  pose proof (denormalize_loop_spec x 0 names 0 []) as Hs.
  unfold denormalizePath, runes. by destruct (denormalize_loop _ _ _ _).
Qed.

Section Termination.

Context {H : Type}.
Implicit Types (n c w : @node H).

Definition heights (lits : list (@node H)) : nat :=
  foldr (fun l acc => Nat.max (height l) acc) 0 lits.

Lemma height_unfold n :
  height n = S (Nat.max (heights (literals n))
                  (Nat.max (from_option height 0 (wild n))
                           (from_option height 0 (catchAll n)))).
Proof. by destruct n. Qed.

Lemma heights_elem (lits : list (@node H)) c : c ∈ lits → height c ≤ heights lits.
Proof.
  induction 1 as [c lits|c c' lits _ IH]; unfold heights in *; cbn [foldr]; lia.
Qed.

Lemma heights_bound (lits : list (@node H)) k :
  Forall (fun c => height c ≤ k) lits → heights lits ≤ k.
Proof. induction 1; unfold heights in *; cbn [foldr]; lia. Qed.

Lemma height_literal n c : c ∈ literals n → height c < height n.
Proof. intros Hc%heights_elem. rewrite (height_unfold n). lia. Qed.

Lemma height_wild n w : wild n = Some w → height w < height n.
Proof. intros Hw. rewrite (height_unfold n), Hw. cbn. lia. Qed.

Lemma height_incr_priority c : height (incr_priority c) = height c.
Proof. by destruct c. Qed.

Lemma nType_incr_priority c : nType (incr_priority c) = nType c.
Proof. by destruct c. Qed.

Lemma split_child n i (pth : str) c cs :
  literals (split n i pth) = c :: cs →
  height c = height n ∧ nType c = nodeType.static.
Proof. unfold split. cbn. intros [= <- <-]. by destruct n. Qed.

(** The bound on the iterations of the walk from a node: a parameter
    node may be entered once more than its height tells, through a
    split. *)
Definition walk_bound n : nat :=
  2 * height n + (if nodeType.eqb (nType n) nodeType.param then 1 else 0).

Lemma walk_bound_child n c : height c < height n → walk_bound c < 2 * height n.
Proof. unfold walk_bound. destruct (nodeType.eqb _ _); lia. Qed.

Lemma swap_Forall (P : @node H → Prop) cs i j : Forall P cs → Forall P (swap cs i j).
Proof.
  intros Hcs. unfold swap.
  destruct (cs !! i) as [a|] eqn:Ha; [|done]. destruct (cs !! j) as [b|] eqn:Hb; [|done].
  apply Forall_insert; [apply Forall_insert; [done|]|];
    eapply Forall_lookup_1; eauto.
Qed.

Lemma move_front_Forall (P : @node H → Prop) prio pos : ∀ cs,
  Forall P cs → Forall P (move_front cs prio pos).1.
Proof.
  induction pos as [|k IH]; intros cs Hcs; cbn [move_front]; [done|].
  destruct (cs !! k); [|done]. destruct (_ <? _)%Z; [|done].
  by apply IH, swap_Forall.
Qed.

Lemma incrementLiteralPrio_heights n pos k :
  Forall (fun c => height c ≤ k) (literals n) →
  Forall (fun c => height c ≤ k) (literals (incrementLiteralPrio n pos).1).
Proof.
  intros Hn. unfold incrementLiteralPrio.
  destruct (literals n !! pos) as [c|] eqn:Hc; [|done].
  pose proof (move_front_Forall (fun c => height c ≤ k)
                (uint32_incr (priority c)) pos
                (<[pos:=incr_priority c]> (literals n))) as Hm.
  destruct (move_front _ _ _) as [cs newPos]. cbn [fst] in Hm.
  assert (Hcs : Forall (fun c => height c ≤ k) cs).
  { apply Hm, Forall_insert; [done|]. rewrite height_incr_priority.
    by eapply (Forall_lookup_1 _ _ _ _ Hn). }
  case_bool_decide; [by destruct n|]. repeat case_match; by destruct n.
Qed.

Lemma insertChild_ends fuel : ∀ n fullpath (pth : str) (h : option H) names,
  length pth ≤ fuel → (insertChild fuel n fullpath pth h names).2 ≠ NoFuel.
Proof.
  induction fuel as [|fuel IH]; intros n fullpath pth h names Hfuel.
  - destruct pth; [|cbn in Hfuel; lia]. cbn. done.
  - cbn [insertChild].
    pose proof (findNextWildcard_first pth) as Hw.
    destruct (findNextWildcard pth) as [[wc i]|]; [|done].
    destruct Hw as (Hi & _ & _). apply lookup_lt_Some in Hi.
    destruct (Ascii.eqb wc colon).
    + destruct (wild n).
      { unfold ambiguous. pose proof (denormalizePath_ends fullpath (wildcardNames n)).
        by destruct (denormalizePath _ _). }
      destruct (1 <? length _); [|done].
      specialize (IH (set_priority new_node 1%Z) fullpath
                    (drop 1 (if 0 <? i then drop i pth else pth)) h names).
      destruct (insertChild fuel _ _ _ _ _) as [child r]. cbn [snd] in *.
      apply IH. rewrite length_drop. destruct (0 <? i); rewrite ?length_drop; lia.
    + destruct (negb _); [done|]. destruct (catchAll n); [|done].
      unfold ambiguous. pose proof (denormalizePath_ends fullpath (wildcardNames n)).
      by destruct (denormalizePath _ _).
Qed.

Lemma index_of_Some (c : ascii) (idx : str) j :
  index_of c idx = Some j → idx !! j = Some c.
Proof.
  revert j. induction idx as [|x idx IH]; intros j; cbn; [done|].
  destruct (Ascii.eqb_spec x c) as [->|_]; [by intros [= <-]|].
  destruct (index_of c idx) as [k|]; [|done]. intros [= <-]. by apply IH.
Qed.

Lemma walk_ends fuel : ∀ n fullpath (pth : str) (h : option H) names,
  walk_bound n < fuel → (walk fuel n fullpath pth h names).2 ≠ NoFuel.
Proof.
  induction fuel as [|fuel IH]; intros n fullpath pth h names Hfuel; [lia|].
  cbn [walk]. cbv zeta.
  pose proof (lcp_props (path n) pth) as (Hi1 & Hi2 & _ & Hdiff).
  set (i := longestCommonPrefix (path n) pth) in *.
  set (n1 := if i <? length (path n) then split n i pth else n).
  set (rest := if i <? length pth then drop i pth
               else if i =? length pth then [] else pth).
  destruct rest as [|nextChar rest'] eqn:Hrest.
  { by destruct (handle n1). }
  assert (Hnext : i < length (path n) → ∀ x, path n !! i = Some x → x ≠ nextChar).
  { intros Hlt x Hx. apply (Hdiff x nextChar Hx).
    unfold rest in Hrest. destruct (Nat.ltb_spec i (length pth)).
    - by rewrite <- (Nat.add_0_r i), <- lookup_drop, Hrest.
    - destruct (Nat.eqb_spec i (length pth)); [done|lia]. }
  assert (Hty : nType n1 = nType n).
  { subst n1. by destruct (i <? length (path n)). }
  destruct (if Ascii.eqb nextChar colon && _ then wild n1 else None) as [w|] eqn:Hw.
  { assert (wild n = Some w) as Hwn.
    { destruct (Ascii.eqb nextChar colon && _); [|done]. subst n1.
      by destruct (i <? length (path n)). }
    specialize (IH w fullpath (nextChar :: rest') h names).
    destruct (walk fuel w _ _ _ _) as [w' r]. cbn [snd] in *. apply IH.
    pose proof (walk_bound_child n w (height_wild _ _ Hwn)). unfold walk_bound in Hfuel. lia. }
  destruct (if nodeType.eqb (nType n1) nodeType.param then literals n1 else [])
    as [|c cs] eqn:Hlits.
  2:{ destruct (nodeType.eqb (nType n1) nodeType.param) eqn:Hp; [|done].
      specialize (IH (incr_priority c) fullpath (nextChar :: rest') h names).
      destruct (walk fuel _ _ _ _ _) as [c' r]. cbn [snd] in *. apply IH.
      unfold walk_bound in *. rewrite height_incr_priority, nType_incr_priority.
      rewrite Hty in Hp. rewrite Hp in Hfuel.
      subst n1. destruct (Nat.ltb_spec i (length (path n))).
      - apply split_child in Hlits as [-> ->]. cbn. lia.
      - assert (height c < height n) by (apply height_literal; rewrite Hlits; left).
        destruct (nodeType.eqb (nType c) _); lia. }
  destruct (index_of nextChar (indices n1)) as [j|] eqn:Hj.
  - assert (n1 = n) as Hn1.
    { subst n1. destruct (Nat.ltb_spec i (length (path n))) as [Hlt|]; [|done].
      exfalso. cbn in Hj. destruct (path n !! i) as [x|] eqn:Hx.
      - cbn in Hj. destruct (Ascii.eqb_spec x nextChar) as [->|]; [|done].
        by eapply Hnext.
      - done. }
    pose proof (incrementLiteralPrio_heights n1 j (height n - 1)) as Hh.
    destruct (incrementLiteralPrio n1 j) as [n2 [j'|]]; [|done]. cbn [fst] in Hh.
    destruct (literals n2 !! j') as [c|] eqn:Hc; [|done].
    specialize (IH c fullpath (nextChar :: rest') h names).
    destruct (walk fuel c _ _ _ _) as [c' r]. cbn [snd] in *. apply IH.
    assert (height c ≤ height n - 1).
    { eapply (Forall_lookup_1 _ _ _ _ (Hh _) Hc). Unshelve.
      rewrite Hn1. apply Forall_forall. intros x Hx%height_literal. lia. }
    pose proof (height_unfold n). unfold walk_bound in *.
    destruct (nodeType.eqb (nType c) _), (nodeType.eqb (nType n) _); lia.
  - destruct (negb (is_wildcard nextChar)).
    + match goal with |- context [incrementLiteralPrio ?a ?b] =>
        destruct (incrementLiteralPrio a b) as [n2 [newPos|]] end; [|done].
      match goal with |- context [literals n2 !! ?a] =>
        destruct (literals n2 !! a) as [child|] end; [|done].
      pose proof (insertChild_ends (length (nextChar :: rest')) child fullpath
                    (nextChar :: rest') h names ltac:(lia)) as He.
      by destruct (insertChild _ _ _ _ _ _).
    + by apply insertChild_ends.
Qed.

(** X16. [addRoute] always ends, for every tree, pattern and handler:
    the loop of [normalizePath], the walk down the tree and the loop of
    [insertChild] all stay within their bounds, so the call returns or
    panics. *)
Theorem addRoute_ends n (pth : str) (h : option H) :
  (addRoute n pth h).2 ≠ NoFuel.
Proof.
  unfold addRoute. pose proof (normalizePath_spec pth) as Hn.
  destruct (normalizePath pth) as [[np names]| |]; [|done..].
  case_match.
  - by apply insertChild_ends.
  - apply walk_ends. unfold walk_bound. rewrite height_incr_priority.
    destruct (nodeType.eqb _ _); lia.
Qed.

End Termination.

(** ** router.go: ServeHTTP *)

Definition MethodConnect : str := lit "CONNECT".
Definition MethodGet : str := lit "GET".
Definition StatusMovedPermanently : nat := 301.
Definition StatusPermanentRedirect : nat := 308.

(** The part of [*http.Request] that [ServeHTTP] reads. *)
Record Request : Type := mkRequest {
  Method : str;
  URLPath : str;
  URLRawPath : str
}.

Section ServeHTTP.

Context {H : Type}.

(** The optional handlers of the router, and [CleanPath], which is
    defined outside the files at hand and is taken as given. *)
Record Responders : Type := mkResponders {
  GlobalOPTIONS : option H;
  NotFoundHandler : option H;  (* the field [NotFound] *)
  MethodNotAllowed : option H;
  cleanPath : str → str
}.

(** What [ServeHTTP] does with a request. *)
Inductive response : Type :=
  | Serve (handle : H) (params : list Param)
      (* [handle.ServeHTTP], the parameters put in the context when there are some *)
  | Redirect (code : nat) (newPath : str)
      (* [http.Redirect] to the URL with the path replaced *)
  | AllowOptions (allow : str) (responder : option H)
      (* the Allow header set, [GlobalOPTIONS] called when there is one *)
  | NotAllowed (allow : str) (responder : option H)
      (* the Allow header set, [MethodNotAllowed] or a plain 405 *)
  | Missing (responder : option H).
      (* the [NotFound] handler or [http.NotFound] *)

(** [x[:len(x)-1]] *)
Definition drop_last (x : str) : res str :=
  match x with
  | [] => Panics IndexOutOfRange
  | _ :: _ => Ret (take (length x - 1) x)
  end.

(** The fixed path and the new URL path of the trailing-slash redirect. *)
Definition toggle_slash (pth newPath : str) : res (str * str) :=
  if (1 <? length pth) && bool_decide (last pth = Some slash) then
    match drop_last newPath with
    | Ret newPath' => Ret (take (length pth - 1) pth, newPath')
    | Panics p => Panics p
    | NoFuel => NoFuel
    end
  else Ret (pth ++ [slash], newPath ++ [slash]).

(** The code after the redirect attempt: OPTIONS, 405 and 404. *)
Definition fallback (r : @Router H) (rs : Responders) (req : Request) (pth : str)
    : res response :=
  if bool_decide (Method req = MethodOptions) && HandleOPTIONS r then
    match allowed r pth MethodOptions with
    | Ret allow =>
      if bool_decide (allow ≠ []) then Ret (AllowOptions allow (GlobalOPTIONS rs))
      else Ret (Missing (NotFoundHandler rs))
    | Panics p => Panics p
    | NoFuel => NoFuel
    end
  else if HandleMethodNotAllowed r then
    match allowed r pth (Method req) with
    | Ret allow =>
      if bool_decide (allow ≠ []) then Ret (NotAllowed allow (MethodNotAllowed rs))
      else Ret (Missing (NotFoundHandler rs))
    | Panics p => Panics p
    | NoFuel => NoFuel
    end
  else Ret (Missing (NotFoundHandler rs)).

Definition ServeHTTP (r : @Router H) (rs : Responders) (req : Request) : res response :=
  let pth := URLPath req in
  let pth := if UseRawPath r && (0 <? length (URLRawPath req))
             then URLRawPath req else pth in
  let pth := if CleanPath r then cleanPath rs pth else pth in
  match lookup r (Method req) pth with
  | Panics p => Panics p
  | NoFuel => NoFuel
  | Ret (Some handle, params) => Ret (Serve handle params)
  | Ret (None, _) =>
    if bool_decide (Method req ≠ MethodConnect) && bool_decide (pth ≠ [slash]) then
      let code := if bool_decide (Method req ≠ MethodGet)
                  then StatusPermanentRedirect else StatusMovedPermanently in
      if RedirectTrailingSlash r then
        match toggle_slash pth (URLPath req) with
        | Panics p => Panics p
        | NoFuel => NoFuel
        | Ret (fixedPath, newPath) =>
          match lookup r (Method req) fixedPath with
          | Panics p => Panics p
          | NoFuel => NoFuel
          | Ret (Some _, _) => Ret (Redirect code newPath)
          | Ret (None, _) => fallback r rs req pth
          end
        end
      else fallback r rs req pth
    else fallback r rs req pth
  end.

(** The path that is matched: the raw path when asked for and present,
    cleaned when asked for. *)
Definition matched_path (r : @Router H) (rs : Responders) (req : Request) : str :=
  let pth := if UseRawPath r && (0 <? length (URLRawPath req))
             then URLRawPath req else URLPath req in
  if CleanPath r then cleanPath rs pth else pth.

(** X17. A request whose method and path have a route is served by the
    handler of that route with the parameters of the lookup, whatever the
    settings for redirects, OPTIONS and 405; and a request is only ever
    served by the handler that [lookup] returns for its method and
    path. *)
Theorem ServeHTTP_serves r rs req handle params :
  ServeHTTP r rs req = Ret (Serve handle params) ↔
  lookup r (Method req) (matched_path r rs req) = Ret (Some handle, params).
Proof.
  unfold ServeHTTP, matched_path. cbv zeta.
  set (pth := if CleanPath r then _ else _).
  destruct (lookup r (Method req) pth) as [[[h|] ps]| |] eqn:Hl.
  - split; intros [= -> ->]; done.
  - split; [|done]. unfold fallback, toggle_slash.
    repeat (case_match; try done).
  - done.
  - done.
Qed.

(** X18. A redirect is answered exactly when the request is neither a
    CONNECT request nor for the path ["/"], redirects of the trailing
    slash are on, the request itself has no route, and the matched path
    with its trailing slash toggled has one: the last byte removed when
    the matched path is longer than one byte and ends with a slash, a
    slash added otherwise.  The code is 301 for GET and 308 for every
    other method, and the new path is the path of the URL toggled in the
    same way, which must not be empty when a byte is to be removed. *)
Theorem ServeHTTP_redirect (r : @Router H) rs req code newPath :
  ServeHTTP r rs req = Ret (Redirect code newPath) ↔
  let pth := matched_path r rs req in
  let strip := (1 <? length pth) && bool_decide (last pth = Some slash) in
  Method req ≠ MethodConnect ∧ pth ≠ [slash] ∧ RedirectTrailingSlash r = true ∧
  (∃ ps, lookup r (Method req) pth = Ret (None, ps)) ∧
  (∃ h ps, lookup r (Method req)
             (if strip then take (length pth - 1) pth else pth ++ [slash]) =
           Ret (Some h, ps)) ∧
  (strip = true → URLPath req ≠ []) ∧
  code = (if bool_decide (Method req = MethodGet) then 301 else 308) ∧
  newPath = (if strip then take (length (URLPath req) - 1) (URLPath req)
             else URLPath req ++ [slash]).
Proof.
  unfold ServeHTTP, matched_path. cbv zeta.
  set (pth := if CleanPath r then _ else _).
  set (strip := (1 <? length pth) && bool_decide (last pth = Some slash)).
  assert (Hcode : (if bool_decide (Method req ≠ MethodGet)
                   then StatusPermanentRedirect else StatusMovedPermanently) =
                  (if bool_decide (Method req = MethodGet) then 301 else 308)).
  { unfold StatusPermanentRedirect, StatusMovedPermanently.
    repeat case_bool_decide; done. }
  assert (Hfb : fallback r rs req pth ≠ Ret (Redirect code newPath)).
  { unfold fallback. repeat (case_match; try done). }
  split.
  - destruct (lookup r (Method req) pth) as [[[h|] ps]| |] eqn:Hl; [done| |done..].
    destruct (bool_decide (Method req ≠ MethodConnect)) eqn:Hc; [|done].
    destruct (bool_decide (pth ≠ [slash])) eqn:Hp; [|done]. cbn [andb].
    apply bool_decide_eq_true in Hc, Hp.
    destruct (RedirectTrailingSlash r); [|done].
    unfold toggle_slash, drop_last. fold strip.
    destruct strip.
    + destruct (URLPath req) as [|c u] eqn:Hu; [done|].
      destruct (lookup r (Method req) (take (length pth - 1) pth)) as [[[h'|] ps']| |];
        [|done..].
      intros [= <- <-]. rewrite Hcode. split_and!; eauto.
    + destruct (lookup r (Method req) (pth ++ [slash])) as [[[h'|] ps']| |]; [|done..].
      intros [= <- <-]. rewrite Hcode. split_and!; eauto.
  - intros (Hc & Hp & Hr & [ps Hl] & (h & ps' & Hfix) & Hu & -> & ->).
    rewrite Hl, Hr, !bool_decide_eq_true_2 by done. cbn [andb].
    unfold toggle_slash, drop_last. fold strip. rewrite Hcode.
    destruct strip.
    + destruct (URLPath req) as [|c u] eqn:Hurl; [by destruct Hu|]. by rewrite Hfix.
    + by rewrite Hfix.
Qed.

(** X19. An OPTIONS request that is handled by the router's own OPTIONS
    support never receives the 405 answer, and every answer that sets
    the Allow header sets it to a non-empty value that [allowed] computed
    for the matched path. *)
Theorem ServeHTTP_allow r rs req :
  (Method req = MethodOptions → HandleOPTIONS r = true →
   ∀ allow h, ServeHTTP r rs req ≠ Ret (NotAllowed allow h)) ∧
  (∀ allow h, ServeHTTP r rs req = Ret (AllowOptions allow h) →
     Method req = MethodOptions ∧ HandleOPTIONS r = true ∧ allow ≠ [] ∧
     h = GlobalOPTIONS rs ∧
     allowed r (matched_path r rs req) MethodOptions = Ret allow) ∧
  (∀ allow h, ServeHTTP r rs req = Ret (NotAllowed allow h) →
     HandleMethodNotAllowed r = true ∧ allow ≠ [] ∧ h = MethodNotAllowed rs ∧
     allowed r (matched_path r rs req) (Method req) = Ret allow).
Proof.
  assert (Hfb : ∀ resp pth, ServeHTTP r rs req = Ret resp →
            (∀ a h, resp = AllowOptions a h ∨ resp = NotAllowed a h →
                    pth = matched_path r rs req → fallback r rs req pth = Ret resp)).
  { intros resp pth Hs a h Hresp ->. revert Hs.
    unfold ServeHTTP, matched_path. cbv zeta.
    set (pth := if CleanPath r then _ else _).
    destruct Hresp as [-> | ->]; repeat (case_match; try done). }
  split_and!.
  - intros Hm Ho allow h Hs.
    pose proof (Hfb _ _ Hs allow h ltac:(by right) eq_refl) as Hf.
    unfold fallback in Hf. rewrite Hm, Ho, bool_decide_eq_true_2 in Hf by done.
    cbn [andb] in Hf. repeat (case_match; try done).
  - intros allow h Hs.
    pose proof (Hfb _ _ Hs allow h ltac:(by left) eq_refl) as Hf.
    unfold fallback in Hf.
    destruct (bool_decide (Method req = MethodOptions)) eqn:Hm;
      destruct (HandleOPTIONS r) eqn:Ho; cbn [andb] in Hf;
      try (repeat (case_match; try done); fail).
    apply bool_decide_eq_true in Hm.
    destruct (allowed r _ MethodOptions) as [a| |]; [|done..].
    case_bool_decide; [|done]. by injection Hf as -> <-.
  - intros allow h Hs.
    pose proof (Hfb _ _ Hs allow h ltac:(by right) eq_refl) as Hf.
    unfold fallback in Hf.
    destruct (bool_decide (Method req = MethodOptions) && HandleOPTIONS r).
    { repeat (case_match; try done). }
    destruct (HandleMethodNotAllowed r); [|done].
    destruct (allowed r _ (Method req)) as [a| |]; [|done..].
    case_bool_decide; [|done]. by injection Hf as -> <-.
Qed.

End ServeHTTP.

(** A GET request for ["/doc"], with ["/doc/"] registered. *)
Definition plain_responders : @Responders nat := mkResponders None None None id.
Definition doc_request : Request := mkRequest GET (lit "/doc") [].

(** A POST request for ["/doc/"], with ["/doc"] registered. *)
Definition doc_slash_request : Request := mkRequest POST (lit "/doc/") [].
Definition doc_plain_router : @Router nat := (Handler New POST (lit "/doc") (Some 1)).1.

Lemma ServeHTTP_redirect_witness :
  (ServeHTTP doc_router plain_responders doc_request = Ret (Redirect 301 (lit "/doc/")) ∧
   ServeHTTP doc_plain_router plain_responders doc_slash_request =
     Ret (Redirect 308 (lit "/doc"))) ∧
  let r := doc_plain_router in
  let req := doc_slash_request in
  let pth := matched_path r plain_responders req in
  let strip := (1 <? length pth) && bool_decide (last pth = Some slash) in
  Method req ≠ MethodConnect ∧ pth ≠ [slash] ∧ RedirectTrailingSlash r = true ∧
  (∃ ps, lookup r (Method req) pth = Ret (None, ps)) ∧
  (∃ h ps, lookup r (Method req)
             (if strip then take (length pth - 1) pth else pth ++ [slash]) =
           Ret (Some h, ps)) ∧
  (strip = true → URLPath req ≠ []) ∧
  308 = (if bool_decide (Method req = MethodGet) then 301 else 308) ∧
  lit "/doc" = (if strip then take (length (URLPath req) - 1) (URLPath req)
                else URLPath req ++ [slash]).
Proof.
  assert (Ha : ServeHTTP doc_router plain_responders doc_request
               = Ret (Redirect 301 (lit "/doc/"))).
  { apply ServeHTTP_redirect. vm_compute.
    repeat split; try discriminate; by eexists _, _ || eexists. }
  assert (Hs : ServeHTTP doc_plain_router plain_responders doc_slash_request
               = Ret (Redirect 308 (lit "/doc"))) by (vm_compute; reflexivity).
  split; [by split|]. exact (proj1 (ServeHTTP_redirect _ _ _ _ _) Hs).
Defined.

(** ** tree.go: trees of static routes *)

Section Static.

Context {H : Type}.
Implicit Types (n l : @node H) (c : ascii) (p q pth rest : str) (h : H).

(** A tree of literal nodes only: no parameter and no catch-all child
    anywhere, and at every node the index string holds, without
    repetition, the first bytes of the segments of the children, child
    by child. *)
Inductive static_tree : @node H → Prop :=
  | static_tree_node n :
      wild n = None → catchAll n = None → nType n ≠ nodeType.param →
      NoDup (indices n) →
      Forall2 (fun c l => head (path l) = Some c ∧ static_tree l)
        (indices n) (literals n) →
      static_tree n.

(** The routes that a tree of literal nodes holds: the concatenated
    segments on the way to each node that carries a handler, with that
    handler. *)
Fixpoint routes (n : @node H) : list (str * H) :=
  match n with
  | mkNode p _ _ lits _ _ _ h _ =>
    from_option (fun h => [(p, h)]) [] h ++
    (prod_map (app p) id <$> (lits ≫= routes))
  end.

(** Registering routes one after the other, up to the first call that
    does not return. *)
Fixpoint addRoutes (n : @node H) (rs : list (str * H)) : @node H * res unit :=
  match rs with
  | [] => (n, Ret tt)
  | (p, h) :: rs' =>
    let '(n', r) := addRoute n p (Some h) in
    match r with
    | Ret _ => addRoutes n' rs'
    | _ => (n', r)
    end
  end.

Lemma routes_unfold n :
  routes n = from_option (fun h => [(path n, h)]) [] (handle n) ++
             (prod_map (app (path n)) id <$> (literals n ≫= routes)).
Proof. by destruct n. Qed.

Lemma elem_of_routes n p h :
  (p, h) ∈ routes n ↔
  (p = path n ∧ handle n = Some h) ∨
  ∃ l q, l ∈ literals n ∧ (q, h) ∈ routes l ∧ p = path n ++ q.
Proof.
  rewrite routes_unfold, elem_of_app, list_elem_of_fmap. split.
  - intros [Hh|([q h'] & [= -> ->] & (l & Hq & Hl)%list_elem_of_bind)].
    + left. destruct (handle n); cbn in Hh; [|by apply elem_of_nil in Hh].
      apply list_elem_of_singleton in Hh as [= -> ->]. done.
    + right. by exists l, q.
  - intros [[-> Hh]|(l & q & Hl & Hq & ->)].
    + left. rewrite Hh. cbn. by apply list_elem_of_singleton.
    + right. exists (q, h). split; [done|]. apply list_elem_of_bind. by exists l.
Qed.

Lemma routes_prefix n p h : (p, h) ∈ routes n → ∃ q, p = path n ++ q.
Proof.
  intros [[-> _]|(l & q & _ & _ & ->)]%elem_of_routes.
  - exists []. by rewrite app_nil_r.
  - by exists q.
Qed.

Lemma static_tree_inv n :
  static_tree n →
  wild n = None ∧ catchAll n = None ∧ nType n ≠ nodeType.param ∧
  NoDup (indices n) ∧
  Forall2 (fun c l => head (path l) = Some c ∧ static_tree l) (indices n) (literals n).
Proof. by inversion 1. Qed.

(** A child of a node of a static tree and its index byte. *)
Lemma static_child n l :
  static_tree n → l ∈ literals n →
  ∃ i c, literals n !! i = Some l ∧ indices n !! i = Some c ∧
         head (path l) = Some c ∧ static_tree l.
Proof.
  intros (_ & _ & _ & _ & Hf)%static_tree_inv [i Hi]%list_elem_of_lookup.
  destruct (Forall2_lookup_r _ _ _ _ _ Hf Hi) as (c & Hc & Hh & Hs).
  by exists i, c.
Qed.

Lemma static_child_route n l q h :
  static_tree n → l ∈ literals n → (q, h) ∈ routes l →
  ∃ i c, literals n !! i = Some l ∧ indices n !! i = Some c ∧ head q = Some c.
Proof.
  intros Hn Hl Hq. destruct (static_child n l Hn Hl) as (i & c & Hi & Hc & Hh & _).
  exists i, c. split_and!; [done..|].
  apply routes_prefix in Hq as [q' ->]. by destruct (path l).
Qed.

(** The routes of a static tree below a node whose segment is a prefix
    of the path. *)
Lemma static_routes_below n rest h :
  static_tree n →
  (path n ++ rest, h) ∈ routes n ↔
  (rest = [] ∧ handle n = Some h) ∨
  ∃ i c l, indices n !! i = Some c ∧ literals n !! i = Some l ∧
           head rest = Some c ∧ (rest, h) ∈ routes l.
Proof.
  intros Hn. rewrite elem_of_routes. split.
  - intros [[Hp Hh]|(l & q & Hl & Hq & Hp)].
    + left. split; [|done]. apply (f_equal length) in Hp. rewrite length_app in Hp.
      destruct rest; [done|cbn in Hp; lia].
    + apply app_inv_head in Hp as ->. right.
      destruct (static_child_route n l q h Hn Hl Hq) as (i & c & Hi & Hc & Hh).
      by exists i, c, l.
  - intros [[-> Hh]|(i & c & l & Hc & Hl & Hh & Hq)].
    + left. by rewrite app_nil_r.
    + right. exists l, rest. split_and!; [|done..]. by eapply list_elem_of_lookup_2.
Qed.

Lemma HasPrefix_spec (x pre : str) : HasPrefix x pre = true ↔ ∃ r, x = pre ++ r.
Proof.
  revert x. induction pre as [|a pre IH]; intros x; cbn.
  { destruct x; split; eauto. }
  destruct x as [|b x]; cbn.
  { split; [done|]. intros [r Hr]. done. }
  rewrite andb_true_iff, IH. split.
  - intros [->%Ascii.eqb_eq [r ->]]. by exists r.
  - intros [r [= -> ->]]. split; [apply Ascii.eqb_refl|by exists r].
Qed.

(** The scan of an index string without repetition tries the one child
    filed under the byte. *)
Lemma scan_literals_hit (srch : @node H → str → found) nextChar pth lits idx otherwise i l :
  NoDup idx → idx !! i = Some nextChar → lits !! i = Some l →
  scan_literals srch nextChar pth lits idx otherwise =
  match srch l pth with
  | NotFound => otherwise
  | r => r
  end.
Proof.
  revert lits i. induction idx as [|c idx IH]; intros lits i Hnd Hi Hl; [done|].
  apply NoDup_cons in Hnd as [Hc Hnd].
  destruct lits as [|l' lits]; [by rewrite lookup_nil in Hl|]. cbn [scan_literals].
  destruct i as [|i]; cbn in Hi, Hl.
  - simplify_eq. rewrite Ascii.eqb_refl.
    destruct (srch l pth); [|done..].
    apply scan_literals_miss. intros j Hj. destruct Hc. by eapply list_elem_of_lookup_2.
  - destruct (Ascii.eqb_spec c nextChar) as [->|_].
    { destruct Hc. by eapply list_elem_of_lookup_2. }
    by eapply IH.
Qed.

Lemma search_fallback_static n pth :
  wild n = None → catchAll n = None → search_fallback n pth = NotFound.
Proof.
  intros Hw Hc. unfold search_fallback. rewrite Hw, Hc.
  destruct pth as [|a pth]; [done|]. by destruct (negb _).
Qed.

(** What [search] returns in a static tree. *)
Lemma search_static k : ∀ n p,
  height n ≤ k → static_tree n → p ≠ [] →
  match search n p with
  | Found m vals => vals = [] ∧ ∀ h, handle m = Some h ↔ (p, h) ∈ routes n
  | NotFound => ∀ h, (p, h) ∉ routes n
  | SearchPanics => False
  end.
Proof.
  induction k as [|k IH]; intros n p Hk Hn Hp.
  { rewrite height_unfold in Hk. lia. }
  pose proof (static_tree_inv n Hn) as (Hw & Hc & _ & Hnd & Hf).
  rewrite search_unfold. destruct p as [|a p]; [done|].
  destruct (HasPrefix (a :: p) (path n)) eqn:E.
  2:{ rewrite search_fallback_static by done. intros h [q Hq]%routes_prefix.
      assert (HasPrefix (a :: p) (path n) = true) by (apply HasPrefix_spec; eauto).
      congruence. }
  apply HasPrefix_spec in E as [rest E]. rewrite E, drop_app_length.
  destruct rest as [|nextChar rest'] eqn:Hrest.
  { split; [done|]. intros h. rewrite static_routes_below by done. split.
    - intros Hh. by left.
    - intros [[_ Hh]|(i & c & l & _ & _ & Hh & _)]; done. }
  rewrite <- Hrest. cbv zeta. rewrite search_fallback_static by done.
  destruct (decide (nextChar ∈ indices n)) as [[i Hi]%list_elem_of_lookup|Hni].
  - destruct (Forall2_lookup_l _ _ _ _ _ Hf Hi) as (l & Hl & Hh & Hs).
    rewrite (scan_literals_hit _ _ _ _ _ _ i l Hnd Hi Hl).
    assert (Hhl : height l ≤ k).
    { apply list_elem_of_lookup_2 in Hl. apply height_literal in Hl. lia. }
    assert (Hin : ∀ h, (path n ++ rest, h) ∈ routes n ↔ (rest, h) ∈ routes l).
    { intros h. rewrite static_routes_below by done. split.
      - intros [[? _]|(j & c & l' & Hc' & Hl' & Hh' & Hq)]; [by subst|].
        rewrite Hrest in Hh'. cbn in Hh'. simplify_eq.
        pose proof (NoDup_lookup _ _ _ _ Hnd Hi Hc'). by simplify_eq.
      - intros Hq. right. exists i, nextChar, l. by rewrite Hrest in *. }
    specialize (IH l rest Hhl Hs ltac:(by rewrite Hrest)).
    destruct (search l rest) as [|m vals|]; [|by setoid_rewrite Hin|done].
    intros h. by rewrite Hin.
  - rewrite scan_literals_miss.
    2:{ intros i Hi. destruct Hni. by eapply list_elem_of_lookup_2. }
    intros h. rewrite static_routes_below by done.
    intros [[? _]|(j & c & l' & Hc' & _ & Hh' & _)]; [by subst|].
    rewrite Hrest in Hh'. cbn in Hh'. simplify_eq.
    destruct Hni. by eapply list_elem_of_lookup_2.
Qed.

(** *** Registering a static route *)

Lemma in_routes n p : p ∈ (routes n).*1 ↔ ∃ h, (p, h) ∈ routes n.
Proof.
  rewrite list_elem_of_fmap. split.
  - intros ([q h] & -> & Hin). by exists h.
  - intros [h Hin]. by exists (p, h).
Qed.

Lemma static_tree_incr n : static_tree n → static_tree (incr_priority n).
Proof. intros (? & ? & ? & ? & ?)%static_tree_inv. by constructor. Qed.

Lemma routes_incr n : routes (incr_priority n) = routes n.
Proof. by destruct n. Qed.

Lemma insertChild_plain fuel n fullpath pth (oh : option H) names :
  Forall plain pth →
  insertChild fuel n fullpath pth oh names = (set_handle (set_path n pth) oh names, Ret tt).
Proof.
  intros Hp. pose proof (findNextWildcard_first pth) as Hw.
  destruct fuel; cbn [insertChild]; destruct (findNextWildcard pth) as [[c i]|]; try done.
  all: destruct Hw as (Hi & Hc & _); eapply Forall_lookup_1 in Hp; [|done];
    unfold plain in Hp; congruence.
Qed.

Lemma lcp_heads (a b : str) c :
  head a = Some c → head b = Some c → 0 < longestCommonPrefix a b.
Proof.
  intros Ha Hb. pose proof (lcp_props a b) as (_ & _ & _ & Hdiff).
  destruct (longestCommonPrefix a b); [|lia].
  destruct a, b; simplify_eq/=. by destruct (Hdiff c c).
Qed.

(** The routes of a node, with those of one child put first. *)
Lemma routes_child n (u v : list (@node H)) x :
  literals n = u ++ x :: v →
  routes n ≡ₚ from_option (fun h => [(path n, h)]) [] (handle n) ++
              (prod_map (app (path n)) id <$> (routes x ++ ((u ++ v) ≫= routes))).
Proof.
  intros Hl. rewrite routes_unfold, Hl. apply Permutation_app_head, fmap_Permutation.
  rewrite !bind_app, bind_cons. by rewrite Permutation_app_swap_app.
Qed.

(** A node whose children are those of a static node, one of them
    replaced or added, and moved with its index byte. *)
Lemma static_tree_build n (ia ib i2 : str) ic (a b l2 : list (@node H)) x :
  wild n = None → catchAll n = None → nType n ≠ nodeType.param →
  indices n = ia ++ ic :: ib ++ i2 → literals n = a ++ x :: b ++ l2 →
  length ia = length a → length ib = length b →
  NoDup ((ia ++ ib) ++ ic :: i2) →
  Forall2 (fun c l => head (path l) = Some c ∧ static_tree l) (ia ++ ib) (a ++ b) →
  Forall2 (fun c l => head (path l) = Some c ∧ static_tree l) i2 l2 →
  head (path x) = Some ic → static_tree x →
  static_tree n.
Proof.
  intros Hw Hc Ht Hi Hl Hla Hlb Hnd Hab H2 Hx Hsx. constructor; try done.
  - rewrite Hi. revert Hnd. rewrite <- app_assoc.
    rewrite !NoDup_app, !NoDup_cons, !NoDup_app. set_solver.
  - rewrite Hi, Hl. apply Forall2_app_inv in Hab as [Ha Hb]; [|done].
    apply Forall2_app; [done|]. constructor; [done|]. by apply Forall2_app.
Qed.

(** Non-increasing order of priority. *)
Definition by_priority (x y : @node H) : Prop := (priority y <= priority x)%Z.

(** Priorities count routes: below the node, every child has the number
    of routes it holds as its priority, and the children of a node come
    in non-increasing order of priority. *)
Inductive counted : @node H → Prop :=
  | counted_node n :
      Forall (fun l => priority l = Z.of_nat (length (routes l)) ∧ (0 < priority l)%Z ∧
                       counted l) (literals n) →
      StronglySorted by_priority (literals n) →
      counted n.

(** A node that holds routes already and whose priority has been
    incremented for one more, without overflow. *)
Definition counting n : Prop :=
  priority n = (Z.of_nat (length (routes n)) + 1)%Z ∧ 0 < length (routes n) ∧
  (Z.of_nat (length (routes n)) + 1 < uint32_mod)%Z ∧ counted n.

Lemma counted_inv n :
  counted n →
  Forall (fun l => priority l = Z.of_nat (length (routes l)) ∧ (0 < priority l)%Z ∧
                   counted l) (literals n) ∧
  StronglySorted by_priority (literals n).
Proof. by inversion 1. Qed.

Lemma counted_fields n n' : literals n' = literals n → counted n → counted n'.
Proof. intros Hl [? ?]%counted_inv. constructor; by rewrite Hl. Qed.

Lemma uint32_incr_small (p : Z) :
  (0 <= p)%Z → (p + 1 < uint32_mod)%Z → uint32_incr p = (p + 1)%Z.
Proof. intros. unfold uint32_incr. apply Z.mod_small. lia. Qed.

Lemma uint32_decr_small (p : Z) :
  (1 <= p)%Z → (p < uint32_mod)%Z → uint32_decr p = (p - 1)%Z.
Proof. intros. unfold uint32_decr. apply Z.mod_small. lia. Qed.

Lemma sorted_last (a : list (@node H)) y :
  StronglySorted by_priority a → y ∈ a →
  ∃ z, last a = Some z ∧ (priority z <= priority y)%Z.
Proof.
  revert y. induction a as [|x a IH]; intros y Hs Hy; [by apply elem_of_nil in Hy|].
  apply StronglySorted_cons in Hs as [Hx Hs].
  destruct a as [|x' a].
  { apply list_elem_of_singleton in Hy as ->. exists x. split; [done|lia]. }
  apply elem_of_cons in Hy as [->|Hy].
  - destruct (IH x' Hs ltac:(left)) as (z & Hz & Hle). exists z. split; [done|].
    apply Forall_cons in Hx as [Hx _]. unfold by_priority in Hx. lia.
  - destruct (IH y Hs Hy) as (z & Hz & Hle). by exists z.
Qed.

(** Where the move-to-front loop leaves a child, the order by priority
    is kept. *)
Lemma sorted_inserted (a b l2 : list (@node H)) x :
  StronglySorted by_priority ((a ++ b) ++ l2) →
  Forall (fun y => (priority y <= priority x)%Z) l2 →
  Forall (fun y => (priority y < priority x)%Z) b →
  (∀ y, last a = Some y → (priority x <= priority y)%Z) →
  StronglySorted by_priority (a ++ x :: b ++ l2).
Proof.
  intros Hs Hl2 Hb Ha. rewrite <- app_assoc in Hs.
  apply StronglySorted_app in Hs as (Hab & Hsa & Hs).
  apply StronglySorted_app_2; [|done|].
  - intros y z Hy [->|Hz]%elem_of_cons; [|by apply Hab].
    destruct (sorted_last a y Hsa Hy) as (w & Hw & Hle). specialize (Ha w Hw).
    unfold by_priority. lia.
  - apply StronglySorted_cons. split; [|done]. apply Forall_app. split.
    + eapply Forall_impl; [exact Hb|]. intros y Hy. unfold by_priority. cbn in *. lia.
    + done.
Qed.

(** What registering the static path [pth] with handler [h] below a
    node of a static tree comes to: a panic if the path is there
    already, and otherwise a static tree with one more route, whose
    segment starts as before, and in which priorities count routes if
    they did. *)
Definition registers n pth h fullpath (out : @node H * res unit) : Prop :=
  (pth ∈ (routes n).*1 → out.2 = Panics (HandleAlreadyRegistered fullpath)) ∧
  (pth ∉ (routes n).*1 →
   out.2 = Ret tt ∧ static_tree out.1 ∧ routes out.1 ≡ₚ (pth, h) :: routes n ∧
   (∀ c, head (path n) = Some c → head pth = Some c → head (path out.1) = Some c) ∧
   (counting n → priority out.1 = priority n ∧ counted out.1)).

Lemma split_counting n i pth :
  counting n → priority (split n i pth) = priority n ∧ counted (split n i pth).
Proof.
  intros (Hp & Hpos & Hbound & Hc). split; [done|].
  unfold split. constructor; cbn [literals]; [|repeat constructor].
  constructor; [|constructor].
  match goal with |- context [routes ?c] => set (child := c) end.
  assert (Hlen : length (routes child) = length (routes n)).
  { rewrite (routes_unfold n), (routes_unfold child). subst child. cbn [handle literals path].
    rewrite !length_app, !length_fmap. by destruct (handle n). }
  assert (Hpc : priority child = (priority n - 1)%Z).
  { subst child. cbn [priority]. apply uint32_decr_small; lia. }
  rewrite Hlen, Hpc. split_and!; [lia..|].
  by eapply counted_fields; [|exact Hc].
Qed.

Lemma split_static n i pth x :
  static_tree n → path n !! i = Some x → take i pth = take i (path n) →
  static_tree (split n i pth) ∧ routes (split n i pth) = routes n.
Proof.
  intros (Hw & Hc & Ht & Hnd & Hf)%static_tree_inv Hx Htake. split.
  - constructor; cbn; try done.
    + rewrite Hx. apply NoDup_singleton.
    + rewrite Hx. repeat constructor; cbn; try done.
      by rewrite head_lookup, lookup_drop, Nat.add_0_r.
  - rewrite (routes_unfold n). unfold split. cbn. rewrite app_nil_r, Htake.
    rewrite fmap_app, <- list_fmap_compose.
    f_equal.
    + destruct (handle n); [|done]. cbn. by rewrite take_drop.
    + apply list_fmap_ext. intros j [q h] _. cbn. by rewrite app_assoc, take_drop.
Qed.

Lemma walk_static fuel h fullpath names : ∀ n pth,
  height n ≤ fuel → static_tree n → Forall plain pth → pth ≠ [] →
  registers n pth h fullpath (walk fuel n fullpath pth (Some h) names).
Proof.
  induction fuel as [|fuel IH]; intros n pth Hfuel Hn Hplain Hne.
  { rewrite height_unfold in Hfuel. lia. }
  cbn [walk]. cbv zeta.
  pose proof (lcp_props (path n) pth) as (Hi1 & Hi2 & Htake & Hdiff).
  pose proof (lcp_heads (path n) pth) as Hheads.
  set (i := longestCommonPrefix (path n) pth) in *.
  set (n1 := if i <? length (path n) then split n i pth else n).
  set (rest := if i <? length pth then drop i pth
               else if i =? length pth then [] else pth).
  assert (Hrest : rest = drop i pth).
  { subst rest. destruct (Nat.ltb_spec i (length pth)); [done|].
    destruct (Nat.eqb_spec i (length pth)); [|lia]. by rewrite drop_ge by lia. }
  assert (Hn1 : static_tree n1 ∧ routes n1 = routes n ∧ path n1 = take i pth ∧
                ∀ l c, l ∈ literals n1 → head (path l) = Some c → head rest = Some c →
                       l ∈ literals n).
  { subst n1. destruct (Nat.ltb_spec i (length (path n))) as [Hlt|Hge].
    - destruct (lookup_lt_is_Some_2 (path n) i Hlt) as [x Hx].
      destruct (split_static n i pth x Hn Hx (eq_sym Htake)) as [Hs Hr].
      split_and!; [done..|].
      intros l c [->|[]%elem_of_nil]%elem_of_cons Hl Hc. exfalso. cbn in Hl.
      rewrite head_lookup, lookup_drop, Nat.add_0_r, Hx in Hl.
      rewrite Hrest, head_lookup, lookup_drop, Nat.add_0_r in Hc.
      simplify_eq. by eapply Hdiff.
    - split_and!; [done..| |done]. rewrite <- Htake. by rewrite take_ge by lia. }
  destruct Hn1 as (Hs1 & Hr1 & Hp1 & Hch).
  assert (Hcnt : counting n → counting n1 ∧ priority n1 = priority n).
  { intros Hcn. assert (Hpc : priority n1 = priority n ∧ counted n1).
    { subst n1. destruct (i <? length (path n)); [by apply split_counting|].
      by destruct Hcn as (_ & _ & _ & ?). }
    destruct Hcn as (Hp & Hpos & Hbound & _). destruct Hpc as [Hpn Hcn1].
    unfold counting. by rewrite Hr1, Hpn. }
  assert (Hpth : pth = path n1 ++ rest) by by rewrite Hp1, Hrest, take_drop.
  assert (Hhead : ∀ c, head (path n) = Some c → head pth = Some c →
                       head (path n1) = Some c).
  { intros c Ha Hb. specialize (Hheads c Ha Hb). rewrite Hp1.
    destruct i; [lia|]. by destruct pth. }
  clearbody n1 rest. clear Hrest Hp1 Hheads Hdiff Htake Hi1 Hi2. clearbody i.
  pose proof (static_tree_inv n1 Hs1) as (Hw & Hc & Ht & Hnd & Hf).
  unfold registers. rewrite <- Hr1, Hpth.
  destruct rest as [|nextChar rest'].
  { (* the node exists *)
    destruct (handle n1) as [h0|] eqn:Hh; cbn [fst snd].
    - split; [done|]. intros []. apply in_routes. exists h0.
      apply static_routes_below; auto.
    - split.
      { intros [h' Hin]%in_routes.
        apply static_routes_below in Hin as [[_ ?]|(? & ? & ? & _ & _ & ? & _)];
          [congruence|done|done]. }
      intros _. split_and!; [done| | | |].
      + by constructor.
      + rewrite (routes_unfold n1), Hh, app_nil_r. by destruct n1.
      + intros c Ha Hb. apply Hhead; [done|]. by rewrite Hpth.
      + intros [(_ & _ & _ & Hcn1) <-]%Hcnt. split; [done|].
        by eapply counted_fields; [|exact Hcn1]. }
  cbv beta iota. remember (nextChar :: rest') as rest eqn:Hrest.
  assert (Hnw : is_wildcard nextChar = false).
  { rewrite Hpth in Hplain. apply Forall_app in Hplain as [_ Hplain].
    rewrite Hrest in Hplain. by apply Forall_cons in Hplain as [? _]. }
  assert (Hprest : Forall plain rest).
  { rewrite Hpth in Hplain. by apply Forall_app in Hplain as [_ Hplain]. }
  replace (if Ascii.eqb nextChar colon && _ then wild n1 else None) with (@None (@node H))
    by (rewrite Hw; by destruct (_ && _)).
  replace (if nodeType.eqb (nType n1) nodeType.param then literals n1 else [])
    with (@nil (@node H)) by by destruct (nType n1).
  (* the routes below [n1] that go on with [nextChar] *)
  assert (Hbelow : ∀ h', (path n1 ++ rest, h') ∈ routes n1 ↔
            ∃ j l, indices n1 !! j = Some nextChar ∧ literals n1 !! j = Some l ∧
                   (rest, h') ∈ routes l).
  { intros h'. rewrite static_routes_below by done. split.
    - intros [[? _]|(j & c & l & Hj & Hl & Hc' & Hin)]; [by subst|].
      rewrite Hrest in Hc'. cbn in Hc'. injection Hc' as <-. eauto.
    - intros (j & l & Hj & Hl & Hin). right. exists j, nextChar, l.
      split_and!; [done..|by rewrite Hrest|done]. }
  destruct (index_of nextChar (indices n1)) as [j|] eqn:Hj.
  - (* a child with the next byte exists *)
    apply index_of_Some in Hj.
    destruct (Forall2_lookup_l _ _ _ _ _ Hf Hj) as (l & Hl & Hhl & Hsl).
    pose proof (Forall2_length _ _ _ Hf) as Hlen.
    pose proof (take_drop_middle _ _ _ Hl) as Hlits.
    pose proof (take_drop_middle _ _ _ Hj) as Hidx.
    pose proof (lookup_lt_Some _ _ _ Hl) as Hjl.
    destruct (move_front_spec (uint32_incr (priority l)) (take j (literals n1))
                (incr_priority l) (drop (S j) (literals n1)))
      as (a & b & Hab & Hmove & Hmb & Hma).
    set (l2 := drop (S j) (literals n1)) in *.
    set (i1 := take j (indices n1)) in *. set (i2 := drop (S j) (indices n1)) in *.
    assert (Hj' : j = length (a ++ b)) by (rewrite <- Hab, length_take; lia).
    rewrite Hab in Hlits, Hmove.
    assert (Hi1 : length i1 = length (a ++ b)).
    { subst i1. rewrite length_take. lia. }
    pose proof (incrementLiteralPrio_moved n1 a b l2 l i1 i2 nextChar
                  (eq_sym Hlits) (eq_sym Hidx) Hi1 Hmove) as Hinc.
    rewrite <- Hj' in Hinc. rewrite Hinc. clear Hinc.
    cbn [literals set_indices set_literals].
    rewrite list_lookup_middle by done.
    assert (Hlin : l ∈ literals n).
    { apply (Hch l nextChar); [by eapply list_elem_of_lookup_2|done|by rewrite Hrest]. }
    specialize (IH (incr_priority l) rest).
    destruct (walk fuel (incr_priority l) fullpath rest (Some h) names) as [c' r] eqn:Hwalk.
    destruct IH as [IHin IHout].
    { rewrite height_incr_priority. apply height_literal in Hlin. lia. }
    { by apply static_tree_incr. }
    { done. }
    { by rewrite Hrest. }
    rewrite routes_incr in IHin, IHout. cbn [fst snd] in *.
    assert (Hiff : path n1 ++ rest ∈ (routes n1).*1 ↔ rest ∈ (routes l).*1).
    { rewrite !in_routes. split.
      - intros (h' & (j' & l' & Hj2 & Hl2 & Hin)%Hbelow).
        pose proof (NoDup_lookup _ _ _ _ Hnd Hj Hj2). simplify_eq. eauto.
      - intros (h' & Hin). exists h'. apply Hbelow. eauto. }
    rewrite Hiff. split; [done|]. intros Hnot.
    destruct (IHout Hnot) as (-> & Hsc & Hrc & Hhc & Hcc). split_and!; [done| | | |].
    + rewrite insert_app_r_alt, Nat.sub_diag by done. cbn [insert list_insert].
      assert (Hsplit : Forall2 (fun c l => head (path l) = Some c ∧ static_tree l)
                (i1 ++ nextChar :: i2) ((a ++ b) ++ l :: l2)) by by rewrite Hidx, Hlits.
      apply Forall2_app_inv in Hsplit as [Hf1 Hf2]; [|done].
      apply Forall2_cons in Hf2 as [_ Hf2].
      rewrite length_app in Hi1.
      eapply (static_tree_build _ (take (length a) i1) (drop (length a) i1) i2 nextChar
                a b l2 c'); cbn; try done.
      * rewrite length_take. lia.
      * rewrite length_drop. lia.
      * by rewrite take_drop, Hidx.
      * by rewrite take_drop.
      * apply Hhc; [by destruct l|by rewrite Hrest].
    + rewrite insert_app_r_alt, Nat.sub_diag by done. cbn [insert list_insert].
      rewrite (routes_child _ a (b ++ l2) c') by done.
      rewrite (routes_child n1 (a ++ b) l2 l) by done.
      cbn [path handle set_literals set_indices].
      rewrite Hrc. rewrite <- !app_assoc. cbn [app fmap list_fmap prod_map fst snd id].
      by rewrite <- Permutation_middle.
    + intros c Ha Hb. apply Hhead; [done|]. by rewrite Hpth.
    + intros [(Hp1 & Hpos1 & Hbound1 & Hcn1) <-]%Hcnt.
      rewrite insert_app_r_alt, Nat.sub_diag by done. cbn [insert list_insert].
      split; [done|].
      apply counted_inv in Hcn1 as [Hall Hsorted]. rewrite <- Hlits in Hall, Hsorted.
      apply Forall_app in Hall as [Hall1 [(Hpl & Hposl & Hcl) Hall2]%Forall_cons].
      apply Forall_app in Hall1 as [Halla Hallb].
      assert (Hle : length (routes l) ≤ length (routes n1)).
      { rewrite (routes_child n1 (a ++ b) l2 l) by done.
        rewrite !length_app, length_fmap, length_app. lia. }
      assert (Hincr : uint32_incr (priority l) = (priority l + 1)%Z).
      { apply uint32_incr_small; lia. }
      destruct Hcc as [Hpc Hcc'].
      { unfold counting. rewrite routes_incr. cbn [priority incr_priority set_priority].
        split_and!; [lia..|]. by eapply counted_fields; [|exact Hcl]. }
      cbn [priority incr_priority set_priority] in Hpc. rewrite Hincr in Hpc, Hmb, Hma.
      constructor; cbn [literals set_literals set_indices].
      * apply Forall_app. split; [done|]. constructor; [|by apply Forall_app].
        split_and!; [|lia|done]. rewrite Hrc. cbn [length]. lia.
      * apply StronglySorted_app in Hsorted as (Hcross & Hsab & [Hl2 Hsl2]%StronglySorted_cons).
        apply sorted_inserted.
        -- apply StronglySorted_app_2; [|done..].
           intros y z Hy Hz. apply Hcross; [done|by right].
        -- eapply Forall_impl; [exact Hl2|]. intros y Hy. unfold by_priority in Hy. lia.
        -- eapply Forall_impl; [exact Hmb|]. intros y Hy. cbn in Hy. lia.
        -- intros y Hy. specialize (Hma y Hy). lia.
  - (* a new child *)
    assert (Hni : nextChar ∉ indices n1).
    { intros [j Hj']%list_elem_of_lookup. clear -Hj Hj'.
      revert j Hj'. induction (indices n1) as [|x idx IHx]; intros j Hj'; [done|].
      cbn in Hj. destruct (Ascii.eqb_spec x nextChar) as [->|Hx]; [done|].
      destruct j as [|j]; cbn in Hj'; [congruence|].
      destruct (index_of nextChar idx); [done|]. by eapply IHx. }
    assert (Hnone : path n1 ++ rest ∉ (routes n1).*1).
    { intros (h' & (j' & l' & Hj2 & _)%Hbelow)%in_routes.
      destruct Hni. by eapply list_elem_of_lookup_2. }
    split; [done|]. intros _.
    rewrite Hnw. cbn [negb literals indices set_indices set_literals].
    pose proof (Forall2_length _ _ _ Hf) as Hlen.
    destruct (move_front_spec (uint32_incr (priority (@new_node H))) (literals n1)
                (incr_priority new_node) []) as (a & b & Hab & Hmove & Hmb & Hma).
    rewrite Hab in Hmove.
    assert (Hi1 : length (indices n1) = length (a ++ b)) by by rewrite <- Hab.
    match goal with |- context [incrementLiteralPrio ?x ?y] =>
      pose proof (incrementLiteralPrio_moved x a b [] new_node (indices n1) [] nextChar) as Hinc;
      replace y with (length (a ++ b)) by (rewrite <- Hi1, length_app; cbn; lia)
    end.
    rewrite Hinc; [|by cbn; rewrite Hab|done|done|done]. clear Hinc.
    rewrite bool_decide_eq_true_2 by (rewrite ?Hab, !length_app; cbn; lia).
    cbn [literals set_indices set_literals].
    rewrite list_lookup_middle by done.
    rewrite insertChild_plain by done.
    rewrite insert_app_r_alt, Nat.sub_diag by done. cbn [insert list_insert fst snd].
    rewrite length_app in Hi1.
    split_and!; [done| | | |].
    + eapply (static_tree_build _ (take (length a) (indices n1))
                (drop (length a) (indices n1)) [] nextChar a b []); cbn; try done.
      * rewrite length_take. lia.
      * rewrite length_drop. lia.
      * rewrite take_drop. apply NoDup_app. split_and!; [done| |apply NoDup_singleton].
        intros x Hx ->%list_elem_of_singleton. done.
      * by rewrite take_drop, <- Hab.
      * by rewrite Hrest.
      * constructor; cbn; try done. apply NoDup_nil_2.
    + rewrite (routes_child _ a (b ++ []) _) by done.
      rewrite (routes_unfold n1), Hab.
      cbn [path handle set_literals set_indices set_handle set_path routes].
      rewrite !app_nil_r.
      cbn [app fmap list_fmap prod_map fst snd id from_option mbind list_bind].
      by rewrite <- Permutation_middle.
    + intros c Ha Hb. apply Hhead; [done|]. by rewrite Hpth.
    + intros [(Hp1 & Hpos1 & Hbound1 & Hcn1) <-]%Hcnt. split; [done|].
      apply counted_inv in Hcn1 as [Hall Hsorted]. rewrite Hab in Hall, Hsorted.
      apply Forall_app in Hall as [Halla Hallb].
      constructor; cbn [literals set_literals set_indices].
      * apply Forall_app. split; [done|]. constructor; [|by rewrite app_nil_r].
        split_and!; [done|done|]. constructor; cbn; constructor.
      * apply sorted_inserted; [by rewrite app_nil_r|constructor| |].
        -- eapply Forall_impl; [exact Hmb|]. intros y Hy. cbn in Hy. exact Hy.
        -- intros y Hy. exact (Hma y Hy).
Qed.

(** The root of a tree of static routes: no route is the empty path. *)
Definition static_root n : Prop :=
  static_tree n ∧ ∀ p h, (p, h) ∈ routes n → p ≠ [].

(** Priorities count routes from the root on, and a tree without routes
    is the empty tree. *)
Definition counted_root n : Prop :=
  priority n = Z.of_nat (length (routes n)) ∧ counted n ∧
  (routes n = [] → path n = [] ∧ indices n = []).

Lemma addRoute_static n pth h :
  static_root n → Forall plain pth → pth ≠ [] →
  (pth ∈ (routes n).*1 →
   (addRoute n pth (Some h)).2 = Panics (HandleAlreadyRegistered pth)) ∧
  (pth ∉ (routes n).*1 →
   (addRoute n pth (Some h)).2 = Ret tt ∧ static_root (addRoute n pth (Some h)).1 ∧
   routes (addRoute n pth (Some h)).1 ≡ₚ (pth, h) :: routes n ∧
   (counted_root n → (Z.of_nat (length (routes n)) + 1 < uint32_mod)%Z →
    counted_root (addRoute n pth (Some h)).1)).
Proof.
  intros [Hs Hne] Hp Hpne. unfold addRoute.
  assert (Hnorm : normalizePath pth = Ret (pth, [])).
  { unfold normalizePath.
    pose proof (normalize_loop_plain (length pth) pth [] pth [] [] [] Hp ltac:(lia)) as Hl.
    rewrite app_nil_r in Hl. cbn [app length] in Hl. rewrite Hl.
    rewrite Nat.sub_diag. cbn [normalize_loop Nat.add].
    by rewrite lookup_ge_None_2 by lia. }
  rewrite Hnorm.
  assert (Hroot : ∀ n', routes n' ≡ₚ (pth, h) :: routes n → ∀ p h', (p, h') ∈ routes n' → p ≠ []).
  { intros n' Hperm p h'. rewrite Hperm. intros [[= -> ->]|Hin]%elem_of_cons; eauto. }
  destruct ((length (path (incr_priority n)) =? 0) && (length (indices (incr_priority n)) =? 0))
    eqn:E.
  - (* the empty tree *)
    apply andb_true_iff in E as [E1%Nat.eqb_eq E2%Nat.eqb_eq].
    pose proof (static_tree_inv n Hs) as (Hw & Hc & Ht & Hnd & Hf).
    assert (Hpath : path n = []) by (apply nil_length_inv; exact E1).
    assert (Hidx : indices n = []) by (apply nil_length_inv; exact E2).
    rewrite Hidx in Hf. apply Forall2_nil_inv_l in Hf.
    assert (Hh : handle n = None).
    { destruct (handle n) as [h0|] eqn:Hh; [|done]. destruct (Hne [] h0); [|done].
      apply elem_of_routes. left. by rewrite Hpath. }
    assert (Hr : routes n = []) by by rewrite routes_unfold, Hh, Hf.
    rewrite insertChild_plain by done. cbn [fst snd]. rewrite Hr. split.
    { by intros ?%elem_of_nil. }
    intros _.
    assert (Hr' : routes (set_handle (set_path (set_nType (incr_priority n) nodeType.root) pth)
                            (Some h) []) = [(pth, h)]).
    { rewrite routes_unfold. cbn. by rewrite Hf. }
    split_and!; [done| |by rewrite Hr'|].
    { split; [|apply Hroot; by rewrite Hr', Hr].
      constructor; cbn; try done. by rewrite Hidx, Hf. }
    intros (Hprio & Hcn & _) _. unfold counted_root. rewrite Hr'.
    split_and!; [|by eapply counted_fields; [|exact Hcn]|done].
    cbn. rewrite Hprio, Hr. done.
  - pose proof (walk_static (2 * height (incr_priority n) + 2) h pth [] (incr_priority n) pth
                  ltac:(lia) (static_tree_incr n Hs) Hp Hpne) as [Hin Hout].
    rewrite routes_incr in Hin, Hout. split; [done|]. intros Hnot.
    destruct (Hout Hnot) as (Hr & Hst & Hperm & _ & Hcount). split_and!; [done| |done|].
    { split; [done|by apply Hroot]. }
    intros (Hprio & Hcn & Hempty) Hbound.
    assert (Hpos : 0 < length (routes n)).
    { destruct (routes n) eqn:Hrn; [|cbn; lia]. destruct (Hempty eq_refl) as [Hp' Hi'].
      destruct n; cbn in *. by rewrite Hp', Hi' in E. }
    destruct Hcount as [Hpout Hcout].
    { unfold counting. rewrite routes_incr. cbn [priority incr_priority set_priority].
      rewrite Hprio, uint32_incr_small by lia.
      split_and!; [done..|]. by eapply counted_fields; [|exact Hcn]. }
    pose proof (Permutation_length Hperm) as Hlen. cbn [length] in Hlen.
    unfold counted_root. split_and!; [|done|].
    + rewrite Hpout, Hlen. cbn [priority incr_priority set_priority].
      rewrite Hprio, uint32_incr_small by lia. lia.
    + intros Hnil. rewrite Hnil in Hlen. done.
Qed.

Lemma static_root_new : static_root (@new_node H).
Proof.
  split.
  - constructor; cbn; try done; constructor.
  - by intros p h ?%elem_of_nil.
Qed.

Lemma counted_root_new : counted_root (@new_node H).
Proof. split_and!; [done| |done]. constructor; cbn; constructor. Qed.

Definition static_path (p : str) : Prop := Forall plain p ∧ p ≠ [].

Lemma addRoutes_static rs : ∀ n,
  static_root n → Forall (fun r => static_path r.1) rs →
  (NoDup (rs.*1 ++ (routes n).*1) → (addRoutes n rs).2 = Ret tt) ∧
  ((addRoutes n rs).2 = Ret tt →
   static_root (addRoutes n rs).1 ∧ routes (addRoutes n rs).1 ≡ₚ rs ++ routes n ∧
   (counted_root n → (Z.of_nat (length rs + length (routes n)) < uint32_mod)%Z →
    counted_root (addRoutes n rs).1)).
Proof.
  induction rs as [|[p h] rs IH]; intros n Hn Hrs; [done|].
  apply Forall_cons in Hrs as [[Hp Hpne] Hrs]. cbn [addRoutes].
  destruct (addRoute_static n p h Hn Hp Hpne) as [Hin Hout].
  destruct (addRoute n p (Some h)) as [n' r]. cbn [fst snd] in *.
  destruct (decide (p ∈ (routes n).*1)) as [Hp'|Hp'].
  { rewrite (Hin Hp'). cbn. split; [|done]. intros [Hnot _]%NoDup_cons.
    destruct Hnot. apply elem_of_app. by right. }
  destruct (Hout Hp') as (-> & Hn' & Hperm & Hcount).
  destruct (IH n' Hn' Hrs) as [IH1 IH2].
  split.
  - intros Hnd. apply IH1. rewrite Hperm. cbn.
    by rewrite <- Permutation_middle.
  - intros Hr. destruct (IH2 Hr) as (Hroot & Hperm' & Hcount'). split_and!; [done| |].
    + rewrite Hperm', Hperm. cbn. by rewrite <- Permutation_middle.
    + intros Hcn Hbound. cbn [length] in Hbound.
      pose proof (Permutation_length Hperm) as Hlen. cbn [length] in Hlen.
      apply Hcount'; [apply Hcount; [done|lia]|lia].
Qed.

(** X20. Routes without [':'] and ['*'], each a non-empty path and no
    two the same, can all be registered, one after the other, in an
    empty tree; in the tree that results [search] never fails, captures
    nothing, and for a non-empty path finds a node with a handler
    exactly when the path is one of the routes, and then with the
    handler the route was registered with. *)
Theorem static_routes_found (rs : list (str * H)) :
  Forall (fun r => static_path r.1) rs → NoDup rs.*1 →
  ∃ t, addRoutes new_node rs = (t, Ret tt) ∧
       ∀ p, p ≠ [] →
            match search t p with
            | Found m vals => vals = [] ∧ ∀ h, handle m = Some h ↔ (p, h) ∈ rs
            | NotFound => ∀ h, (p, h) ∉ rs
            | SearchPanics => False
            end.
Proof.
  intros Hrs Hnd.
  destruct (addRoutes_static rs new_node static_root_new Hrs) as [H1 H2].
  specialize (H1 ltac:(by rewrite app_nil_r)). destruct (H2 H1) as ([Hst _] & Hperm & _).
  destruct (addRoutes new_node rs) as [t r]. cbn [fst snd] in *. subst r.
  exists t. split; [done|]. intros p Hp. rewrite app_nil_r in Hperm.
  pose proof (search_static (height t) t p ltac:(lia) Hst Hp) as Hsearch.
  destruct (search t p) as [|m vals|]; [|destruct Hsearch as [-> Hh]; split; [done|]|done].
  - intros h. rewrite <- Hperm. apply Hsearch.
  - intros h. rewrite <- Hperm. apply Hh.
Qed.

(** X21. In a tree built from static routes, registering a static path
    once more panics with "a handle is already registered", and
    registering any other static path returns. *)
Theorem static_route_again (rs : list (str * H)) t p h :
  Forall (fun r => static_path r.1) rs →
  addRoutes new_node rs = (t, Ret tt) →
  static_path p →
  (addRoute t p (Some h)).2 =
    if decide (p ∈ rs.*1) then Panics (HandleAlreadyRegistered p) else Ret tt.
Proof.
  intros Hrs Ht [Hp Hpne].
  destruct (addRoutes_static rs new_node static_root_new Hrs) as [_ H2].
  rewrite Ht in H2. destruct (H2 eq_refl) as (Hroot & Hperm & _). cbn [fst] in *.
  rewrite app_nil_r in Hperm.
  destruct (addRoute_static t p h Hroot Hp Hpne) as [Hin Hout].
  rewrite Hperm in Hin, Hout. destruct (decide (p ∈ rs.*1)) as [Hd|Hd]; [auto|].
  by destruct (Hout Hd).
Qed.

(** X25. In a tree built from fewer than 2^32 static routes, the
    priority of the root is the number of routes, every node below it
    has as priority the number of routes that pass through it, and the
    children of every node are in non-increasing order of priority. *)
Theorem static_priorities (rs : list (str * H)) t :
  Forall (fun r => static_path r.1) rs →
  addRoutes new_node rs = (t, Ret tt) →
  (Z.of_nat (length rs) < uint32_mod)%Z →
  priority t = Z.of_nat (length rs) ∧ counted t.
Proof.
  intros Hrs Ht Hbound.
  destruct (addRoutes_static rs new_node static_root_new Hrs) as [_ H2].
  rewrite Ht in H2. destruct (H2 eq_refl) as (_ & Hperm & Hcount). cbn [fst] in *.
  destruct (Hcount counted_root_new) as (Hp & Hc & _).
  { cbn [routes new_node length from_option app fmap list_fmap mbind list_bind].
    by rewrite Nat.add_0_r. }
  split; [|done]. rewrite Hp, Hperm. by rewrite app_nil_r.
Qed.

End Static.

(** Three static routes with a common prefix. *)
Definition static_table : list (str * nat) :=
  [(lit "/search", 0); (lit "/support", 1); (lit "/blog/", 2)].

Lemma static_table_ok : Forall (fun r => static_path r.1) static_table.
Proof. repeat constructor; vm_compute; repeat constructor; discriminate. Qed.

Lemma static_routes_found_witness :
  ∃ t, addRoutes new_node static_table = (t, Ret tt) ∧
       ∀ p, p ≠ [] →
            match search t p with
            | Found m vals => vals = [] ∧ ∀ h, handle m = Some h ↔ (p, h) ∈ static_table
            | NotFound => ∀ h, (p, h) ∉ static_table
            | SearchPanics => False
            end.
Proof.
  apply (static_routes_found static_table static_table_ok).
  apply (bool_decide_unpack _). vm_compute. exact I.
Defined.

Lemma static_route_again_witness :
  (addRoute (addRoutes new_node static_table).1 (lit "/support") (Some 7)).2 =
  Panics (HandleAlreadyRegistered (lit "/support")).
Proof.
  apply (static_route_again static_table _ (lit "/support") 7 static_table_ok).
  - vm_compute. reflexivity.
  - split; [vm_compute; repeat constructor|discriminate].
Defined.

Lemma static_priorities_witness :
  priority (addRoutes new_node static_table).1 = 3%Z ∧
  counted (addRoutes new_node static_table).1.
Proof.
  apply (static_priorities static_table _ static_table_ok).
  - vm_compute. reflexivity.
  - vm_compute. reflexivity.
Defined.

(** ** tree.go: search is safe on the trees addRoute builds *)

Section Safety.

Context {H : Type}.
Implicit Types (n l w : @node H) (pth : str).

(** At every node reached through literal and parameter children, the
    index string is no longer than the slice of children, so that
    [n.literals[i]] is in range for every index [i] of [n.indices]. *)
Inductive aligned : @node H → Prop :=
  | aligned_node n :
      length (indices n) ≤ length (literals n) →
      Forall aligned (literals n) →
      (∀ w, wild n = Some w → aligned w) →
      aligned n.

(** The tree after a series of [addRoute] calls on an empty tree,
    whether they returned or panicked. *)
Definition after_calls (calls : list (str * option H)) : @node H :=
  foldl (fun n c => (addRoute n c.1 c.2).1) new_node calls.

Lemma aligned_inv n :
  aligned n →
  length (indices n) ≤ length (literals n) ∧ Forall aligned (literals n) ∧
  (∀ w, wild n = Some w → aligned w).
Proof. by inversion 1. Qed.

Lemma aligned_fields n n' :
  literals n' = literals n → indices n' = indices n → wild n' = wild n →
  aligned n → aligned n'.
Proof.
  intros Hl Hi Hw (? & ? & ?)%aligned_inv. constructor; by rewrite ?Hl, ?Hi, ?Hw.
Qed.

Lemma aligned_new : aligned (@new_node H).
Proof. constructor; cbn; [lia|constructor|done]. Qed.

Lemma aligned_set_wild n w : aligned n → aligned w → aligned (set_wild n (Some w)).
Proof.
  intros (? & ? & ?)%aligned_inv Hw. constructor; cbn; [done..|]. by intros ? [= <-].
Qed.

Lemma aligned_set_literals n cs :
  aligned n → length (literals n) ≤ length cs → Forall aligned cs →
  aligned (set_literals n cs).
Proof. intros (? & ? & ?)%aligned_inv Hlen Hcs. constructor; cbn; [lia|done..]. Qed.

Lemma swap_length (cs : list (@node H)) i j : length (swap cs i j) = length cs.
Proof. unfold swap. repeat case_match; by rewrite ?length_insert. Qed.

Lemma move_front_length prio pos : ∀ (cs : list (@node H)),
  length (move_front cs prio pos).1 = length cs ∧ (move_front cs prio pos).2 ≤ pos.
Proof.
  induction pos as [|k IH]; intros cs; cbn [move_front]; [done|].
  destruct (cs !! k); [|done]. destruct (_ <? _)%Z; [|done].
  destruct (IH (swap cs k (S k))) as [-> ?]. rewrite swap_length. lia.
Qed.

Lemma slice_length (x y : str) lo hi : slice x lo hi = Some y → length y = hi - lo ∧ hi ≤ length x.
Proof.
  unfold slice. destruct (Nat.leb_spec lo hi); [|done].
  destruct (Nat.leb_spec hi (length x)); [|done]. intros [= <-].
  rewrite length_take, length_drop. lia.
Qed.

Lemma incrementLiteralPrio_aligned n pos :
  aligned n → aligned (incrementLiteralPrio n pos).1.
Proof.
  intros Hn. pose proof (aligned_inv n Hn) as (Hlen & Hlits & Hwild).
  unfold incrementLiteralPrio.
  destruct (literals n !! pos) as [c|] eqn:Hc; [|done].
  pose proof (move_front_Forall aligned (uint32_incr (priority c)) pos
                (<[pos:=incr_priority c]> (literals n))) as Hm.
  pose proof (move_front_length (uint32_incr (priority c)) pos
                (<[pos:=incr_priority c]> (literals n))) as [Hml Hmp].
  destruct (move_front _ _ _) as [cs newPos]. cbn [fst snd] in *.
  rewrite length_insert in Hml.
  assert (Hcs : Forall aligned cs).
  { apply Hm, Forall_insert; [done|].
    eapply aligned_fields; [..|by eapply (Forall_lookup_1 _ _ _ _ Hlits)]; done. }
  assert (Hn' : aligned (set_literals n cs)) by (apply aligned_set_literals; [done|lia|done]).
  case_bool_decide; [done|]. cbn [indices set_literals].
  destruct (slice (indices n) 0 newPos) as [a|] eqn:Ha; [|done].
  destruct (slice (indices n) pos (pos + 1)) as [b|] eqn:Hb; [|done].
  destruct (slice (indices n) newPos pos) as [d|] eqn:Hd; [|done].
  destruct (slice (indices n) (pos + 1) (length (indices n))) as [e|] eqn:He; [|done].
  apply slice_length in Ha as [Ha _], Hb as [Hb Hb'], Hd as [Hd _], He as [He _].
  cbn [fst]. constructor; cbn; [|done..]. rewrite !length_app. lia.
Qed.

Lemma insertChild_aligned fuel : ∀ n fullpath pth (h : option H) names,
  aligned n → aligned (insertChild fuel n fullpath pth h names).1.
Proof.
  assert (Hset : ∀ n p, aligned n → aligned (set_path n p)).
  { intros n p. by apply aligned_fields. }
  assert (Hleaf : ∀ (h : option H) names,
            aligned (set_handle
                       (incr_priority (set_path (set_nType new_node nodeType.param) [colon]))
                       h names)).
  { intros h names. constructor; cbn; [lia|constructor|done]. }
  induction fuel as [|fuel IH]; intros n fullpath pth h names Hn; cbn [insertChild].
  - destruct (findNextWildcard pth) as [[wildcard i]|].
    2:{ cbn. eapply aligned_fields; [..|exact Hn]; done. }
    destruct (Ascii.eqb wildcard colon).
    + destruct (wild n); [done|].
      destruct (1 <? length _); cbn [fst].
      * apply aligned_set_wild; [destruct (0 <? i); [by apply Hset|done]|].
        constructor; cbn; [lia|constructor|done].
      * apply aligned_set_wild; [destruct (0 <? i); [by apply Hset|done]|]. apply Hleaf.
    + destruct (negb _); [done|]. destruct (catchAll n); [done|]. cbn [fst].
      eapply (aligned_fields (if bool_decide (path n = []) then set_path n (take i pth) else n));
        [done..|]. case_bool_decide; [by apply Hset|done].
  - destruct (findNextWildcard pth) as [[wildcard i]|].
    2:{ cbn. eapply aligned_fields; [..|exact Hn]; done. }
    destruct (Ascii.eqb wildcard colon).
    + destruct (wild n); [done|].
      destruct (1 <? length _); cbn [fst].
      * match goal with |- context [insertChild fuel ?c ?f ?p ?hh ?nm] =>
          pose proof (IH c f p hh nm) as IHc;
          destruct (insertChild fuel c f p hh nm) as [child r]
        end.
        cbn [fst] in *.
        apply aligned_set_wild; [destruct (0 <? i); [by apply Hset|done]|].
        constructor; cbn; [lia| |done]. constructor; [|constructor].
        apply IHc. constructor; cbn; [lia|constructor|done].
      * apply aligned_set_wild; [destruct (0 <? i); [by apply Hset|done]|]. apply Hleaf.
    + destruct (negb _); [done|]. destruct (catchAll n); [done|]. cbn [fst].
      eapply (aligned_fields (if bool_decide (path n = []) then set_path n (take i pth) else n));
        [done..|]. case_bool_decide; [by apply Hset|done].
Qed.

Lemma split_aligned n i pth : aligned n → aligned (split n i pth).
Proof.
  intros Hn. constructor; cbn; [destruct (path n !! i); cbn; lia| |done].
  constructor; [|constructor]. by eapply aligned_fields; [..|exact Hn].
Qed.

Lemma walk_aligned fuel : ∀ n fullpath pth (h : option H) names,
  aligned n → aligned (walk fuel n fullpath pth h names).1.
Proof.
  induction fuel as [|fuel IH]; intros n fullpath pth h names Hn; [done|].
  cbn [walk]. cbv zeta.
  set (i := longestCommonPrefix (path n) pth).
  set (n1 := if i <? length (path n) then split n i pth else n).
  set (rest := if i <? length pth then drop i pth
               else if i =? length pth then [] else pth).
  assert (Hn1 : aligned n1).
  { subst n1. destruct (i <? length (path n)); [by apply split_aligned|done]. }
  clearbody n1 rest.
  pose proof (aligned_inv n1 Hn1) as (Hlen & Hlits & Hwild).
  destruct rest as [|nextChar rest'].
  { destruct (handle n1); [done|]. cbn [fst]. by eapply aligned_fields; [..|exact Hn1]. }
  destruct (if Ascii.eqb nextChar colon && _ then wild n1 else None) as [w|] eqn:Hw.
  { assert (Hw1 : wild n1 = Some w) by by destruct (_ && _).
    specialize (IH w fullpath (nextChar :: rest') h names (Hwild w Hw1)).
    destruct (walk fuel w _ _ _ _) as [w' r]. cbn [fst] in *.
    by apply aligned_set_wild. }
  destruct (if nodeType.eqb (nType n1) nodeType.param then literals n1 else [])
    as [|c cs] eqn:Hcs.
  2:{ assert (Hl1 : literals n1 = c :: cs) by by destruct (nodeType.eqb _ _).
      rewrite Hl1 in Hlits, Hlen. apply Forall_cons in Hlits as [Hc Hcs'].
      specialize (IH (incr_priority c) fullpath (nextChar :: rest') h names).
      destruct (walk fuel _ _ _ _ _) as [c' r]. cbn [fst] in *.
      apply aligned_set_literals; [done|by rewrite Hl1|].
      constructor; [|done]. apply IH. by eapply aligned_fields; [..|exact Hc]. }
  destruct (index_of nextChar (indices n1)) as [j|] eqn:Hj.
  - pose proof (incrementLiteralPrio_aligned n1 j Hn1) as Hn2.
    destruct (incrementLiteralPrio n1 j) as [n2 [j'|]]; [|done]. cbn [fst] in Hn2.
    pose proof (aligned_inv n2 Hn2) as (Hlen2 & Hlits2 & Hwild2).
    destruct (literals n2 !! j') as [c|] eqn:Hc; [|done].
    specialize (IH c fullpath (nextChar :: rest') h names
                  (Forall_lookup_1 _ _ _ _ Hlits2 Hc)).
    destruct (walk fuel c _ _ _ _) as [c' r]. cbn [fst] in *.
    apply aligned_set_literals; [done|by rewrite length_insert|].
    by apply Forall_insert.
  - destruct (negb (is_wildcard nextChar)).
    + match goal with |- context [incrementLiteralPrio ?a ?b] =>
        assert (Hn2 : aligned (incrementLiteralPrio a b).1);
        [|destruct (incrementLiteralPrio a b) as [n2 [newPos|]]; [|done]]
      end.
      { apply incrementLiteralPrio_aligned. constructor; cbn.
        - rewrite !length_app. cbn. lia.
        - apply Forall_app. split; [done|]. constructor; [apply aligned_new|constructor].
        - done. }
      cbn [fst] in Hn2. pose proof (aligned_inv n2 Hn2) as (Hlen2 & Hlits2 & Hwild2).
      match goal with |- context [literals n2 !! ?a] =>
        destruct (literals n2 !! a) as [child|] eqn:Hc; [|done]
      end.
      pose proof (insertChild_aligned (length (nextChar :: rest')) child fullpath
                    (nextChar :: rest') h names (Forall_lookup_1 _ _ _ _ Hlits2 Hc)) as Hi.
      destruct (insertChild _ _ _ _ _ _) as [child' r]. cbn [fst] in *.
      apply aligned_set_literals; [done|by rewrite length_insert|].
      by apply Forall_insert.
    + by apply insertChild_aligned.
Qed.

Lemma addRoute_aligned n pth (h : option H) : aligned n → aligned (addRoute n pth h).1.
Proof.
  intros Hn. unfold addRoute.
  assert (Hi : aligned (incr_priority n)) by by eapply aligned_fields; [..|exact Hn].
  destruct (normalizePath pth) as [[p names]| |]; [|done..].
  destruct (_ && _).
  - apply insertChild_aligned. by eapply aligned_fields; [..|exact Hi].
  - by apply walk_aligned.
Qed.

Lemma after_calls_aligned calls : aligned (after_calls calls).
Proof.
  unfold after_calls. induction calls as [|c calls IH] using rev_ind; [apply aligned_new|].
  rewrite foldl_app. cbn. by apply addRoute_aligned.
Qed.

Lemma scan_literals_safe (srch : @node H → str → found) nextChar pth lits idx otherwise :
  length idx ≤ length lits →
  Forall (fun l => srch l pth ≠ SearchPanics) lits →
  otherwise ≠ SearchPanics →
  scan_literals srch nextChar pth lits idx otherwise ≠ SearchPanics.
Proof.
  revert lits. induction idx as [|c idx IH]; intros lits Hlen Hl Ho; [by destruct lits|].
  destruct lits as [|l lits]; [cbn in Hlen; lia|]. cbn [scan_literals].
  apply Forall_cons in Hl as [Hl Hls]. cbn in Hlen.
  destruct (Ascii.eqb c nextChar); [|apply IH; [lia|done..]].
  destruct (srch l pth) eqn:E; [apply IH; [lia|done..]|done|done].
Qed.

Lemma search_safe k : ∀ n pth, height n ≤ k → aligned n → search n pth ≠ SearchPanics.
Proof.
  induction k as [|k IH]; intros n pth Hk Hn.
  { rewrite height_unfold in Hk. lia. }
  pose proof (aligned_inv n Hn) as (Hlen & Hlits & Hwild).
  assert (Hfb : ∀ q, search_fallback n q ≠ SearchPanics).
  { intros q. unfold search_fallback. destruct q as [|a q]; [done|].
    destruct (negb _); [|done]. cbv zeta.
    destruct (wild n) as [wn|] eqn:Hw; [|by destruct (catchAll n)].
    pose proof (aligned_inv wn (Hwild wn eq_refl)) as (_ & Hwl & _).
    pose proof (height_wild n wn Hw) as Hhw.
    match goal with |- context [snd ?t] => destruct (snd t) as [|b q'] end.
    { destruct (handle wn); [done|]. by destruct (catchAll n). }
    destruct (literals wn) as [|l ls] eqn:Hl; [by destruct (catchAll n)|].
    apply Forall_cons in Hwl as [Hal _].
    assert (Hhl : height l ≤ k).
    { assert (Hin : l ∈ literals wn) by (rewrite Hl; left).
      apply height_literal in Hin. lia. }
    specialize (IH l (b :: q') Hhl Hal).
    destruct (search l (b :: q')); [by destruct (catchAll n)|done|done]. }
  rewrite search_unfold. destruct pth as [|a pth]; [done|].
  destruct (HasPrefix _ _); [|apply Hfb].
  destruct (drop _ _) as [|nextChar rest] eqn:Hd; [done|]. cbv zeta.
  apply scan_literals_safe; [done| |apply Hfb].
  apply Forall_forall. intros l Hl. apply IH.
  - apply height_literal in Hl. lia.
  - by eapply (proj1 (Forall_forall _ _) Hlits).
Qed.

(** X22. On the tree left by any series of [addRoute] calls on an empty
    tree, whether they returned or panicked, [search] never indexes
    [n.literals] out of range, whatever the path. *)
Theorem search_after_calls_safe (calls : list (str * option H)) pth :
  search (after_calls calls) pth ≠ SearchPanics.
Proof. apply (search_safe (height (after_calls calls))); [lia|apply after_calls_aligned]. Qed.

End Safety.

(** ** tree.go: a route with wildcards, registered and looked up *)

(** The values fit the wildcards of a normalized path: there is one for
    each wildcard byte, none is empty or starts with a slash, and the
    value of a [':'] holds no slash. *)
Fixpoint fits (np : str) (vals : list str) : Prop :=
  match np with
  | [] => vals = []
  | c :: np' =>
    if is_wildcard c then
      match vals with
      | v :: vals' =>
        v ≠ [] ∧ head v ≠ Some slash ∧ (c = colon → slash ∉ v) ∧ fits np' vals'
      | [] => False
      end
    else fits np' vals
  end.

Lemma substitute_plain (pre rest : str) vals :
  Forall plain pre → substitute (pre ++ rest) vals = pre ++ substitute rest vals.
Proof.
  induction 1 as [|c pre Hc _ IH]; [done|]. cbn. unfold plain in Hc. by rewrite Hc, IH.
Qed.

Lemma fits_plain (pre rest : str) vals :
  Forall plain pre → fits (pre ++ rest) vals ↔ fits rest vals.
Proof. induction 1 as [|c pre Hc _ IH]; [done|]. cbn. unfold plain in Hc. by rewrite Hc. Qed.

Lemma shaped_app (pre rest : str) : shaped (pre ++ rest) → shaped rest.
Proof. induction pre as [|c pre IH]; [done|]. cbn. intros (_ & _ & ?). auto. Qed.

Lemma IndexByte_none (v : str) c : c ∉ v → IndexByte v c = None.
Proof.
  induction v as [|b v IH]; [done|]. intros [Hb Hv]%not_elem_of_cons. cbn.
  destruct (Ascii.eqb_spec b c); [congruence|]. by rewrite IH.
Qed.

Lemma IndexByte_app (v rest : str) c :
  c ∉ v → head rest = Some c → IndexByte (v ++ rest) c = Some (length v).
Proof.
  intros Hv Hr. induction v as [|b v IH]; cbn.
  - destruct rest as [|x rest]; [done|]. cbn in Hr. injection Hr as ->.
    cbn [IndexByte length]. by rewrite Ascii.eqb_refl.
  - apply not_elem_of_cons in Hv as [Hb Hv]. destruct (Ascii.eqb_spec b c); [congruence|].
    by rewrite IH.
Qed.

Section RoundTrip.

Context {H : Type}.
Implicit Types (n l w m : @node H) (np pth : str).

Lemma HasPrefix_app (x rest : str) : HasPrefix (x ++ rest) x = true.
Proof.
  induction x as [|c x IH]; [by destruct rest|].
  cbn [HasPrefix app]. by rewrite Ascii.eqb_refl, IH.
Qed.

(** [search] with the path equal to the segment of the node. *)
Lemma search_exact n : search n (path n) = Found n [].
Proof.
  rewrite search_unfold. destruct (path n) as [|c x] eqn:E; [done|].
  rewrite <- (app_nil_r (c :: x)) at 1. rewrite HasPrefix_app.
  by rewrite drop_all.
Qed.

(** [search] with the segment of the node as a proper prefix of the
    path. *)
Lemma search_below n c (rest : str) :
  search n (path n ++ c :: rest) =
  scan_literals search c (c :: rest) (literals n) (indices n)
    (search_fallback n (c :: rest)).
Proof.
  rewrite search_unfold. destruct (path n ++ c :: rest) as [|a x] eqn:E.
  { by destruct (path n). }
  rewrite <- E, HasPrefix_app, drop_app_length. done.
Qed.

Lemma fallback_wild_more n wn l ls (v rest : str) m vals :
  wild n = Some wn → literals wn = l :: ls →
  v ≠ [] → slash ∉ v → head rest = Some slash →
  search l rest = Found m vals →
  search_fallback n (v ++ rest) = Found m (v :: vals).
Proof.
  intros Hw Hl Hv Hs Hr Hsearch. unfold search_fallback.
  destruct v as [|a v']; [done|]. cbn [app].
  assert (Ha : a ≠ slash) by (intros ->; apply Hs; left).
  destruct (Ascii.eqb_spec a slash) as [|_]; [done|]. cbn [negb]. cbv zeta.
  rewrite Hw. change (a :: v' ++ rest) with ((a :: v') ++ rest).
  rewrite (IndexByte_app (a :: v') rest slash Hs Hr). cbn [length fst snd].
  change (S (length v')) with (length (a :: v')).
  rewrite take_app_length, drop_app_length, Hl, Hsearch.
  by destruct rest.
Qed.

Lemma fallback_wild_end n wn (v : str) h :
  wild n = Some wn → handle wn = Some h → v ≠ [] → slash ∉ v →
  search_fallback n v = Found wn [v].
Proof.
  intros Hw Hh Hv Hs. unfold search_fallback.
  destruct v as [|a v']; [done|].
  assert (Ha : a ≠ slash) by (intros ->; apply Hs; left).
  destruct (Ascii.eqb_spec a slash) as [|_]; [done|]. cbn [negb]. cbv zeta.
  by rewrite Hw, (IndexByte_none _ _ Hs), Hh.
Qed.

Lemma fallback_catchAll n c (v : str) :
  wild n = None → catchAll n = Some c → v ≠ [] → head v ≠ Some slash →
  search_fallback n v = Found c [v].
Proof.
  intros Hw Hc Hv Hs. unfold search_fallback.
  destruct v as [|a v']; [done|].
  destruct (Ascii.eqb_spec a slash) as [->|_]; [done|]. cbn [negb]. cbv zeta.
  by rewrite Hw, Hc.
Qed.

(** A node as [&node{}] leaves it, but for priority and type. *)
Definition fresh n : Prop :=
  path n = [] ∧ literals n = [] ∧ indices n = [] ∧ wild n = None ∧ catchAll n = None.

(** [insertChild] of a normalized path at a fresh node returns, and
    [search] from the node finds the handler at the path with any
    fitting values put for the wildcards, and captures these values. *)
Lemma insertChild_found fuel : ∀ n fullpath np (h : H) names vals,
  length np ≤ fuel → fresh n → shaped np → fits np vals →
  ∃ n' m, insertChild fuel n fullpath np (Some h) names = (n', Ret tt) ∧
          search n' (substitute np vals) = Found m vals ∧
          handle m = Some h ∧ wildcardNames m = names.
Proof.
  induction fuel as [|fuel IH]; intros n fullpath np h names vals Hfuel Hn Hshape Hfits.
  { destruct np; [|cbn in Hfuel; lia]. cbn in Hfits. subst vals.
    eexists _, _. cbn. split; [done|]. by destruct n. }
  destruct Hn as (Hpath & Hlits & Hidx & Hwild & Hcatch).
  pose proof (findNextWildcard_first np) as Hfirst. cbn [insertChild].
  destruct (findNextWildcard np) as [[c i]|].
  2:{ (* no wildcard *)
      rewrite <- (app_nil_r np) in Hfits. apply fits_plain in Hfits; [|done].
      cbn in Hfits. subst vals.
      assert (Hsub : substitute np [] = np).
      { rewrite <- (app_nil_r np) at 1. rewrite substitute_plain by done.
        cbn [substitute]. by rewrite app_nil_r. }
      rewrite Hsub. exists (set_handle (set_path n np) (Some h) names),
                      (set_handle (set_path n np) (Some h) names).
      split_and!; [done| |done..].
      apply (search_exact (set_handle (set_path n np) (Some h) names)). }
  destruct Hfirst as (Hi & Hc & Hpre).
  pose proof (take_drop_middle _ _ _ Hi) as Hnp.
  set (pre := take i np) in *. set (rest := drop (S i) np) in *.
  assert (Hlen : length pre = i).
  { subst pre. rewrite length_take. apply lookup_lt_Some in Hi. lia. }
  rewrite <- Hnp in Hshape, Hfits, Hfuel |- *.
  apply shaped_app in Hshape. cbn [shaped] in Hshape. destruct Hshape as (Hnext & Hstar & Hshape).
  specialize (Hnext Hc). apply fits_plain in Hfits; [|done].
  cbn [fits] in Hfits. rewrite Hc in Hfits.
  destruct vals as [|v vals]; [done|]. destruct Hfits as (Hv & Hvs & Hvc & Hfits).
  rewrite substitute_plain by done. cbn [substitute]. rewrite Hc.
  rewrite length_app in Hfuel. cbn [length] in Hfuel.
  set (n1 := if 0 <? i then set_path n pre else n).
  assert (Hn1 : path n1 = pre ∧ literals n1 = [] ∧ indices n1 = [] ∧
                wild n1 = None ∧ catchAll n1 = None).
  { subst n1. destruct (Nat.ltb_spec 0 i); [done|].
    split_and!; [|done..]. rewrite Hpath. destruct pre; [done|cbn in Hlen; lia]. }
  destruct Hn1 as (Hp1 & Hl1 & Hi1 & Hw1 & Hc1).
  destruct v as [|v0 v']; [done|].
  destruct (Ascii.eqb_spec c colon) as [->|Hcolon].
  - (* a parameter *)
    rewrite Hwild.
    assert (Hslash : slash ∉ v0 :: v') by by apply Hvc.
    replace (if 0 <? i then drop i (pre ++ colon :: rest) else pre ++ colon :: rest)
      with (colon :: rest).
    2:{ destruct (Nat.ltb_spec 0 i).
        - by rewrite <- Hlen, drop_app_length.
        - destruct pre; [done|cbn in Hlen; lia]. }
    fold n1. cbn [length drop].
    destruct rest as [|r0 rest'] eqn:Hrest.
    + (* the wildcard ends the path *)
      cbn [length Nat.ltb Nat.leb]. cbn in Hfits. subst vals.
      set (wn := set_handle _ (Some h) names).
      exists (set_wild n1 (Some wn)), wn. rewrite app_nil_r.
      split_and!; [done| |done..].
      rewrite <- Hp1. change (path n1) with (path (set_wild n1 (Some wn))).
      cbn [app]. rewrite search_below.
      cbn [literals indices set_wild]. rewrite Hl1, Hi1. cbn [scan_literals].
      by eapply fallback_wild_end.
    + (* the path goes on *)
      rewrite <- Hrest in *.
      replace (1 <? S (length rest)) with true
        by (symmetry; apply Nat.ltb_lt; rewrite Hrest; cbn; lia).
      destruct Hnext as [?|Hnext]; [congruence|].
      destruct (IH (set_priority new_node 1%Z) fullpath rest h names vals)
        as (child & m & Hins & Hsearch & Hh & Hnames);
        [lia|done|done|done|].
      rewrite drop_0, Hins.
      match goal with |- ∃ n' m', (?x, _) = _ ∧ _ => exists x, m end.
      split_and!; [done| |done..].
      match goal with |- search ?x _ = _ => rewrite <- Hp1;
        change (path n1) with (path x) end.
      cbn [app]. rewrite search_below.
      cbn [literals indices set_wild]. rewrite Hl1, Hi1. cbn [scan_literals].
      change (v0 :: v' ++ substitute rest vals) with ((v0 :: v') ++ substitute rest vals).
      eapply fallback_wild_more; [done|done|done|done| |done].
      rewrite Hrest in Hnext |- *. cbn in Hnext. injection Hnext as ->.
      by cbn.
  - (* a catch-all *)
    assert (c = star) as ->.
    { unfold is_wildcard in Hc. apply orb_true_iff in Hc as [Hc|Hc];
        apply Ascii.eqb_eq in Hc; congruence. }
    specialize (Hstar eq_refl). rewrite Hstar in *. cbn in Hfits. subst vals.
    rewrite length_app. cbn [length]. rewrite Nat.add_sub, Hlen, Nat.eqb_refl. cbn [negb].
    rewrite Hcatch, Hpath. rewrite bool_decide_eq_true_2 by done.
    match goal with |- ∃ n' m', (set_catchAll ?x (Some ?y), _) = _ ∧ _ =>
      exists (set_catchAll x (Some y)), y end.
    rewrite app_nil_r. split_and!; [done| |done..].
    match goal with |- search ?x _ = _ => change pre with (path x) at 2 end.
    cbn [app]. rewrite search_below.
    cbn [literals indices set_catchAll set_path]. rewrite Hlits, Hidx. cbn [scan_literals].
    by eapply fallback_catchAll.
Qed.

(** X23. A pattern that [normalizePath] accepts can be registered in an
    empty tree, and then [search] finds its handler at every path made
    from the pattern by putting for each [:name] a non-empty value
    without a slash, and for [*name] a non-empty value that does not
    start with a slash; it captures these values in order, and the
    node found carries the names of the pattern. *)
Theorem single_route_found (p np : str) names (h : H) vals :
  normalizePath p = Ret (np, names) → fits np vals →
  ∃ t m, addRoute new_node p (Some h) = (t, Ret tt) ∧
         search t (substitute np vals) = Found m vals ∧
         handle m = Some h ∧ wildcardNames m = names.
Proof.
  intros Hnorm Hfits. unfold addRoute. rewrite Hnorm. cbn [path indices incr_priority
    set_priority new_node length Nat.eqb andb].
  apply insertChild_found; [done|done| |done].
  apply normalizePath_normalizes in Hnorm. by eapply normalizes_shaped.
Qed.

End RoundTrip.

Lemma single_route_found_witness :
  ∃ t m, addRoute new_node (lit "/user/:name/files/*path") (Some 5) = (t, Ret tt) ∧
         search t (lit "/user/gopher/files/a/b.txt") = Found m [lit "gopher"; lit "a/b.txt"] ∧
         handle m = Some 5 ∧ wildcardNames m = [lit "name"; lit "path"].
Proof.
  apply (single_route_found (lit "/user/:name/files/*path") (lit "/user/:/files/*")
           [lit "name"; lit "path"] 5 [lit "gopher"; lit "a/b.txt"]).
  - vm_compute. reflexivity.
  - vm_compute. repeat split; try discriminate.
    intros _ Hin. repeat (apply elem_of_cons in Hin as [Hin|Hin]; [discriminate|]).
    by apply elem_of_nil in Hin.
Defined.

(** ** router.go: a route registered with Handler and looked up *)

Lemma fits_length (np : str) : ∀ vals, fits np vals → length vals = wildcards np.
Proof.
  unfold wildcards. induction np as [|c np IH]; intros vals Hf; cbn in Hf.
  { by subst. }
  destruct (is_wildcard c) eqn:Hc.
  - destruct vals as [|v vals]; [done|]. destruct Hf as (_ & _ & _ & Hf).
    rewrite filter_cons_True by done. cbn. by rewrite (IH _ Hf).
  - rewrite filter_cons_False by congruence. auto.
Qed.

Lemma param_key_name (name : str) : Forall name_byte name → param_key name = name.
Proof.
  intros Hn. unfold param_key. case_bool_decide as Hs; [|done]. subst name.
  apply Forall_cons in Hn as [[_ Hw] _]. done.
Qed.

Lemma paired_named (names vals : list str) :
  Forall (fun name => name ≠ [] ∧ Forall name_byte name) names →
  length names = length vals →
  paired names vals = zip_with mkParam names vals.
Proof.
  intros Hn Hlen. unfold paired. rewrite Hlen, Nat.sub_diag, app_nil_r. clear Hlen.
  revert vals. induction Hn as [|name names [_ Hname] _ IH]; intros vals; [done|].
  destruct vals as [|v vals]; [done|]. cbn. by rewrite param_key_name, IH.
Qed.

Section HandlerLookup.

Context {H : Type}.

(** X24. After [Handler] has registered a pattern for a method that had
    no route yet, [lookup] of that method at a path made from the
    pattern, with a non-empty value without slash for each [:name] and a
    non-empty value not starting with a slash for [*name], returns the
    handler and one parameter per wildcard, in order, keyed by the name
    given in the pattern, the catch-all too. *)
Theorem Handler_lookup (r : @Router H) (method p np : str) names (h : H) vals :
  method ≠ [] → head p = Some slash → trees r !! method = None →
  normalizePath p = Ret (np, names) → fits np vals →
  (Handler r method p (Some h)).2 = Ret tt ∧
  lookup (Handler r method p (Some h)).1 method (substitute np vals) =
    Ret (Some h, zip_with mkParam names vals).
Proof.
  intros Hm Hp Ht Hnorm Hfits.
  pose proof (normalizePath_normalizes _ _ _ Hnorm) as Hn.
  pose proof (normalizes_names _ _ _ Hn) as [Hlen Hnames].
  pose proof (fits_length _ _ Hfits) as Hvals. unfold wildcards in Hvals.
  assert (Heq : length names = length vals) by congruence.
  destruct (insertChild_found (length np) (set_nType (incr_priority new_node) nodeType.root)
              p np h names vals) as (t & m & Hins & Hsearch & Hh & Hnm);
    [done|done|by eapply normalizes_shaped|done|].
  assert (Hadd : addRoute new_node p (Some h) = (t, Ret tt)).
  { unfold addRoute. rewrite Hnorm. exact Hins. }
  unfold Handler. rewrite bool_decide_eq_false_2 by done.
  rewrite bool_decide_eq_true_2 by done. cbn [negb]. rewrite Ht.
  assert (Hlook : ∀ r' : @Router H, trees r' !! method = Some t →
            lookup r' method (substitute np vals) = Ret (Some h, zip_with mkParam names vals)).
  { intros r' Hr'. unfold lookup. rewrite Hr', Hsearch, Hh, Hnm.
    destruct vals as [|v vals].
    { cbn. by destruct names. }
    cbn [length Nat.ltb Nat.leb].
    pose proof (fill_params_spec names [] (v :: vals) ltac:(cbn; lia)) as Hf.
    cbn [length app Nat.sub Nat.add drop] in Hf. rewrite Hf.
    rewrite decide_True by (cbn [length] in Heq; lia). by rewrite paired_named. }
  destruct (allowed _ _ _); rewrite Hadd; cbn [fst snd]; (split; [done|]);
    apply Hlook; apply lookup_insert_eq.
Qed.

End HandlerLookup.

Lemma Handler_lookup_witness :
  (Handler New GET (lit "/user/:name/files/*path") (Some 5)).2 = Ret tt ∧
  lookup (Handler New GET (lit "/user/:name/files/*path") (Some 5)).1 GET
    (lit "/user/gopher/files/a/b.txt") =
  Ret (Some 5, [mkParam (lit "name") (lit "gopher"); mkParam (lit "path") (lit "a/b.txt")]).
Proof.
  apply (Handler_lookup New GET (lit "/user/:name/files/*path") (lit "/user/:/files/*")
           [lit "name"; lit "path"] 5 [lit "gopher"; lit "a/b.txt"]).
  - discriminate.
  - reflexivity.
  - reflexivity.
  - vm_compute. reflexivity.
  - vm_compute. repeat split; try discriminate.
    intros _ Hin. repeat (apply elem_of_cons in Hin as [Hin|Hin]; [discriminate|]).
    by apply elem_of_nil in Hin.
Defined.
